(** * A shallow embedding of the TSP solver (package [tsp_solver])

    Sources embedded here:
    - [pkg/graph.go]  : [Graph], [NewGraph], [AddEdge], [NodeCount], [EdgeCount]
    - [pkg/solve.go]  : [SolveTSP], [randomizedNearestNeighbor], [twoOpt], [reverse]
    - [cmd/solver/main.go] : [loadGraph], and the [-cpu] flag of [main]
    - the adjacency-list variant of [Graph] found in a second, unnamed source
      file (module [AdjList] below).

    Conventions.
    - Node identifiers are Go [int]s; no arithmetic is ever done on them
      (only [max], [min] and equality), so they are modelled as [Z].
    - Slice indices and lengths are [nat].
    - [map[int]map[int]float64] is a [gmap Z (gmap Z W)], [map[int]bool]
      holding only [true] is a [gset Z], slices are lists.
    - [float64] arithmetic is kept abstract behind the interface [Weight];
      the instance [float64] interprets it by Rocq's primitive binary64
      floats, the instance [nano] by exact fixed-point arithmetic.
    - What the Go runtime decides (the order in which [range] walks a map,
      the values drawn from [*rand.Rand], the moment the context deadline
      fires, the order in which goroutines take the mutex) is passed to the
      model as explicit input. *)

From Stdlib Require Import ZArith Floats.
From stdpp Require Import gmap list sorting.

Open Scope Z_scope.

(** ** Weights: the [float64] operations the solver uses *)

Class Weight (W : Type) := {
  wzero : W;              (* the literal 0.0, also the value of a missing map key *)
  wadd : W → W → W;       (* a + b *)
  wsub : W → W → W;       (* a - b *)
  wlt : W → W → bool;     (* a < b    (a > b is [wlt b a]) *)
  wnegeps : W;            (* the literal -1e-9 *)
  wmaxfloat : W           (* math.MaxFloat64 *)
}.

(** IEEE 754 binary64, as Go's [float64]. The literal -1e-9 is written as the
    binary64 value nearest to it. *)
#[export] Instance float64 : Weight float := {|
  wzero := 0%float;
  wadd := PrimFloat.add;
  wsub := PrimFloat.sub;
  wlt := PrimFloat.ltb;
  wnegeps := (-0x1.12e0be826d695p-30)%float;
  wmaxfloat := 0x1.fffffffffffffp+1023%float
|}.

(** Exact decimal fixed point: a weight is an integer number of units of
    1e-9, so that the literal -1e-9 is -1 and [MaxFloat64] is [nano_max]
    units. *)
Definition nano_max : Z := (2 ^ 1024 - 2 ^ 971) * 10 ^ 9.

#[export] Instance nano : Weight Z := {|
  wzero := 0;
  wadd := Z.add;
  wsub := Z.sub;
  wlt := Z.ltb;
  wnegeps := -1;
  wmaxfloat := nano_max
|}.

(** Arithmetic without rounding: the laws of a commutative group that the
    cost bookkeeping relies on. [nano] has them; [float64] does not (its
    addition is not associative), and what is proved of it goes through
    the integers that it adds exactly, see [ExactOn]. *)
Class ExactWeight (W : Type) `{Weight W} : Prop := {
  wadd_comm : ∀ a b : W, wadd a b = wadd b a;
  wadd_assoc : ∀ a b c : W, wadd a (wadd b c) = wadd (wadd a b) c;
  wadd_zero_l : ∀ a : W, wadd wzero a = a;
  wsub_cancel : ∀ a b : W, wadd b (wsub a b) = a
}.

(** An order on costs that addition of a move's delta respects. *)
Class OrderedWeight (W : Type) `{Weight W} := {
  wle : W → W → Prop;
  wle_refl : ∀ a : W, wle a a;
  wle_trans : ∀ a b c : W, wle a b → wle b c → wle a c;
  wadd_improving : ∀ c d : W, wlt d wnegeps = true → wle (wadd c d) c
}.

(** A strict order on costs that addition of a move's delta respects. *)
Class StrictWeight (W : Type) `{Weight W} := {
  wbelow : W → W → Prop;
  wbelow_irrefl : ∀ a : W, ¬ wbelow a a;
  wbelow_trans : ∀ a b c : W, wbelow a b → wbelow b c → wbelow a c;
  wadd_strict : ∀ c d : W, wlt d wnegeps = true → wbelow (wadd c d) c
}.

(** ** graph.go *)

Section GraphDef.
Context {W : Type}.

(** [type Graph struct { edges map[int]map[int]float64; nodes []int }] *)
Record Graph := mkGraph {
  edges : gmap Z (gmap Z W);
  nodes : list Z
}.

(** [NewGraph]: the graph does not depend on the capacity hint [nCount].
    The call itself asks [make] for a slice of capacity [nCount], which
    panics at run time for a negative or oversized value: [loadGraph],
    the one caller that passes a value read from outside, checks
    [allocates] before it calls [NewGraph]. *)
Definition NewGraph (nCount : Z) : Graph :=
  {| edges := ∅; nodes := [] |}.

(** [if g.edges[n] == nil { g.edges[n] = make(...); g.nodes = append(g.nodes, n) }]
    A key is missing exactly when its inner map is [nil]: inner maps are
    only ever stored by this statement. *)
Definition register (n : Z) (g : Graph) : Graph :=
  match edges g !! n with
  | None => {| edges := <[n := ∅]> (edges g); nodes := nodes g ++ [n] |}
  | Some _ => g
  end.

(** [g.edges[a][b] = weight]. The inner map is a reference: the write is
    seen through the outer map. Writing through a missing key would panic
    in Go; [AddEdge] registers both keys first. *)
Definition setWeight (a b : Z) (w : W) (g : Graph) : Graph :=
  {| edges := <[a := <[b := w]> (default ∅ (edges g !! a))]> (edges g);
     nodes := nodes g |}.

Definition AddEdge (from to : Z) (weight : W) (g : Graph) : Graph :=
  let f := Z.max from to in
  let t := Z.min from to in
  let g := register f g in
  let g := register t g in
  let g := setWeight f t weight g in
  setWeight t f weight g.

Definition NodeCount (g : Graph) : nat := length (nodes g).

Definition EdgeCount (g : Graph) : nat :=
  map_fold (λ _ (es : gmap Z W) count, (count + size es)%nat) 0%nat (edges g).

(** [graph.edges[u]]: indexing the outer map; a missing key gives the
    [nil] map, which reads as empty. *)
Definition neighbors (g : Graph) (u : Z) : gmap Z W :=
  default ∅ (edges g !! u).

(** [w, ok := graph.edges[u][v]] *)
Definition edge (g : Graph) (u v : Z) : option W := neighbors g u !! v.

(** [w := graph.edges[u][v]]: a missing entry reads as 0.0. *)
Definition weightOf `{Weight W} (g : Graph) (u v : Z) : W :=
  default wzero (edge g u v).

(** A graph as the package's clients can obtain one: [NewGraph] followed
    by calls of [AddEdge] (the fields are unexported). *)
Definition build (calls : list (Z * Z * W)) : Graph :=
  foldl (λ g '(from, to, w), AddEdge from to w g) (NewGraph 0) calls.
End GraphDef.

Arguments Graph W : clear implicits.

(** ** What the Go runtime decides *)

(** [*rand.Rand]. The generator of [math/rand] is not part of the package;
    a source is modelled by what it returns: [draws k] is the value behind
    the [k]-th call, and [drawn] counts the calls made so far. [Intn n]
    panics in Go for [n <= 0]; the solver calls it with [nodeCount >= 2]
    and with [len(topK) > 0] only. *)
Record Rand := mkRand { draws : nat → nat; drawn : nat }.

Definition Intn (rng : Rand) (n : nat) : nat * Rand :=
  ((draws rng (drawn rng) `mod` n)%nat,
   {| draws := draws rng; drawn := S (drawn rng) |}).

(** The order in which a [range] statement walks a map is chosen by the
    runtime, anew for every [range]. [shuffle picks l] is the listing of
    [l] in which the element at index [p] (of what is left) comes next, for
    each [p] of [picks] in turn; it is a permutation of [l] whatever
    [picks] is, and every permutation of [l] is [shuffle picks l] for some
    [picks] (lemmas [shuffle_Permutation] and [shuffle_complete]). *)
Fixpoint shuffle {A} (picks : list nat) (l : list A) : list A :=
  match picks with
  | [] => l
  | p :: picks =>
      match l !! p with
      | Some x => x :: shuffle picks (delete p l)
      | None => l
      end
  end.

(** [picks k] drives the [k]-th [range] over a map; [ranged] counts the
    [range] statements executed so far. *)
Record MapOrder := mkMapOrder { picks : nat → list nat; ranged : nat }.

Definition rangeMap {A} (mo : MapOrder) (m : gmap Z A) : list (Z * A) * MapOrder :=
  (shuffle (picks mo (ranged mo)) (map_to_list m),
   {| picks := picks mo; ranged := S (ranged mo) |}).

(** [path[i]] on a slice of node identifiers. Go panics when [i] is out of
    range; every use below is in range (lemmas [idx_lookup] and the range
    facts of each loop). *)
Definition idx (path : list Z) (i : nat) : Z := default 0 (path !! i).

(** ** solve.go: [reverse] *)

(** [path[i], path[j] = path[j], path[i]] *)
Definition swap (path : list Z) (i j : nat) : list Z :=
  <[j := idx path i]> (<[i := idx path j]> path).

(** [for i < j { swap; i++; j-- }]. The loop runs at most [j - i] times,
    which is the fuel [reverse] gives it (lemma [reverseLoop_fuel]). *)
Fixpoint reverseLoop (fuel : nat) (path : list Z) (i j : nat) : list Z :=
  match fuel with
  | O => path
  | S fuel =>
      if (i <? j)%nat then reverseLoop fuel (swap path i j) (S i) (j - 1) else path
  end.

Definition reverse (path : list Z) (i j : nat) : list Z :=
  reverseLoop (j - i) path i j.

(** ** solve.go: [randomizedNearestNeighbor] *)

Section Construction.
Context {W : Type} `{Weight W}.

(** [type candidate struct { node int; dist float64 }] *)
Record candidate := mkCandidate { node : Z; dist : W }.

(** [topK[i]]; always in range where it is used. *)
Definition cand (topK : list candidate) (i : nat) : candidate :=
  default (mkCandidate 0 wzero) (topK !! i).

(** [maxDistIdx := 0
     for i := 1; i < len(topK); i++ {
       if topK[i].dist > topK[maxDistIdx].dist { maxDistIdx = i } }] *)
Definition worst (topK : list candidate) : nat :=
  foldl (λ maxDistIdx i,
           if wlt (dist (cand topK maxDistIdx)) (dist (cand topK i))
           then i else maxDistIdx)
        0%nat (seq 1 (length topK - 1)).

(** The body of [for n, w := range neighbors], with [k := 3]. *)
Definition consider (visited : gset Z) (topK : list candidate) (nw : Z * W)
    : list candidate :=
  let '(n, w) := nw in
  if decide (n ∈ visited) then topK
  else if (length topK <? 3)%nat then topK ++ [mkCandidate n w]
  else
    let maxDistIdx := worst topK in
    if wlt w (dist (cand topK maxDistIdx))
    then <[maxDistIdx := mkCandidate n w]> topK
    else topK.

(** The local variables of the construction loop. *)
Record walk := mkWalk {
  current : Z;
  path : list Z;
  visited : gset Z;
  totalCost : W
}.

(** [for len(path) < numNodes { ... }]: every iteration that does not
    return appends one node, so the loop body runs [todo = numNodes -
    len(path)] times at most. [None] is the early [return nil, 0, false]. *)
Fixpoint walkLoop (todo : nat) (graph : Graph W) (st : walk) (rng : Rand)
    (mo : MapOrder) : option walk * Rand * MapOrder :=
  match todo with
  | O => (Some st, rng, mo)
  | S todo =>
      let '(entries, mo) := rangeMap mo (neighbors graph (current st)) in
      let topK := foldl (consider (visited st)) [] entries in
      if (length topK =? 0)%nat then (None, rng, mo)
      else
        let '(r, rng) := Intn rng (length topK) in
        let choice := cand topK r in
        walkLoop todo graph
          {| current := node choice;
             path := path st ++ [node choice];
             visited := {[node choice]} ∪ visited st;
             totalCost := wadd (totalCost st) (dist choice) |}
          rng mo
  end.

(** The result is [Some (path, totalCost)] for [path, totalCost, true] and
    [None] for [nil, 0, false]; the random source and the runtime's
    [range] counter are returned as the call leaves them. *)
Definition randomizedNearestNeighbor (startNode : Z) (numNodes : nat)
    (graph : Graph W) (rng : Rand) (mo : MapOrder)
    : option (list Z * W) * Rand * MapOrder :=
  let st := {| current := startNode; path := [startNode];
               visited := {[startNode]}; totalCost := wzero |} in
  let '(r, rng, mo) := walkLoop (numNodes - 1) graph st rng mo in
  match r with
  | None => (None, rng, mo)
  | Some st =>
      let first := idx (path st) 0 in
      let last := idx (path st) (length (path st) - 1) in
      match edge graph last first with
      | Some w => (Some (path st, wadd (totalCost st) w), rng, mo)
      | None => (None, rng, mo)
      end
  end.
End Construction.

Arguments candidate W : clear implicits.
Arguments walk W : clear implicits.

(** ** solve.go: [twoOpt] *)

Section LocalSearch.
Context {W : Type} `{Weight W}.

(** The variables of [twoOpt]: [path], [currentCost], [improved]. [trail]
    is not in the source: it records the running cost after every applied
    move, latest first, and nothing reads it. *)
Record search := mkSearch {
  tour : list Z;
  currentCost : W;
  improved : bool;
  trail : list W
}.

(** The body of the inner [for j] loop. *)
Definition tryMove (graph : Graph W) (size i j : nat) (st : search) : search :=
  if ((i =? 0) && (j =? size - 1))%nat then st
  else
    let u1 := idx (tour st) i in
    let v1 := idx (tour st) ((i + 1) `mod` size) in
    let u2 := idx (tour st) j in
    let v2 := idx (tour st) ((j + 1) `mod` size) in
    let w1 := weightOf graph u1 v1 in
    let w2 := weightOf graph u2 v2 in
    match edge graph u1 u2, edge graph v1 v2 with
    | Some wNew1, Some wNew2 =>
        let delta := wsub (wadd wNew1 wNew2) (wadd w1 w2) in
        if wlt delta wnegeps then
          {| tour := reverse (tour st) (i + 1) j;
             currentCost := wadd (currentCost st) delta;
             improved := true;
             trail := wadd (currentCost st) delta :: trail st |}
        else st
    | _, _ => st
    end.

(** [for j := i + 2; j < size; j++] *)
Definition scanRow (graph : Graph W) (size i : nat) (st : search) : search :=
  foldl (λ st j, tryMove graph size i j st) st (seq (i + 2) (size - (i + 2))).

(** [improved = false] *)
Definition reset (st : search) : search :=
  {| tour := tour st; currentCost := currentCost st;
     improved := false; trail := trail st |}.

(** [improved = false; for i := range size { ... }] *)
Definition sweep (graph : Graph W) (size : nat) (st : search) : search :=
  foldl (λ st i, scanRow graph size i st) (reset st) (seq 0 size).

(** How the [for improved] loop was left. *)
Inductive exit := Converged | Cancelled.

(** [for improved { select { case <-ctx.Done(): return ...; default: } ... }]
    The context is seen through [polls], the number of polls of
    [ctx.Done()] that still find it open: a deadline, once passed, stays
    passed. The loop is entered with [improved = true]. The polls left
    over are returned with the result. *)
Fixpoint sweeps (graph : Graph W) (size : nat) (polls : nat) (st : search)
    : search * nat * exit :=
  match polls with
  | O => (st, O, Cancelled)
  | S polls =>
      let st := sweep graph size st in
      if improved st then sweeps graph size polls st
      else (st, polls, Converged)
  end.

Definition twoOptRun (path : list Z) (cost : W) (graph : Graph W)
    (polls : nat) : search * nat * exit :=
  sweeps graph (length path) polls
    {| tour := path; currentCost := cost; improved := true; trail := [] |}.

(** [twoOpt(path, currentCost, graph, ctx)] returns [path, currentCost]. *)
Definition twoOpt (path : list Z) (cost : W) (graph : Graph W)
    (polls : nat) : list Z * W :=
  let '(st, _, _) := twoOptRun path cost graph polls in
  (tour st, currentCost st).
End LocalSearch.

Arguments search W : clear implicits.

(** ** solve.go: [SolveTSP] *)

(** Two's complement [int64], for the two places where the source computes
    on integers that are not indices. *)
Definition wrap64 (z : Z) : Z := (z + 2 ^ 63) `mod` 2 ^ 64 - 2 ^ 63.

(** What a call of [SolveTSP] takes from outside the package. *)
Record Env := mkEnv {
  numCPU : Z;                        (* runtime.NumCPU() *)
  now : nat → Z;                     (* time.Now().UnixNano(), read when worker i is started *)
  source : Z → nat → nat;            (* rand.NewSource(seed): the draws of that source *)
  openPolls : nat → nat;             (* worker i: how many polls of ctx.Done() come before the deadline *)
  mapOrders : nat → nat → list nat;  (* worker i: the order of its k-th range over a map *)
  lockOrder : list nat               (* the workers, in the order they take mu *)
}.

Section Orchestrator.
Context {W : Type} `{Weight W}.

(** The shared variables guarded by [mu]. [bestPath = nil] is [None]. *)
Record best := mkBest {
  bestPath : option (list Z);
  bestCost : W;
  totalCycles : nat
}.

(** [mu.Lock(); totalCycles++; if cost < bestCost { bestCost = cost;
    bestPath = copy of path }; mu.Unlock()] *)
Definition record (b : best) (attempt : list Z * W) : best :=
  let '(path, cost) := attempt in
  if wlt cost (bestCost b)
  then {| bestPath := Some path; bestCost := cost; totalCycles := S (totalCycles b) |}
  else {| bestPath := bestPath b; bestCost := bestCost b; totalCycles := S (totalCycles b) |}.

(** The [for { select { ... } }] loop of one worker. It returns the
    attempts the worker brings to the critical section, in order. Every
    iteration polls the context once, and [twoOpt] polls it once per
    sweep, so the loop body runs at most [polls] times: that is the fuel
    [worker] gives it (lemma [workerLoop_fuel]). *)
Fixpoint workerLoop (fuel : nat) (graph : Graph W) (nodeCount : nat)
    (polls : nat) (rng : Rand) (mo : MapOrder) : list (list Z * W) :=
  match fuel with
  | O => []
  | S fuel =>
      match polls with
      | O => []                                   (* case <-ctx.Done(): return *)
      | S polls =>
          let '(r, rng) := Intn rng nodeCount in
          let startNode := idx (nodes graph) r in
          let '(res, rng, mo) :=
            randomizedNearestNeighbor startNode nodeCount graph rng mo in
          match res with
          | None => workerLoop fuel graph nodeCount polls rng mo   (* continue *)
          | Some (path, cost) =>
              let '(st, polls, _) := twoOptRun path cost graph polls in
              (tour st, currentCost st)
                :: workerLoop fuel graph nodeCount polls rng mo
          end
      end
  end.

(** [worker(seed, workerID)] with [seed = time.Now().UnixNano() + int64(i)].
    A timeout that is not positive gives a context that is done from the
    start. *)
Definition worker (env : Env) (graph : Graph W) (nodeCount : nat)
    (maxSeconds : Z) (i : nat) : list (list Z * W) :=
  let seed := wrap64 (now env i + Z.of_nat i) in
  let rng := {| draws := source env seed; drawn := 0 |} in
  let timeout := wrap64 (maxSeconds * 1000000000) in
  let polls := if (timeout <=? 0) then O else openPolls env i in
  workerLoop polls graph nodeCount polls rng
             {| picks := mapOrders env i; ranged := 0 |}.

(** The critical sections of all workers in the order the mutex grants
    them: [lockOrder] names the worker that is served next; the workers
    it leaves unserved follow in the order of their numbers. *)
Fixpoint serialize {A} (lockOrder : list nat) (queues : list (list A)) : list A :=
  match lockOrder with
  | [] => concat queues
  | w :: lockOrder =>
      match queues !! w with
      | Some (a :: q) => a :: serialize lockOrder (<[w := q]> queues)
      | _ => serialize lockOrder queues
      end
  end.

(** [bestPath] is [nil], [bestCost := math.MaxFloat64], [totalCycles] is 0. *)
Definition initial : best :=
  {| bestPath := None; bestCost := wmaxfloat; totalCycles := O |}.

(** [for i := range numWorkers { go worker(...) }]: what each worker
    brings to the critical section. A [numWorkers] that is not positive
    starts no worker. *)
Definition queuesOf (env : Env) (graph : Graph W) (maxCPU maxSeconds : Z)
    : list (list (list Z * W)) :=
  let numWorkers := Z.min (numCPU env) maxCPU in
  (λ i, worker env graph (NodeCount graph) maxSeconds i)
    <$> seq 0 (Z.to_nat numWorkers).

Definition SolveTSP (env : Env) (graph : Graph W) (maxCPU maxSeconds : Z)
    : list Z * W * nat :=
  let nodeCount := NodeCount graph in
  if (nodeCount =? 0)%nat then ([], wzero, O)
  else if (nodeCount =? 1)%nat then (nodes graph, wzero, 1%nat)
  else
    let b := foldl record initial
               (serialize (lockOrder env) (queuesOf env graph maxCPU maxSeconds)) in
    match bestPath b with
    | None => ([], wzero, totalCycles b)
    | Some p => (p, bestCost b, totalCycles b)
    end.

(** One attempt of a worker, lines 51 to 58: construction from
    [startNode], then refinement. *)
Definition attempt (startNode : Z) (graph : Graph W) (rng : Rand)
    (mo : MapOrder) (polls : nat) : option (list Z * W) :=
  match randomizedNearestNeighbor startNode (NodeCount graph) graph rng mo with
  | (Some (path, cost), _, _) => Some (twoOpt path cost graph polls)
  | _ => None
  end.
End Orchestrator.

Arguments best W : clear implicits.

(** The cost of a tour read as a cycle: the stored weights along
    consecutive positions and of the closing edge from the last node back
    to the first. *)
Section TourCost.
Context {W : Type} `{Weight W}.

Fixpoint pathCost (graph : Graph W) (p : list Z) : W :=
  match p with
  | u :: (v :: _) as rest => wadd (weightOf graph u v) (pathCost graph rest)
  | _ => wzero
  end.

Definition tourCost (graph : Graph W) (p : list Z) : W :=
  match p with
  | [] => wzero
  | first :: _ => pathCost graph (p ++ [first])
  end.
End TourCost.


(** ** Predicates the statements below are written with *)

Section Predicates.
Context {W : Type} `{Weight W}.
Implicit Types (g : Graph W).

(** The node list has no duplicates and lists the keys of [edges]. *)
Definition nodes_ok g : Prop :=
  NoDup (nodes g) ∧ ∀ u, u ∈ nodes g ↔ is_Some (edges g !! u).

(** What [AddEdge] maintains. *)
Record wf g : Prop := {
  wf_nodes : nodes_ok g;
  wf_closed : ∀ u v, is_Some (edge g u v) → u ∈ nodes g ∧ v ∈ nodes g;
  wf_sym : ∀ u v, edge g u v = edge g v u;
  wf_linked : ∀ u, u ∈ nodes g → ∃ v, is_Some (edge g u v)
}.

(** A candidate is an unvisited neighbour of the current node, with the
    stored weight of the edge to it. *)
Definition offered g (cur : Z) (vis : gset Z) (c : candidate W) : Prop :=
  (node c ∉ vis) ∧ edge g cur (node c) = Some (dist c).

(** One turn of the construction loop that does not return. *)
Definition extend (st : walk W) (choice : candidate W) : walk W :=
  {| current := node choice;
     path := path st ++ [node choice];
     visited := {[node choice]} ∪ visited st;
     totalCost := wadd (totalCost st) (dist choice) |}.

(** The invariant of the construction loop. *)
Record walking g (st : walk W) : Prop := {
  wk_nodup : NoDup (path st);
  wk_visited : ∀ x, x ∈ visited st ↔ x ∈ path st;
  wk_nodes : ∀ x, x ∈ path st → x ∈ nodes g;
  wk_last : last (path st) = Some (current st)
}.

(** The 2-opt move at positions [i], [j] of [p]: the delta of the
    exchange when both replacement edges are stored. *)
Definition moveDelta g (p : list Z) (i j : nat) : option W :=
  let size := length p in
  let u1 := idx p i in
  let v1 := idx p ((i + 1) `mod` size) in
  let u2 := idx p j in
  let v2 := idx p ((j + 1) `mod` size) in
  match edge g u1 u2, edge g v1 v2 with
  | Some wNew1, Some wNew2 =>
      Some (wsub (wadd wNew1 wNew2) (wadd (weightOf g u1 v1) (weightOf g u2 v2)))
  | _, _ => None
  end.

(** An improving move: one that [twoOpt] applies. *)
Definition improving g (p : list Z) (i j : nat) : Prop :=
  ∃ delta, moveDelta g p i j = Some delta ∧ wlt delta wnegeps = true.

(** No gain at positions [i], [j]: a replacement edge is missing, or the
    delta is not below -1e-9. *)
Definition stable g (p : list Z) (i j : nat) : Prop :=
  let size := length p in
  let u1 := idx p i in
  let v1 := idx p ((i + 1) `mod` size) in
  let u2 := idx p j in
  let v2 := idx p ((j + 1) `mod` size) in
  edge g u1 u2 = None ∨ edge g v1 v2 = None ∨
  wlt (wsub (wadd (weightOf g u1 u2) (weightOf g v1 v2))
            (wadd (weightOf g u1 v1) (weightOf g u2 v2))) wnegeps = false.

(** [trailOf cost0 t c]: from input cost [cost0], the moves applied so
    far produced the running costs [t] (latest first) and the current
    cost [c]; every move added a delta below -1e-9. *)
Inductive trailOf (cost0 : W) : list W → W → Prop :=
| trailOf_start : trailOf cost0 [] cost0
| trailOf_move t c delta :
    trailOf cost0 t c → wlt delta wnegeps = true →
    trailOf cost0 (wadd c delta :: t) (wadd c delta).

(** The costs of the tours that visit the nodes of [p]. *)
Definition costsOf g (p : list Z) : list W := tourCost g <$> permutations p.

(** The running costs of a search on [path], latest first, down to the
    cost at entry: each is below all that came before it, and each is
    the cost of a tour on the nodes of [path]. *)
Record descending `{!StrictWeight W} g (path : list Z) (st : search W) : Prop := {
  ds_length : length (tour st) = length path;
  ds_perm : tour st ≡ₚ path;
  ds_cost : currentCost st = tourCost g (tour st);
  ds_head : head (trail st ++ [tourCost g path]) = Some (currentCost st);
  ds_sorted : StronglySorted wbelow (trail st ++ [tourCost g path]);
  ds_costs : Forall (λ c, c ∈ costsOf g path) (trail st ++ [tourCost g path])
}.

(** The graph defeats every construction: whatever the start node, the
    draws and the order of the maps, [randomizedNearestNeighbor] fails. *)
Definition unconstructible g : Prop :=
  ∀ startNode rng mo, startNode ∈ nodes g →
    (randomizedNearestNeighbor startNode (NodeCount g) g rng mo).1.1 = None.
End Predicates.

(** Two random sources that return the same draws from where they stand,
    and two runtimes that walk maps in the same orders. *)
Definition sameDraws (r1 r2 : Rand) : Prop :=
  drawn r1 = drawn r2 ∧ ∀ k, draws r1 k = draws r2 k.

Definition sameOrders (m1 m2 : MapOrder) : Prop :=
  ranged m1 = ranged m2 ∧ ∀ k, picks m1 k = picks m2 k.

(** ** The adjacency-list variant of the graph

    A second source file of the package declares [Graph] with a node set
    and, per node, a slice of outgoing edges. [solve.go] reads the fields
    [edges] and [nodes] of the map-of-maps graph above, not these. *)
Module AdjList.
Section Def.
Context {W : Type}.

(** [type Edge struct { To int; Weight float64 }] *)
Record Edge := mkEdge { To : Z; Weight : W }.

(** [type Graph struct { Nodes map[int]struct{}; Edges map[int][]Edge }] *)
Record Graph := mkGraph {
Nodes : gset Z;
Edges : gmap Z (list Edge)
}.

Definition NewGraph (nCount : Z) : Graph := {| Nodes := ∅; Edges := ∅ |}.

(** [g.Nodes[f] = struct{}{}; g.Nodes[t] = struct{}{};
   g.Edges[f] = append(g.Edges[f], Edge{To: t, Weight: weight})] *)
Definition AddEdge (from to : Z) (weight : W) (g : Graph) : Graph :=
let f := Z.max from to in
let t := Z.min from to in
{| Nodes := {[t]} ∪ ({[f]} ∪ Nodes g);
   Edges := <[f := default [] (Edges g !! f) ++ [mkEdge t weight]]> (Edges g) |}.

Definition NodeCount (g : Graph) : nat := size (Nodes g).

Definition EdgeCount (g : Graph) : nat :=
map_fold (λ _ (es : list Edge) count, (count + length es)%nat) 0%nat (Edges g).

(** The edges stored from [u] to [v]. *)
Definition stored (g : Graph) (u v : Z) : list W :=
Weight <$> filter (λ e, To e = v) (default [] (Edges g !! u)).
End Def.
Arguments Graph W : clear implicits.
Arguments Edge W : clear implicits.
End AdjList.

(** ** Inputs for the examples *)

(** The square of the specification: unit sides, diagonals of weight √2. *)
Definition square : Graph float :=
  build [(0, 1, 1%float); (1, 2, 1%float); (2, 3, 1%float); (3, 0, 1%float);
         (0, 2, sqrt 2); (1, 3, sqrt 2)].

(** The same square in units of 1e-9, the diagonal rounded down. *)
Definition squareNano : Graph Z :=
  build [(0, 1, 1000000000); (1, 2, 1000000000); (2, 3, 1000000000);
         (3, 0, 1000000000); (0, 2, 1414213562); (1, 3, 1414213562)].

(** A single call [AddEdge(7, 7, 5.0)]. *)
Definition loop7 : Graph Z := build [(7, 7, 5000000000)].

(** Two disjoint edges. *)
Definition twoPairs : Graph float := build [(0, 1, 1%float); (2, 3, 1%float)].

(** A hexagon with unit sides, one unit chord and four longer chords. *)
Definition hexagon : Graph float :=
  build [(0, 1, 1%float); (1, 2, 1%float); (2, 3, 1%float); (3, 4, 1%float);
         (4, 5, 1%float); (5, 0, 1%float); (0, 3, 1%float); (1, 4, 3%float);
         (2, 5, 3%float); (0, 2, 2%float); (3, 5, 2%float)].

(** The complete graph on four nodes, all weights 1. *)
Definition k4 : Graph float :=
  build [(0, 1, 1%float); (0, 2, 1%float); (0, 3, 1%float);
         (1, 2, 1%float); (1, 3, 1%float); (2, 3, 1%float)].

(** A source whose calls return the numbers of [ds] in turn, then 0. *)
Definition scripted (ds : list nat) : Rand :=
  {| draws := λ k, nth k ds 0%nat; drawn := 0 |}.

(** A runtime that walks every map in the order [shuffle ps]. *)
Definition ordered (ps : list nat) : MapOrder :=
  {| picks := λ _, ps; ranged := 0 |}.

(** A runtime that starts every walk at the second entry of the map and
    wraps around (maps of up to six entries): the rotation that a random
    start offset gives. *)
Definition rotated : MapOrder := ordered [1; 1; 1; 1; 1]%nat.

(** Four cores, a source that always draws 0, five open polls per worker,
    maps walked in their stored order, workers served in turn. *)
Definition quiet : Env :=
  {| numCPU := 4; now := λ _, 0; source := λ _ _, 0%nat;
     openPolls := λ _, 5%nat; mapOrders := λ _ _, []; lockOrder := [] |}.

(** ** The exact instance satisfies the laws *)

#[export] Instance nano_exact : @ExactWeight Z nano.
Proof. split; simpl; intros; lia. Qed.

#[export] Instance nano_ordered : @OrderedWeight Z nano.
Proof.
  refine {| wle := Z.le |}.
  - apply Z.le_refl.
  - apply Z.le_trans.
  - intros c d Hd. change ((d <? -1) = true) in Hd. apply Z.ltb_lt in Hd.
    change (c + d ≤ c). lia.
Defined.

#[export] Instance nano_strict : @StrictWeight Z nano.
Proof.
  refine {| wbelow := Z.lt |}.
  - apply Z.lt_irrefl.
  - apply Z.lt_trans.
  - intros c d Hd. change ((d <? -1) = true) in Hd. apply Z.ltb_lt in Hd.
    change (c + d < c). lia.
Defined.


(** ** What a sequence of [AddEdge] calls names *)

(** The node identifiers that occur as an endpoint of a call. *)
Definition endpoints {W} (calls : list (Z * Z * W)) : gset Z :=
  list_to_set (calls ≫= λ c, [c.1.1; c.1.2]).

(** The ordered pairs joined by a call, read in both directions. *)
Definition directed {W} (calls : list (Z * Z * W)) : gset (Z * Z) :=
  list_to_set (calls ≫= λ c, [(c.1.1, c.1.2); (c.1.2, c.1.1)]).

(** ** Tours that use stored edges only *)

Section Tours.
Context {W : Type}.

(** Every two consecutive nodes of [p] are joined by a stored edge. *)
Fixpoint linked (g : Graph W) (p : list Z) : bool :=
  match p with
  | u :: (v :: _) as rest => bool_decide (is_Some (edge g u v)) && linked g rest
  | _ => true
  end.

(** [p] read as a cycle: also its last node is joined to its first. *)
Definition closedTour (g : Graph W) (p : list Z) : bool :=
  match p with
  | [] => true
  | first :: _ => linked g (p ++ [first])
  end.

(** Every two different nodes of the graph are joined by a stored edge. *)
Definition complete (g : Graph W) : Prop :=
  ∀ u v, u ∈ nodes g → v ∈ nodes g → u ≠ v → is_Some (edge g u v).
End Tours.

(** The comparison of weights is that of a total preorder on the weights
    that can be compared. On [float64] these are the values that are not
    NaN: a NaN is not below anything and nothing is below it. *)
Class WeakOrderWeight (W : Type) `{Weight W} (comparable : W → Prop) : Prop := {
  wlt_comparable : ∀ a b : W, wlt a b = true → comparable a ∧ comparable b;
  wlt_irrefl : ∀ a : W, wlt a a = false;
  wlt_trans : ∀ a b c : W, wlt a b = true → wlt b c = true → wlt a c = true;
  wlt_negtrans : ∀ a b c : W,
    comparable a → comparable b → comparable c →
    wlt a b = false → wlt b c = false → wlt a c = false;
  comparable_max : comparable wmaxfloat
}.

#[export] Instance nano_weak : @WeakOrderWeight Z nano (λ _, True).
Proof.
  split; simpl; intros *; rewrite ?Z.ltb_lt, ?Z.ltb_ge; try done; lia.
Qed.

(** [float64]: the values that are not NaN. *)
Definition notNaN (x : float) : Prop := is_nan x = false.

(** The place of a binary64 value in the order of [<]: the sign class
    first, then exponent and mantissa; [None] for NaN. *)
Definition rank (f : spec_float) : option (Z * Z * Z) :=
  match f with
  | S754_nan => None
  | S754_infinity true => Some (-2, 0, 0)
  | S754_infinity false => Some (2, 0, 0)
  | S754_zero _ => Some (0, 0, 0)
  | S754_finite false m e => Some (1, e, Z.pos m)
  | S754_finite true m e => Some (-1, - e, Z.neg m)
  end.

Definition below (k1 k2 : Z * Z * Z) : Prop :=
  k1.1.1 < k2.1.1 ∨
  (k1.1.1 = k2.1.1 ∧ (k1.1.2 < k2.1.2 ∨ (k1.1.2 = k2.1.2 ∧ k1.2 < k2.2))).

(** The entries of a map walk that the construction may still choose. *)
Definition unvisited {W} (vis : gset Z) (entries : list (Z * W)) : list (Z * W) :=
  filter (λ nw, nw.1 ∉ vis) entries.

Section Nearest.
Context {W : Type} `{Weight W}.

(** What the loop over the neighbours keeps: every unvisited entry seen
    so far is in [topK] or is no nearer than any entry of [topK]; and
    nothing has been dropped while [topK] holds fewer than three. *)
Definition nearest (vis : gset Z) (topK : list (candidate W)) (seen : list (Z * W))
    : Prop :=
  ((length topK < 3)%nat →
     ∀ n w, (n, w) ∈ unvisited vis seen → mkCandidate n w ∈ topK) ∧
  ∀ n w, (n, w) ∈ unvisited vis seen →
    mkCandidate n w ∈ topK ∨ Forall (λ c, wlt w (dist c) = false) topK.
End Nearest.

(** ** cmd/solver/main.go: the command line *)

(** [if *cpuFlag <= 0 { *cpuFlag = runtime.NumCPU() }]: the value that
    [main] passes to [SolveTSP] as [maxCPU]. *)
Definition cpuLimit (env : Env) (cpuFlag : Z) : Z :=
  if cpuFlag <=? 0 then numCPU env else cpuFlag.

(** ** cmd/solver/main.go: [loadGraph]

    The contents of the file and the Go strings cut from it are byte
    sequences; a byte is modelled by its value, 0 to 255. *)

(** ['\n'] *)
Definition newline : Z := 10.

(** [b[start:i]] *)
Definition slice {A} (b : list A) (start i : nat) : list A :=
  take (i - start) (drop start b).

(** The body of [for i := range b]:
    [if b[i] == '\n' { lines = append(lines, string(b[start:i])); start = i + 1 }].
    The state is the pair of [lines] and [start]. *)
Definition splitStep (b : list Z) (st : list (list Z) * nat) (i : nat)
    : list (list Z) * nat :=
  let '(lines, start) := st in
  if decide (b !! i = Some newline)
  then (lines ++ [slice b start i], S i)
  else (lines, start).

(** Lines 23 to 33: the loop, then
    [lines = append(lines, string(b[start:]))]. *)
Definition splitLines (b : list Z) : list (list Z) :=
  let '(lines, start) := foldl (splitStep b) ([], 0%nat) (seq 0 (length b)) in
  lines ++ [drop start b].

(** How a call of [loadGraph] ends. *)
Inductive outcome (A : Type) : Type :=
| Returned (a : A)   (* return graph, nil *)
| Failed             (* return nil, err *)
| Exited             (* log.Fatal(): the process exits *)
| Crashed.           (* a run-time panic *)
Arguments Returned {A} a.
Arguments Failed {A}.
Arguments Exited {A}.
Arguments Crashed {A}.

Section Loader.
Context {W : Type}.

(** [strconv.ParseInt(s, 10, 64)]; [None] is the error. *)
Variable ParseInt : list Z → option Z.

(** [n, _ := fmt.Sscanf(line, "%d %d %f", &to, &from, &weight)]: the
    values of [to], [from] and [weight] when [n] is 3, [None] otherwise. *)
Variable Sscanf : list Z → option (Z * Z * W).

(** The largest capacity that [make] allocates on the machine. *)
Variable maxCap : Z.

(** [NewGraph(int(nodeCountClaim))] evaluates
    [make([]int, 0, nCount)], which panics at run time when [nCount] is
    negative or larger than [make] can allocate. *)
Definition allocates (nCount : Z) : bool := (0 <=? nCount) && (nCount <=? maxCap).

(** The body of [for i, line := range lines]. *)
Definition loadLine (graph : Graph W) (il : nat * list Z) : Graph W :=
  let '(i, line) := il in
  if (i <? 2)%nat then graph
  else if decide (line = []) then graph
  else match Sscanf line with
       | Some (to, from, weight) => AddEdge from to weight graph
       | None => graph
       end.

(** [loadGraph], from the result of [os.ReadFile] on: [None] is its
    error, [Some data] the contents of the file. [lines[0]] is in range
    (lemma [splitLines_length]). The warning about the claimed node
    count changes no result. *)
Definition loadGraph (file : option (list Z)) : outcome (Graph W) :=
  match file with
  | None => Failed
  | Some data =>
      let lines := splitLines data in
      match ParseInt (default [] (lines !! 0%nat)) with
      | None => Exited
      | Some nodeCountClaim =>
          if allocates nodeCountClaim
          then Returned (foldl loadLine (NewGraph nodeCountClaim) (imap pair lines))
          else Crashed
      end
  end.

(** The call of [AddEdge] that a line of the file stands for. *)
Definition edgeRow (line : list Z) : option (Z * Z * W) :=
  if decide (line = []) then None
  else match Sscanf line with
       | Some (to, from, weight) => Some (from, to, weight)
       | None => None
       end.
End Loader.

(** Parsers for the examples: a line that is one digit, with or without a
    minus sign, and a row of three digits separated by single spaces. *)
Definition digit1 (line : list Z) : option Z :=
  match line with
  | [a] => if (48 <=? a) && (a <=? 57) then Some (a - 48) else None
  | [45; a] => if (48 <=? a) && (a <=? 57) then Some (- (a - 48)) else None
  | _ => None
  end.

Definition digits3 (line : list Z) : option (Z * Z * Z) :=
  match line with
  | [a; 32; b; 32; c] => Some (a - 48, b - 48, c - 48)
  | _ => None
  end.

(** ** The adjacency-list variant, built by calls *)

Definition AdjList_build {W} (calls : list (Z * Z * W)) : AdjList.Graph W :=
  foldl (λ g '(from, to, w), AdjList.AddEdge from to w g) (AdjList.NewGraph 0) calls.


(** ** Weights on which the arithmetic is exact

    [float64] rounds, so that no law of the integers holds of [+] and [-]
    on all of it. Inside a range it does not round: [enc] writes the
    integers of magnitude up to [M] as weights, and a sum or a difference
    of two of them that stays within [M] is the weight of the integer sum
    or difference. *)

Record ExactOn {W : Type} `{Weight W} (enc : Z → W) (M : Z) : Prop := {
  enc_zero : enc 0 = wzero;
  enc_add : ∀ a b : Z, - M ≤ a ≤ M → - M ≤ b ≤ M → - M ≤ a + b ≤ M →
    wadd (enc a) (enc b) = enc (a + b);
  enc_sub : ∀ a b : Z, - M ≤ a ≤ M → - M ≤ b ≤ M → - M ≤ a - b ≤ M →
    wsub (enc a) (enc b) = enc (a - b)
}.

(** [le] is the comparison [<=] of the weights: on the integers up to [M]
    it is the order of the integers, and a delta that passes the test
    [delta < -1e-9] is negative. *)
Record OrderedOn {W : Type} `{Weight W} (enc : Z → W) (M : Z)
    (le : W → W → Prop) : Prop := {
  enc_le : ∀ a b : Z, - M ≤ a ≤ M → - M ≤ b ≤ M → a ≤ b → le (enc a) (enc b);
  enc_improving : ∀ d : Z, - M ≤ d ≤ M → wlt (enc d) wnegeps = true → d < 0
}.

(** The calls of [AddEdge] with their integer weights written as weights. *)
Definition weighted {W : Type} (enc : Z → W) (calls : list (Z * Z * Z))
    : list (Z * Z * W) :=
  (λ c, (c.1.1, c.1.2, enc c.2)) <$> calls.

(** The integers as [float64] values. *)
Fixpoint pos2float (p : positive) : float :=
  match p with
  | xH => 1
  | xO q => 2 * pos2float q
  | xI q => 2 * pos2float q + 1
  end%float.

Definition Z2float (z : Z) : float :=
  match z with
  | Z0 => 0
  | Zpos p => pos2float p
  | Zneg p => - pos2float p
  end%float.

(** Go's [<=] on [float64]. *)
Definition float_le (x y : float) : Prop := (x <=? y)%float = true.

(** The integers from [-M] to [M], and the test of the laws above on all
    of them by evaluation. *)
Definition upTo (M : Z) : list Z := seqZ (- M) (2 * M + 1).

Definition within (M z : Z) : bool := (- M <=? z) && (z <=? M).

Definition exactb (M : Z) : bool :=
  forallb (λ a, forallb (λ b,
    implb (within M (a + b))
          (PrimFloat.Leibniz.eqb (Z2float a + Z2float b) (Z2float (a + b))) &&
    implb (within M (a - b))
          (PrimFloat.Leibniz.eqb (Z2float a - Z2float b) (Z2float (a - b))))
    (upTo M)) (upTo M).

Definition orderedb (M : Z) : bool :=
  forallb (λ a,
    implb (Z2float a <? wnegeps)%float (a <? 0) &&
    forallb (λ b, implb (a <=? b) (Z2float a <=? Z2float b)%float) (upTo M))
    (upTo M).

(** ** Further inputs for the examples *)

(** Four nodes; the edges 0-1 and 2-3 weigh 2^60, the other four weigh 10,
    20, 30 and 30. *)
Definition bigM : Graph float :=
  build [(0, 1, 0x1p+60%float); (2, 3, 0x1p+60%float); (0, 2, 10%float);
         (1, 3, 30%float); (1, 2, 30%float); (0, 3, 20%float)].

(** The square with unit sides and diagonals of infinite weight. *)
Definition infsq : Graph float :=
  build [(0, 1, 1%float); (1, 2, 1%float); (2, 3, 1%float); (3, 0, 1%float);
         (0, 2, infinity); (1, 3, infinity)].

(** The square with sides 1 and diagonals 2, as calls with integer weights. *)
Definition intSquare : list (Z * Z * Z) :=
  [(0, 1, 1); (1, 2, 1); (2, 3, 1); (3, 0, 1); (0, 2, 2); (1, 3, 2)].

(** A graph with every stored weight rewritten by [f]. *)
Definition mapWeights {A B : Type} (f : A → B) (g : Graph A) : Graph B :=
  @mkGraph B (fmap (M := gmap Z) f <$> edges g) (nodes g).

(** The search keeps the cost of its tour: on a graph [gZ] with integer
    weights, written as weights by [enc], the running cost of a search on
    [n] nodes is the integer cost of the current tour plus the offset [k]
    between the cost given and the cost of the tour given. *)
Definition tracking {W : Type} (enc : Z → W) (gZ : Graph Z) (n : nat) (k : Z)
    (st : search W) : Prop :=
  length (tour st) = n ∧ currentCost st = enc (k + @tourCost Z nano gZ (tour st)).

(** And its running costs descend from the cost given, [enc z0], in the
    comparison [le]. *)
Definition descendingOn {W : Type} (enc : Z → W) (gZ : Graph Z) (n : nat) (k : Z)
    (le : W → W → Prop) (z0 : Z) (st : search W) : Prop :=
  tracking enc gZ n k st ∧
  Sorted le (trail st ++ [enc z0]) ∧
  head (trail st ++ [enc z0]) = Some (currentCost st) ∧
  k + @tourCost Z nano gZ (tour st) ≤ z0.


(** * Facts about the embedding *)

#[local] Set Warnings "-clear-no-such-hyp".

(** ** The graph *)

Section GraphFacts.
Context {W : Type}.
Implicit Types (g : Graph W) (u v n a b : Z) (w : W).

Lemma neighbors_register n g u : neighbors (register n g) u = neighbors g u.
Proof.
  unfold register, neighbors. destruct (edges g !! n) eqn:E; [done|]. simpl.
  destruct (decide (n = u)) as [->|Hne].
  - by rewrite lookup_insert_eq, E.
  - by rewrite lookup_insert_ne.
Qed.

Lemma neighbors_setWeight a b w g u :
  neighbors (setWeight a b w g) u =
    if decide (u = a) then <[b := w]> (neighbors g a) else neighbors g u.
Proof.
  unfold setWeight, neighbors. simpl. case_decide as Hu.
  - subst. by rewrite lookup_insert_eq.
  - by rewrite lookup_insert_ne.
Qed.

Lemma edge_setWeight a b w g u v :
  edge (setWeight a b w g) u v =
    if decide (u = a ∧ v = b) then Some w else edge g u v.
Proof.
  unfold edge. rewrite neighbors_setWeight.
  destruct (decide (u = a)) as [->|Hu].
  - rewrite lookup_insert. repeat destruct (decide _); intuition congruence.
  - destruct (decide _); intuition congruence.
Qed.

Lemma edge_register n g u v : edge (register n g) u v = edge g u v.
Proof. unfold edge. by rewrite neighbors_register. Qed.

Lemma edge_AddEdge from to w g u v :
  edge (AddEdge from to w g) u v =
    if decide ((u = Z.max from to ∧ v = Z.min from to) ∨
               (u = Z.min from to ∧ v = Z.max from to))
    then Some w else edge g u v.
Proof.
  unfold AddEdge. rewrite !edge_setWeight, !edge_register.
  repeat destruct (decide _); intuition congruence.
Qed.


Lemma nodes_ok_register n g : nodes_ok g → nodes_ok (register n g).
Proof.
  intros [Hnd Hk]. unfold register. destruct (edges g !! n) eqn:E; [done|].
  split; simpl.
  - apply NoDup_app. split_and!; [done| |apply NoDup_singleton].
    intros x Hx ->%list_elem_of_singleton. apply Hk in Hx. rewrite E in Hx.
    by destruct Hx.
  - intros u. rewrite elem_of_app, list_elem_of_singleton, Hk, lookup_insert.
    destruct (decide (n = u)); subst; [|naive_solver].
    split; [by eauto|by right].
Qed.

Lemma nodes_register n g : nodes_ok g → n ∈ nodes (register n g).
Proof.
  intros [_ Hk]. unfold register. destruct (edges g !! n) eqn:E.
  - apply Hk. by rewrite E.
  - simpl. set_solver.
Qed.

Lemma nodes_register_mono n g u : u ∈ nodes g → u ∈ nodes (register n g).
Proof. unfold register. destruct (edges g !! n); [done|]. simpl. set_solver. Qed.

Lemma nodes_register_inv n g u : u ∈ nodes (register n g) → u = n ∨ u ∈ nodes g.
Proof. unfold register. destruct (edges g !! n); [by right|]. simpl. set_solver. Qed.

Lemma nodes_ok_setWeight a b w g :
  nodes_ok g → a ∈ nodes g → nodes_ok (setWeight a b w g).
Proof.
  intros [Hnd Hk] Ha. split; [done|]. intros u. simpl. rewrite Hk, lookup_insert.
  destruct (decide (a = u)); subst; [|done].
  split; [by eauto|]. intros _. by apply Hk.
Qed.

Lemma nodes_AddEdge from to w g :
  nodes (AddEdge from to w g) =
    nodes (register (Z.min from to) (register (Z.max from to) g)).
Proof. done. Qed.

Lemma wf_NewGraph n : wf (NewGraph (W := W) n).
Proof.
  split.
  - split; [apply NoDup_nil_2|]. intros u. simpl. rewrite lookup_empty.
    split; [by intros ?%elem_of_nil|by intros []].
  - intros u v [x Hx]. done.
  - done.
  - by intros u ?%elem_of_nil.
Qed.

Lemma wf_AddEdge from to w g : wf g → wf (AddEdge from to w g).
Proof.
  intros [Hn Hc Hs Hl].
  set (f := Z.max from to). set (t := Z.min from to).
  assert (Hf : f ∈ nodes (register t (register f g))).
  { apply nodes_register_mono. by apply nodes_register. }
  assert (Ht : t ∈ nodes (register t (register f g))).
  { apply nodes_register. by apply nodes_ok_register. }
  split.
  - unfold AddEdge. fold f t.
    apply nodes_ok_setWeight; [apply nodes_ok_setWeight|]; try done.
    by do 2 apply nodes_ok_register.
  - intros u v. rewrite edge_AddEdge, nodes_AddEdge. fold f t.
    destruct (decide _) as [[[-> ->]|[-> ->]]|_]; [done..|].
    intros [??]%Hc. split; by do 2 apply nodes_register_mono.
  - intros u v. rewrite !edge_AddEdge. fold f t.
    repeat destruct (decide _); try done; intuition congruence.
  - intros u. rewrite nodes_AddEdge. fold f t.
    intros [->|[->|Hu]%nodes_register_inv]%nodes_register_inv.
    + exists f. rewrite edge_AddEdge. fold f t. destruct (decide _); [by eauto|intuition].
    + exists t. rewrite edge_AddEdge. fold f t. destruct (decide _); [by eauto|intuition].
    + destruct (Hl u Hu) as [v Hv]. exists v. rewrite edge_AddEdge.
      destruct (decide _); [by eauto|done].
Qed.

Lemma build_snoc (calls : list (Z * Z * W)) from to w :
  build (calls ++ [(from, to, w)]) = AddEdge from to w (build calls).
Proof. unfold build. by rewrite foldl_app. Qed.

Lemma wf_build (calls : list (Z * Z * W)) : wf (build calls).
Proof.
  induction calls as [|[[from to] w] calls IH] using rev_ind.
  - apply wf_NewGraph.
  - rewrite build_snoc. by apply wf_AddEdge.
Qed.
End GraphFacts.

(** ** The runtime's choices *)

Lemma shuffle_Permutation {A} (ps : list nat) (l : list A) : shuffle ps l ≡ₚ l.
Proof.
  revert l. induction ps as [|p ps IH]; intros l; simpl; [done|].
  destruct (l !! p) as [x|] eqn:E; [|done].
  rewrite IH. symmetry. by apply delete_Permutation.
Qed.

Lemma shuffle_complete {A} (l l' : list A) : l' ≡ₚ l → ∃ ps, shuffle ps l = l'.
Proof.
  revert l. induction l' as [|x l' IH]; intros l Hp.
  - apply Permutation_nil_l in Hp as ->. by exists [].
  - assert (Hx : x ∈ l) by (rewrite <- Hp; left).
    apply list_elem_of_lookup in Hx as [i Hi].
    destruct (IH (delete i l)) as [ps Hps].
    { apply (Permutation_cons_inv (a:=x)). rewrite Hp. by apply delete_Permutation. }
    exists (i :: ps). simpl. by rewrite Hi, Hps.
Qed.

Lemma elem_of_rangeMap {A} (mo : MapOrder) (m : gmap Z A) n (w : A) :
  (n, w) ∈ (rangeMap mo m).1 ↔ m !! n = Some w.
Proof. unfold rangeMap. simpl. by rewrite shuffle_Permutation, elem_of_map_to_list. Qed.

Lemma Intn_lt rng n : (0 < n)%nat → ((Intn rng n).1 < n)%nat.
Proof. intros. simpl. apply Nat.mod_upper_bound. lia. Qed.

Lemma idx_lookup (p : list Z) i x : p !! i = Some x → idx p i = x.
Proof. unfold idx. by intros ->. Qed.

Lemma idx_elem_of (p : list Z) i : (i < length p)%nat → idx p i ∈ p.
Proof.
  intros [x Hx]%lookup_lt_is_Some. rewrite (idx_lookup _ _ _ Hx).
  by eapply list_elem_of_lookup_2.
Qed.

(** ** [reverse] reverses the segment from [i] to [j] *)

Lemma swap_app (A M B : list Z) x y :
  swap (A ++ x :: M ++ y :: B) (length A) (length A + S (length M)) =
  A ++ y :: M ++ x :: B.
Proof.
  unfold swap, idx.
  rewrite !(lookup_app_r A), !Nat.sub_diag by lia. simpl.
  replace (length A + S (length M) - length A)%nat with (S (length M)) by lia.
  simpl. rewrite !lookup_app_r, Nat.sub_diag by lia. simpl.
  rewrite insert_app_r_alt, Nat.sub_diag by lia. simpl.
  rewrite insert_app_r_alt by lia.
  replace (length A + S (length M) - length A)%nat with (S (length M)) by lia.
  simpl. rewrite insert_app_r_alt, Nat.sub_diag by lia. done.
Qed.

Lemma reverseLoop_app fuel (A M B : list Z) :
  (length M ≤ S fuel)%nat →
  reverseLoop fuel (A ++ M ++ B) (length A) (length A + length M - 1) =
  A ++ rev M ++ B.
Proof.
  revert A M B. induction fuel as [|fuel IH]; intros A M B Hlen.
  - destruct M as [|x [|??]]; simpl in *; [done..|lia].
  - simpl. destruct (Nat.ltb_spec (length A) (length A + length M - 1)) as [Hlt|Hge].
    + destruct M as [|x M]; [simpl in *; lia|].
      destruct M as [|y M' _] using rev_ind; [simpl in *; lia|].
      rewrite length_cons, length_app in *. simpl in *.
      replace (length A + S (length M' + 1) - 1)%nat with (length A + S (length M'))%nat by lia.
      rewrite <- (app_assoc M' [y] B). simpl. rewrite swap_app.
      replace (length A + S (length M') - 1)%nat
        with (length (A ++ [y]) + length M' - 1)%nat by (rewrite length_app; simpl; lia).
      replace (S (length A)) with (length (A ++ [y])) by (rewrite length_app; simpl; lia).
      replace (A ++ y :: M' ++ x :: B) with ((A ++ [y]) ++ M' ++ (x :: B))
        by (by rewrite <- app_assoc).
      rewrite IH by lia.
      rewrite rev_app_distr. simpl. rewrite <- !app_assoc. done.
    + destruct M as [|x [|??]]; simpl in *; [done..|lia].
Qed.

Lemma reverse_app (A M B : list Z) :
  reverse (A ++ M ++ B) (length A) (length A + length M - 1) = A ++ rev M ++ B.
Proof. unfold reverse. apply reverseLoop_app. lia. Qed.

Lemma reverseLoop_fuel fuel (p : list Z) i j :
  (j - i ≤ fuel)%nat → reverseLoop fuel p i j = reverse p i j.
Proof.
  unfold reverse. remember (j - i)%nat as fuel' eqn:E.
  assert (Hf' : (j - i ≤ fuel')%nat) by lia. clear E.
  revert fuel' p i j Hf'. induction fuel as [|fuel IH]; intros fuel' p i j Hf' Hf.
  - destruct fuel'; simpl; [done|]. destruct (Nat.ltb_spec i j); [lia|done].
  - destruct fuel'; simpl; destruct (Nat.ltb_spec i j); try done; try lia.
    apply IH; lia.
Qed.

Lemma reverse_Permutation (p : list Z) i j :
  (i ≤ j < length p)%nat → reverse p i j ≡ₚ p.
Proof.
  intros Hij.
  rewrite <- (take_drop i p) at 1 2.
  rewrite <- (take_drop (S (j - i)) (drop i p)) at 1 2.
  set (A := take i p). set (M := take (S (j - i)) (drop i p)).
  set (B := drop (S (j - i)) (drop i p)).
  assert (HA : length A = i) by (unfold A; rewrite length_take; lia).
  assert (HM : length M = S (j - i)).
  { unfold M. rewrite length_take, length_drop. lia. }
  replace i with (length A) at 1 by done.
  replace j with (length A + length M - 1)%nat by lia.
  rewrite reverse_app. by rewrite <- Permutation_rev.
Qed.

Lemma reverse_length (p : list Z) i j : length (reverse p i j) = length p.
Proof.
  unfold reverse. generalize (j - i)%nat as fuel. intros fuel.
  revert p i j. induction fuel as [|fuel IH]; intros p i j; simpl; [done|].
  destruct (i <? j)%nat; [|done]. rewrite IH. unfold swap.
  by rewrite !length_insert.
Qed.

(** ** Construction *)

Section ConstructionFacts.
Context {W : Type} `{Weight W}.
Implicit Types (g : Graph W) (st : walk W) (topK : list (candidate W)).


Lemma consider_Forall (P : candidate W → Prop) vis topK n w :
  Forall P topK → (n ∉ vis → P (mkCandidate n w)) →
  Forall P (consider vis topK (n, w)).
Proof.
  intros Htop Hnew. unfold consider.
  destruct (decide (n ∈ vis)); [done|].
  destruct (length topK <? 3)%nat.
  - apply Forall_app. split; [done|]. apply Forall_singleton. auto.
  - destruct (wlt _ _); [|done]. apply Forall_insert; auto.
Qed.

Lemma topK_offered g cur vis (mo : MapOrder) :
  Forall (offered g cur vis)
         (foldl (consider vis) [] (rangeMap mo (neighbors g cur)).1).
Proof.
  assert (Hin : Forall (λ nw, neighbors g cur !! nw.1 = Some nw.2)
                       (rangeMap mo (neighbors g cur)).1).
  { apply Forall_forall. intros [n w]. apply elem_of_rangeMap. }
  revert Hin. generalize (rangeMap mo (neighbors g cur)).1 as entries.
  intros entries Hin.
  assert (Hnil : Forall (offered g cur vis) []) by constructor.
  revert Hnil. generalize (@nil (candidate W)) as topK.
  induction Hin as [|[n w] entries Hnw _ IH]; intros topK Htop; simpl; [done|].
  apply IH. apply consider_Forall; [done|]. intros Hn. by split.
Qed.

Lemma cand_elem_of topK r : (r < length topK)%nat → cand topK r ∈ topK.
Proof.
  intros [c Hc]%lookup_lt_is_Some. unfold cand. rewrite Hc. simpl.
  by eapply list_elem_of_lookup_2.
Qed.


Lemma walkLoop_step todo g st rng mo st' rng' mo' :
  walkLoop (S todo) g st rng mo = (Some st', rng', mo') →
  ∃ choice rng1 mo1,
    offered g (current st) (visited st) choice ∧
    walkLoop todo g (extend st choice) rng1 mo1 = (Some st', rng', mo').
Proof.
  cbn [walkLoop]. pose proof (topK_offered g (current st) (visited st) mo) as Hoff.
  destruct (rangeMap mo (neighbors g (current st))) as [entries mo1]. cbn [fst] in Hoff.
  set (topK := foldl (consider (visited st)) [] entries) in *.
  destruct (Nat.eqb_spec (length topK) 0) as [|Hne]; [done|].
  pose proof (Intn_lt rng (length topK) ltac:(lia)) as Hr.
  destruct (Intn rng (length topK)) as [r rng1]. cbn [fst] in Hr.
  intros Hrun. exists (cand topK r), rng1, mo1. split; [|done].
  eapply Forall_forall in Hoff; [done|]. by apply cand_elem_of.
Qed.


Lemma walking_extend g st choice :
  wf g → walking g st → offered g (current st) (visited st) choice →
  walking g (extend st choice).
Proof.
  intros Hwf [Hnd Hvis Hn Hl] [Hnv He]. split; simpl.
  - apply NoDup_app. split_and!; [done| |apply NoDup_singleton].
    intros x Hx ->%list_elem_of_singleton. by apply Hnv, Hvis.
  - intros x. rewrite elem_of_union, elem_of_singleton, elem_of_app,
      list_elem_of_singleton, Hvis. tauto.
  - intros x [Hx| ->%list_elem_of_singleton]%elem_of_app; [auto|].
    eapply wf_closed; [done|]. by rewrite He.
  - by rewrite last_snoc.
Qed.

Lemma walkLoop_walking todo g st rng mo st' rng' mo' :
  wf g → walking g st →
  walkLoop todo g st rng mo = (Some st', rng', mo') →
  walking g st' ∧ length (path st') = (length (path st) + todo)%nat ∧
  head (path st') = head (path st).
Proof.
  intros Hwf. revert st rng mo.
  induction todo as [|todo IH]; intros st rng mo Hst Hrun.
  - simpl in Hrun. injection Hrun as <- _ _. split_and!; [done|lia|done].
  - apply walkLoop_step in Hrun as (choice & rng1 & mo1 & Hoff & Hrun).
    apply IH in Hrun as (Hst' & Hlen & Hhd); [|by apply walking_extend].
    split_and!; [done|..].
    + rewrite Hlen. simpl. rewrite length_app. simpl. lia.
    + rewrite Hhd. simpl. destruct Hst as [_ _ _ Hl].
      destruct (path st); [done|done].
Qed.

Lemma randomizedNearestNeighbor_walking startNode numNodes g rng mo p c rng' mo' :
  wf g → startNode ∈ nodes g →
  randomizedNearestNeighbor startNode numNodes g rng mo = (Some (p, c), rng', mo') →
  NoDup p ∧ (∀ x, x ∈ p → x ∈ nodes g) ∧
  length p = S (numNodes - 1) ∧ head p = Some startNode.
Proof.
  intros Hwf Hstart. unfold randomizedNearestNeighbor.
  destruct (walkLoop _ _ _ _ _) as [[[st|] rng1] mo1] eqn:Hrun; [|done].
  destruct (edge g _ _); [|done]. intros [= <- <- <- <-].
  eapply walkLoop_walking in Hrun as ([Hnd _ Hn _] & Hlen & Hhd); [done|done|].
  split; simpl.
  - apply NoDup_singleton.
  - intros x. set_solver.
  - by intros x ->%list_elem_of_singleton.
  - done.
Qed.

(** A completed construction visits every node exactly once. *)
Lemma randomizedNearestNeighbor_Permutation startNode g rng mo p c rng' mo' :
  wf g → startNode ∈ nodes g →
  randomizedNearestNeighbor startNode (NodeCount g) g rng mo = (Some (p, c), rng', mo') →
  p ≡ₚ nodes g.
Proof.
  intros Hwf Hstart Hrun.
  apply randomizedNearestNeighbor_walking in Hrun as (Hnd & Hn & Hlen & _); [|done..].
  apply submseteq_length_Permutation.
  - by apply NoDup_submseteq.
  - unfold NodeCount in Hlen. lia.
Qed.
End ConstructionFacts.

(** ** Local search *)

Lemma foldl_invariant {A B} (P : A → Prop) (f : A → B → A) (l : list B) (a : A) :
  P a → (∀ a x, x ∈ l → P a → P (f a x)) → P (foldl f a l).
Proof.
  revert a. induction l as [|x l IH]; intros a Ha Hf; simpl; [done|].
  apply IH.
  - apply Hf; [left|done].
  - intros a' y Hy. apply Hf. by right.
Qed.

Section LocalSearchFacts.
Context {W : Type} `{Weight W}.
Implicit Types (g : Graph W) (st : search W).



Lemma tryMove_cases g i j st :
  let size := length (tour st) in
  (tryMove g size i j st = st ∧
     ((i = 0 ∧ j = size - 1)%nat ∨ ¬ improving g (tour st) i j)) ∨
  (∃ delta, moveDelta g (tour st) i j = Some delta ∧ wlt delta wnegeps = true ∧
     ¬ (i = 0 ∧ j = size - 1)%nat ∧
     tryMove g size i j st =
       {| tour := reverse (tour st) (i + 1) j;
          currentCost := wadd (currentCost st) delta;
          improved := true;
          trail := wadd (currentCost st) delta :: trail st |}).
Proof.
  intros size. unfold tryMove, improving, moveDelta. fold size.
  destruct (Nat.eqb_spec i 0) as [->|Hi]; simpl.
  - destruct (Nat.eqb_spec j (size - 1)) as [->|Hj]; simpl; [left; auto|].
    destruct (edge g _ _) as [a|]; [destruct (edge g _ _) as [b|]|].
    + destruct (wlt _ _) eqn:Hlt.
      * right. eexists. split_and!; [done|done|lia|done].
      * left. split; [done|]. right. intros (d & [= <-] & Hd). congruence.
    + left. split; [done|]. right. by intros (d & ? & _).
    + left. split; [done|]. right. by intros (d & ? & _).
  - destruct (edge g _ _) as [a|]; [destruct (edge g _ _) as [b|]|].
    + destruct (wlt _ _) eqn:Hlt.
      * right. eexists. split_and!; [done|done|lia|done].
      * left. split; [done|]. right. intros (d & [= <-] & Hd). congruence.
    + left. split; [done|]. right. by intros (d & ? & _).
    + left. split; [done|]. right. by intros (d & ? & _).
Qed.

(** Invariants of the search: what holds at entry, is kept by the reset
    at the head of a sweep and by every tried move, holds at exit. *)
Section Invariant.
Variables (g : Graph W) (size : nat) (P : search W → Prop).
Hypothesis P_length : ∀ st, P st → length (tour st) = size.
Hypothesis P_reset : ∀ st, P st → P (reset st).
Hypothesis P_move : ∀ i j st,
  (i + 2 ≤ j < size)%nat → P st → P (tryMove g size i j st).

Lemma scanRow_invariant i st : P st → P (scanRow g size i st).
Proof.
  intros Hst. unfold scanRow. apply foldl_invariant; [done|].
  intros st' j Hj%elem_of_seq Hst'. apply P_move; [lia|done].
Qed.

Lemma sweep_invariant st : P st → P (sweep g size st).
Proof.
  intros Hst. unfold sweep. apply foldl_invariant; [by apply P_reset|].
  intros st' i _ Hst'. by apply scanRow_invariant.
Qed.

Lemma sweeps_invariant polls st : P st → P (sweeps g size polls st).1.1.
Proof.
  revert st. induction polls as [|polls IH]; intros st Hst; simpl; [done|].
  pose proof (sweep_invariant st Hst) as Hst'.
  destruct (improved (sweep g size st)); [by apply IH|done].
Qed.
End Invariant.

Lemma twoOptRun_invariant g (P : search W → Prop) path cost polls :
  (∀ st, P st → length (tour st) = length path) →
  (∀ st, P st → P (reset st)) →
  (∀ i j st, (i + 2 ≤ j < length (tour st))%nat → P st →
             P (tryMove g (length (tour st)) i j st)) →
  P {| tour := path; currentCost := cost; improved := true; trail := [] |} →
  P (twoOptRun path cost g polls).1.1.
Proof.
  intros Hlen Hreset Hmove Hinit. unfold twoOptRun.
  apply sweeps_invariant; try done.
  intros i j st Hij Hst. rewrite <- (Hlen st Hst). apply Hmove; [|done].
  by rewrite (Hlen st Hst).
Qed.

(** The search permutes the tour it is given. *)
Lemma tryMove_Permutation g i j st :
  (i + 2 ≤ j < length (tour st))%nat →
  tour (tryMove g (length (tour st)) i j st) ≡ₚ tour st.
Proof.
  intros Hij. destruct (tryMove_cases g i j st) as [[-> _]|(d & _ & _ & _ & ->)];
    [done|]. simpl. apply reverse_Permutation. lia.
Qed.

Lemma twoOptRun_Permutation g path cost polls :
  tour (twoOptRun path cost g polls).1.1 ≡ₚ path.
Proof.
  apply (twoOptRun_invariant g (λ st, tour st ≡ₚ path)); try done.
  - intros st Hst. by rewrite Hst.
  - intros i j st Hij Hst. by rewrite tryMove_Permutation.
Qed.

(** *** Convergence *)


Lemma not_improving_stable g p i j : ¬ improving g p i j → stable g p i j.
Proof.
  unfold improving, moveDelta, stable, weightOf. intros Hni.
  destruct (edge g (idx p i) (idx p j)) as [a|] eqn:Ea; [|by left].
  destruct (edge g (idx p _) (idx p ((j + 1) `mod` _))) as [b|] eqn:Eb;
    [|by right; left].
  right; right. simpl. destruct (wlt _ _) eqn:Hlt; [|done].
  destruct Hni. eauto.
Qed.

Lemma foldl_stuck {A B} (Q : A → Prop) (f : A → B → A) (l : list B) (a : A) :
  (∀ a x, Q (f a x) → f a x = a) →
  Q (foldl f a l) → foldl f a l = a ∧ ∀ x, x ∈ l → f a x = a.
Proof.
  intros Hf. induction l as [|x l IH] using rev_ind; simpl.
  - intros _. split; [done|]. by intros x ?%elem_of_nil.
  - rewrite foldl_app. simpl. intros HQ.
    pose proof (Hf _ _ HQ) as Heq. rewrite Heq in HQ |- *.
    destruct (IH HQ) as [Ha Hl]. split; [done|].
    intros y [Hy| ->%list_elem_of_singleton]%elem_of_app; [auto|].
    by rewrite <- Ha at 1 2.
Qed.

Lemma tryMove_stuck g size i j st :
  improved (tryMove g size i j st) = false → tryMove g size i j st = st.
Proof.
  unfold tryMove. destruct (_ && _); [done|].
  destruct (edge g _ _); [|done]. destruct (edge g _ _); [|done].
  by destruct (wlt _ _).
Qed.

Lemma scanRow_stuck g size i st :
  improved (scanRow g size i st) = false → scanRow g size i st = st.
Proof.
  intros Hq. by apply (foldl_stuck (λ st, improved st = false)) in Hq as [? _];
    [|intros; by apply tryMove_stuck].
Qed.

Lemma sweep_stuck g st :
  improved (sweep g (length (tour st)) st) = false →
  sweep g (length (tour st)) st = reset st ∧
  ∀ i j, (i + 2 ≤ j < length (tour st))%nat →
         ¬ (i = 0 ∧ j = length (tour st) - 1)%nat → stable g (tour st) i j.
Proof.
  unfold sweep. fold (reset st). intros Hq.
  apply (foldl_stuck (λ st, improved st = false)) in Hq as [Hsw Hrows];
    [|intros; by apply scanRow_stuck].
  split; [done|]. intros i j Hij Hskip.
  assert (Hrow : scanRow g (length (tour st)) i (reset st) = reset st).
  { apply Hrows, elem_of_seq. lia. }
  unfold scanRow in Hrow.
  assert (Hq : improved (foldl (λ st0 j0, tryMove g (length (tour st)) i j0 st0)
                 (reset st) (seq (i + 2) (length (tour st) - (i + 2)))) = false)
    by by rewrite Hrow.
  apply (foldl_stuck (λ st, improved st = false)) in Hq as [_ Hmoves];
    [|intros; by apply tryMove_stuck].
  specialize (Hmoves j). rewrite elem_of_seq in Hmoves.
  specialize (Hmoves ltac:(lia)).
  apply not_improving_stable.
  change (tour st) with (tour (reset st)).
  destruct (tryMove_cases g i j (reset st)) as [[_ [?|?]]|(d & _ & _ & _ & Heq)];
    [done|done|].
  simpl in Heq. rewrite Heq in Hmoves. discriminate Hmoves.
Qed.

Lemma sweep_length g size st :
  length (tour st) = size → length (tour (sweep g size st)) = size.
Proof.
  intros Hlen. apply (sweep_invariant g size (λ st, length (tour st) = size)); try done.
  intros i j st' Hij Hst'. unfold tryMove. destruct (_ && _); [done|].
  destruct (edge g _ _); [|done]. destruct (edge g _ _); [|done].
  destruct (wlt _ _); [|done]. simpl. by rewrite reverse_length.
Qed.

Lemma sweeps_Converged g polls st st' polls' :
  sweeps g (length (tour st)) polls st = (st', polls', Converged) →
  ∀ i j, (i + 2 ≤ j < length (tour st'))%nat →
         ¬ (i = 0 ∧ j = length (tour st') - 1)%nat → stable g (tour st') i j.
Proof.
  revert st. induction polls as [|polls IH]; intros st; simpl; [done|].
  destruct (improved (sweep g (length (tour st)) st)) eqn:Himp.
  - rewrite <- (sweep_length g (length (tour st)) st eq_refl) at 1. apply IH.
  - intros [= <- <-]. apply sweep_stuck in Himp as [-> Hst]. done.
Qed.

(** *** The running cost *)


Lemma twoOptRun_trailOf g path cost polls :
  let st := (twoOptRun path cost g polls).1.1 in
  trailOf cost (trail st) (currentCost st).
Proof.
  apply (twoOptRun_invariant g
           (λ st, length (tour st) = length path ∧
                  trailOf cost (trail st) (currentCost st))).
  - by intros st [? _].
  - by intros st [? ?].
  - intros i j st Hij [Hlen Htr].
    destruct (tryMove_cases g i j st) as [[-> _]|(d & _ & Hd & _ & ->)]; [done|].
    simpl. split; [by rewrite reverse_length|]. by constructor.
  - split; [done|constructor].
Qed.

Lemma trailOf_descending `{!OrderedWeight W} cost0 t c :
  trailOf cost0 t c →
  wle c cost0 ∧ Sorted wle (t ++ [cost0]) ∧ head (t ++ [cost0]) = Some c.
Proof.
  induction 1 as [|t c delta _ (Hle & Hs & Hhd) Hd]; simpl.
  - split_and!; [apply wle_refl|repeat constructor|done].
  - split_and!; [|constructor; [done|]|done].
    + eapply wle_trans; [by apply wadd_improving|done].
    + destruct (t ++ [cost0]); simplify_eq/=. constructor. by apply wadd_improving.
Qed.
End LocalSearchFacts.

(** ** Costs under exact arithmetic *)

Section CostFacts.
Context {W : Type} `{ExactWeight W}.
Implicit Types (g : Graph W) (a b c d : W).

Lemma wadd_zero_r a : wadd a wzero = a.
Proof. by rewrite wadd_comm, wadd_zero_l. Qed.

(** Exchanging the two removed edges [a], [b] for the two new ones [c],
    [d] changes the sum by [(c + d) - (a + b)]. *)
Lemma wadd_exchange X Y Z a b c d :
  wadd (wadd X (wadd a (wadd Y (wadd b Z)))) (wsub (wadd c d) (wadd a b)) =
  wadd X (wadd c (wadd Y (wadd d Z))).
Proof.
  assert (Hmid : ∀ e f, wadd e (wadd Y (wadd f Z)) = wadd (wadd Y Z) (wadd e f)).
  { intros e f. rewrite (wadd_comm f Z), (wadd_assoc Y Z f).
    rewrite (wadd_comm e), <- wadd_assoc. by rewrite (wadd_comm f e). }
  rewrite !Hmid, !(wadd_assoc X (wadd Y Z)).
  by rewrite <- (wadd_assoc (wadd X (wadd Y Z))), wsub_cancel.
Qed.

Lemma pathCost_split g (l1 l2 : list Z) x :
  pathCost g (l1 ++ x :: l2) = wadd (pathCost g (l1 ++ [x])) (pathCost g (x :: l2)).
Proof.
  induction l1 as [|y [|z l1] IH].
  - simpl. by rewrite wadd_zero_l.
  - simpl. by rewrite wadd_zero_r.
  - change (wadd (weightOf g y z) (pathCost g ((z :: l1) ++ x :: l2)) =
            wadd (wadd (weightOf g y z) (pathCost g ((z :: l1) ++ [x])))
                 (pathCost g (x :: l2))).
    by rewrite IH, wadd_assoc.
Qed.

Lemma pathCost_snoc g (l : list Z) x y :
  pathCost g (l ++ [x; y]) = wadd (pathCost g (l ++ [x])) (weightOf g x y).
Proof. rewrite pathCost_split. simpl. by rewrite wadd_zero_r. Qed.

Section Symmetric.
Variable g : Graph W.
Hypothesis g_sym : ∀ u v, edge g u v = edge g v u.

Lemma weightOf_sym u v : weightOf g u v = weightOf g v u.
Proof. unfold weightOf. by rewrite g_sym. Qed.

Lemma pathCost_rev (l : list Z) : pathCost g (rev l) = pathCost g l.
Proof.
  induction l as [|x [|y l] IH]; [done..|].
  change (rev (x :: y :: l)) with ((rev l ++ [y]) ++ [x]).
  rewrite <- app_assoc. change ([y] ++ [x]) with [y; x].
  rewrite pathCost_snoc.
  change (rev l ++ [y]) with (rev (y :: l)). rewrite IH.
  change (pathCost g (x :: y :: l))
    with (wadd (weightOf g x y) (pathCost g (y :: l))).
  by rewrite wadd_comm, weightOf_sym.
Qed.

Lemma tourCost_idx (p : list Z) :
  p ≠ [] → tourCost g p = pathCost g (p ++ [idx p 0]).
Proof. by destruct p. Qed.

(** The cost of the tour after the 2-opt move at the edges [(u1, v1)]
    and [(u2, v2)]. *)
Lemma tourCost_move (A M B : list Z) u1 v1 u2 :
  let p := A ++ u1 :: v1 :: M ++ u2 :: B in
  let p' := A ++ u1 :: u2 :: rev M ++ v1 :: B in
  let v2 := idx (B ++ [idx p 0]) 0 in
  tourCost g p' =
    wadd (tourCost g p)
         (wsub (wadd (weightOf g u1 u2) (weightOf g v1 v2))
               (wadd (weightOf g u1 v1) (weightOf g u2 v2))).
Proof.
  intros p p' v2.
  assert (Hfirst : idx p' 0 = idx p 0) by (unfold p, p'; by destruct A).
  rewrite !tourCost_idx by (unfold p, p'; by destruct A).
  rewrite Hfirst.
  assert (HT : ∃ T, B ++ [idx p 0] = v2 :: T).
  { unfold v2. destruct B; simpl; eauto. }
  destruct HT as [T HT].
  assert (Hp : p ++ [idx p 0] = A ++ u1 :: v1 :: M ++ u2 :: v2 :: T).
  { unfold p at 1. rewrite <- app_assoc. simpl. rewrite <- app_assoc. simpl.
    by rewrite HT. }
  assert (Hp' : p' ++ [idx p 0] = A ++ u1 :: u2 :: rev M ++ v1 :: v2 :: T).
  { unfold p' at 1. rewrite <- app_assoc. simpl. rewrite <- app_assoc. simpl.
    by rewrite HT. }
  rewrite Hp, Hp'. clear Hp Hp' HT Hfirst.
  rewrite (pathCost_split g A (v1 :: _) u1), (pathCost_split g A (u2 :: _) u1).
  change (pathCost g (u1 :: v1 :: M ++ u2 :: v2 :: T))
    with (wadd (weightOf g u1 v1) (pathCost g ((v1 :: M) ++ u2 :: v2 :: T))).
  change (pathCost g (u1 :: u2 :: rev M ++ v1 :: v2 :: T))
    with (wadd (weightOf g u1 u2) (pathCost g ((u2 :: rev M) ++ v1 :: v2 :: T))).
  rewrite (pathCost_split g (v1 :: M)), (pathCost_split g (u2 :: rev M)).
  change (pathCost g (u2 :: v2 :: T))
    with (wadd (weightOf g u2 v2) (pathCost g (v2 :: T))).
  change (pathCost g (v1 :: v2 :: T))
    with (wadd (weightOf g v1 v2) (pathCost g (v2 :: T))).
  assert (Hrev : pathCost g ((u2 :: rev M) ++ [v1]) = pathCost g ((v1 :: M) ++ [u2])).
  { rewrite <- (pathCost_rev ((v1 :: M) ++ [u2])).
    rewrite rev_app_distr. simpl. done. }
  rewrite Hrev. by rewrite wadd_exchange.
Qed.
End Symmetric.
End CostFacts.

(** The tour around the two edges of a move. *)
Lemma split_move (p : list Z) i j :
  (i + 2 ≤ j < length p)%nat →
  ∃ A u1 v1 M u2 B,
    p = A ++ u1 :: v1 :: M ++ u2 :: B ∧ length A = i ∧ j = (i + 2 + length M)%nat.
Proof.
  intros Hij.
  destruct (lookup_lt_is_Some_2 p i ltac:(lia)) as [u1 Hu1].
  destruct (lookup_lt_is_Some_2 p (S i) ltac:(lia)) as [v1 Hv1].
  destruct (lookup_lt_is_Some_2 p j ltac:(lia)) as [u2 Hu2].
  apply list_elem_of_split_length in Hu1 as (A & R & -> & ->).
  rewrite lookup_app_r in Hv1, Hu2 by lia.
  replace (S (length A) - length A)%nat with 1%nat in Hv1 by lia.
  destruct R as [|v1' R]; [done|]. simpl in Hv1. injection Hv1 as ->.
  replace (j - length A)%nat with (S (S (j - length A - 2))) in Hu2 by lia.
  simpl in Hu2.
  apply list_elem_of_split_length in Hu2 as (M & B & -> & HM).
  exists A, u1, v1, M, u2, B. split_and!; [done|done|lia].
Qed.

Lemma idx_app_r (A B : list Z) i : idx (A ++ B) (length A + i) = idx B i.
Proof. unfold idx. rewrite lookup_app_r by lia. do 3 f_equal. lia. Qed.

Section MoveFacts.
Context {W : Type} `{Weight W}.
Variables (g : Graph W) (A M B : list Z) (u1 v1 u2 : Z).
#[local] Abbreviation p := (A ++ u1 :: v1 :: M ++ u2 :: B).
#[local] Abbreviation i := (length A).
#[local] Abbreviation j := (length A + 2 + length M)%nat.

Lemma move_u1 : idx p i = u1.
Proof.  by rewrite <- (Nat.add_0_r (length A)), idx_app_r. Qed.

Lemma move_v1 : idx p ((i + 1) `mod` length p) = v1.
Proof.
  rewrite Nat.mod_small.
  -  by rewrite idx_app_r.
  -  rewrite !length_app. simpl. lia.
Qed.

Lemma move_u2 : idx p j = u2.
Proof.
   rewrite <- Nat.add_assoc, idx_app_r. simpl.
  change (v1 :: M ++ u2 :: B) with ((v1 :: M) ++ u2 :: B).
  unfold idx. rewrite lookup_cons. simpl.
  by rewrite lookup_app_r, Nat.sub_diag by lia.
Qed.

Lemma move_v2 : idx p ((j + 1) `mod` length p) = idx (B ++ [idx p 0]) 0.
Proof.
  assert (Hlen : length p = (j + 1 + length B)%nat).
  {  rewrite !length_app. simpl. rewrite length_app. simpl. lia. }
  destruct B as [|b B'] eqn:EB.
  - simpl in *. rewrite Hlen, Nat.add_0_r, Nat.Div0.mod_same. done.
  - rewrite Nat.mod_small by (rewrite Hlen; simpl; lia).
     replace (length A + 2 + length M + 1)%nat
      with (length A + (3 + length M))%nat by lia.
    rewrite idx_app_r. simpl.
    unfold idx. simpl. rewrite lookup_app_r by lia.
    by replace (S (length M) - length M)%nat with 1%nat by lia.
Qed.

Lemma move_reverse :
  reverse p (i + 1) j = A ++ u1 :: u2 :: rev M ++ v1 :: B.
Proof.
  
  replace (A ++ u1 :: v1 :: M ++ u2 :: B)
    with ((A ++ [u1]) ++ (v1 :: M ++ [u2]) ++ B).
  2:{ rewrite <- !app_assoc. simpl. by rewrite <- app_assoc. }
  replace (length A + 1)%nat with (length (A ++ [u1]))
    by (rewrite length_app; simpl; lia).
  replace (length A + 2 + length M)%nat
    with (length (A ++ [u1]) + length (v1 :: M ++ [u2]) - 1)%nat.
  2:{ simpl. rewrite !length_app. simpl. lia. }
  rewrite reverse_app. simpl. rewrite rev_app_distr. simpl.
  rewrite <- ?app_assoc. simpl. by rewrite <- ?app_assoc.
Qed.
End MoveFacts.

Section CostInvariants.
Context {W : Type} `{ExactWeight W}.
Variable g : Graph W.
Hypothesis g_sym : ∀ u v, edge g u v = edge g v u.

Lemma weightOf_edge u v w : edge g u v = Some w → weightOf g u v = w.
Proof. unfold weightOf. by intros ->. Qed.

Lemma tryMove_tourCost i j (st : search W) :
  (i + 2 ≤ j < length (tour st))%nat →
  currentCost st = tourCost g (tour st) →
  let st' := tryMove g (length (tour st)) i j st in
  currentCost st' = tourCost g (tour st').
Proof.
  intros Hij Hcost.
  destruct (tryMove_cases g i j st) as [[-> _]|(d & Hd & _ & _ & ->)]; [done|].
  simpl. destruct (split_move (tour st) i j Hij)
    as (A & u1 & v1 & M & u2 & B & Hp & <- & ->).
  rewrite Hcost. rewrite Hp in Hd |- *. unfold moveDelta in Hd.
  rewrite move_u1, move_v1, move_u2, move_v2 in Hd.
  rewrite move_reverse, (tourCost_move g g_sym).
  destruct (edge g u1 u2) as [a|] eqn:Ea; [|done].
  destruct (edge g v1 _) as [b|] eqn:Eb; [|done].
  injection Hd as <-.
  by rewrite (weightOf_edge _ _ _ Ea), (weightOf_edge _ _ _ Eb).
Qed.

Lemma twoOptRun_tourCost path cost polls :
  cost = tourCost g path →
  let st := (twoOptRun path cost g polls).1.1 in
  currentCost st = tourCost g (tour st).
Proof.
  intros Hcost.
  apply (twoOptRun_invariant g
           (λ st, length (tour st) = length path ∧
                  currentCost st = tourCost g (tour st))).
  - by intros st [? _].
  - by intros st [? ?].
  - intros i j st Hij [Hlen Hc]. split.
    + rewrite <- Hlen. apply Permutation_length, tryMove_Permutation. done.
    + by apply tryMove_tourCost.
  - done.
Qed.

Lemma walkLoop_pathCost todo (st : walk W) rng mo st' rng' mo' :
  last (path st) = Some (current st) →
  totalCost st = pathCost g (path st) →
  walkLoop todo g st rng mo = (Some st', rng', mo') →
  last (path st') = Some (current st') ∧ totalCost st' = pathCost g (path st').
Proof.
  revert st rng mo. induction todo as [|todo IH]; intros st rng mo Hl Hc Hrun.
  - simpl in Hrun. by injection Hrun as <- _ _.
  - apply walkLoop_step in Hrun as (choice & rng1 & mo1 & [_ He] & Hrun).
    apply IH in Hrun; [done|by simpl; rewrite last_snoc|].
    simpl. apply last_Some in Hl as [l Hl]. rewrite Hl, <- app_assoc. simpl.
    rewrite pathCost_snoc, <- Hl, <- Hc. by rewrite (weightOf_edge _ _ _ He).
Qed.

Lemma randomizedNearestNeighbor_tourCost startNode numNodes rng mo p c rng' mo' :
  randomizedNearestNeighbor startNode numNodes g rng mo = (Some (p, c), rng', mo') →
  c = tourCost g p.
Proof.
  unfold randomizedNearestNeighbor.
  destruct (walkLoop _ _ _ _ _) as [[[st|] rng1] mo1] eqn:Hrun; [|done].
  apply walkLoop_pathCost in Hrun as [Hl Hc]; [|done..].
  destruct (edge g _ _) as [w|] eqn:Ew; [|done]. intros [= <- <- <- <-].
  apply last_Some in Hl as Hp. destruct Hp as [l Hp].
  rewrite tourCost_idx by (rewrite Hp; by destruct l).
  assert (Hlast : idx (path st) (length (path st) - 1) = current st).
  { apply idx_lookup. rewrite <- Hl, last_lookup. f_equal. lia. }
  rewrite Hlast in Ew.
  rewrite Hp at 1. rewrite <- app_assoc. simpl.
  rewrite pathCost_snoc, <- Hp, <- Hc. by rewrite (weightOf_edge _ _ _ Ew).
Qed.
End CostInvariants.

(** ** The orchestrator *)

Section OrchestratorFacts.
Context {W : Type} `{Weight W}.
Implicit Types (g : Graph W) (b : best W).

Lemma sweeps_polls_le g size polls (st : search W) :
  ((sweeps g size polls st).1.2 ≤ polls)%nat.
Proof.
  revert st. induction polls as [|polls IH]; intros st; simpl; [done|].
  destruct (improved _); simpl; [|lia]. specialize (IH (sweep g size st)). lia.
Qed.

(** The fuel of the worker loop never runs out before the polls do. *)
Lemma workerLoop_fuel fuel g nodeCount polls rng mo :
  (polls ≤ fuel)%nat →
  workerLoop fuel g nodeCount polls rng mo =
  workerLoop polls g nodeCount polls rng mo.
Proof.
  assert (Hgen : ∀ f1 f2 polls rng mo, (polls ≤ f1)%nat → (polls ≤ f2)%nat →
    workerLoop f1 g nodeCount polls rng mo = workerLoop f2 g nodeCount polls rng mo).
  { clear. induction f1 as [|f1 IH]; intros f2 polls rng mo H1 H2.
    - destruct polls; [|lia]. by destruct f2.
    - destruct f2 as [|f2]; [by destruct polls; [|lia]|].
      destruct polls as [|polls]; [done|]. cbn [workerLoop].
      destruct (Intn rng nodeCount) as [r rng1].
      destruct (randomizedNearestNeighbor _ _ _ _ _) as [[[[p c]|] rng2] mo2].
      + pose proof (sweeps_polls_le g (length p) polls
                      {| tour := p; currentCost := c; improved := true; trail := [] |}) as Hle.
        unfold twoOptRun.
        destruct (sweeps _ _ _ _) as [[st polls'] e]. simpl in Hle.
        f_equal. apply IH; lia.
      + apply IH; lia. }
  intros. by apply Hgen.
Qed.

(** What every attempt brought to the critical section satisfies. *)
Lemma workerLoop_Forall (Q : list Z * W → Prop) g nodeCount :
  (0 < nodeCount)%nat → nodeCount = NodeCount g →
  (∀ startNode rng mo p c rng' mo' polls,
      startNode ∈ nodes g →
      randomizedNearestNeighbor startNode nodeCount g rng mo = (Some (p, c), rng', mo') →
      let st := (twoOptRun p c g polls).1.1 in Q (tour st, currentCost st)) →
  ∀ fuel polls rng mo, Forall Q (workerLoop fuel g nodeCount polls rng mo).
Proof.
  intros Hpos Hcount HQ. induction fuel as [|fuel IH]; intros polls rng mo; [constructor|].
  destruct polls as [|polls]; [constructor|]. cbn [workerLoop].
  pose proof (Intn_lt rng nodeCount Hpos) as Hr.
  destruct (Intn rng nodeCount) as [r rng1]. simpl in Hr.
  assert (Hstart : idx (nodes g) r ∈ nodes g).
  { apply idx_elem_of. unfold NodeCount in Hcount. lia. }
  destruct (randomizedNearestNeighbor _ _ _ _ _) as [[[[p c]|] rng2] mo2] eqn:Hrun;
    [|apply IH].
  specialize (HQ _ _ _ _ _ _ _ polls Hstart Hrun).
  destruct (twoOptRun p c g polls) as [[st polls'] e]. simpl in HQ.
  constructor; [done|apply IH].
Qed.

Lemma workerLoop_failing g nodeCount :
  (0 < nodeCount)%nat → nodeCount = NodeCount g →
  (∀ startNode rng mo, startNode ∈ nodes g →
      (randomizedNearestNeighbor startNode nodeCount g rng mo).1.1 = None) →
  ∀ fuel polls rng mo, workerLoop fuel g nodeCount polls rng mo = [].
Proof.
  intros Hpos Hcount Hfail. induction fuel as [|fuel IH]; intros polls rng mo; [done|].
  destruct polls as [|polls]; [done|]. cbn [workerLoop].
  pose proof (Intn_lt rng nodeCount Hpos) as Hr.
  destruct (Intn rng nodeCount) as [r rng1]. simpl in Hr.
  assert (Hstart : idx (nodes g) r ∈ nodes g).
  { apply idx_elem_of. unfold NodeCount in Hcount. lia. }
  specialize (Hfail _ rng1 mo Hstart).
  destruct (randomizedNearestNeighbor _ _ _ _ _) as [[[[p c]|] rng2] mo2]; [done|].
  apply IH.
Qed.

Lemma serialize_Forall {A} (Q : A → Prop) lockOrder (queues : list (list A)) :
  Forall (Forall Q) queues → Forall Q (serialize lockOrder queues).
Proof.
  revert queues. induction lockOrder as [|w lockOrder IH]; intros queues Hq; simpl.
  - by apply Forall_concat.
  - destruct (queues !! w) as [[|a q]|] eqn:Ew; [by apply IH| |by apply IH].
    pose proof (Forall_lookup_1 _ _ _ _ Hq Ew) as Haq.
    apply Forall_cons in Haq as [Ha Hq'].
    constructor; [done|]. apply IH. by apply Forall_insert.
Qed.

Lemma concat_length_served {A} (queues : list (list A)) w a q :
  queues !! w = Some (a :: q) →
  length (concat queues) = S (length (concat (<[w := q]> queues))).
Proof.
  revert w. induction queues as [|q' queues IH]; intros w Hw; [done|].
  destruct w as [|w]; simpl in *.
  - injection Hw as ->. simpl. done.
  - rewrite !length_app, (IH _ Hw). lia.
Qed.

Lemma serialize_length {A} lockOrder (queues : list (list A)) :
  length (serialize lockOrder queues) = length (concat queues).
Proof.
  revert queues. induction lockOrder as [|w lockOrder IH]; intros queues; simpl; [done|].
  destruct (queues !! w) as [[|a q]|] eqn:Ew; [done| |done].
  simpl. by rewrite IH, (concat_length_served _ _ _ _ Ew).
Qed.

Lemma serialize_empty {A} lockOrder (queues : list (list A)) :
  Forall (λ q, q = []) queues → serialize lockOrder queues = [].
Proof.
  intros Hq. apply length_zero_iff_nil. rewrite serialize_length.
  induction Hq as [|q queues -> _ IH]; [done|]. done.
Qed.


Lemma record_totalCycles b (attempts : list (list Z * W)) :
  totalCycles (foldl record b attempts) = (totalCycles b + length attempts)%nat.
Proof.
  revert b. induction attempts as [|[p c] attempts IH]; intros b; simpl; [lia|].
  rewrite IH. destruct (wlt c (bestCost b)); simpl; lia.
Qed.

Lemma record_best (Q : list Z * W → Prop) b (attempts : list (list Z * W)) :
  Forall Q attempts →
  (∀ p, bestPath b = Some p → Q (p, bestCost b)) →
  ∀ p, bestPath (foldl record b attempts) = Some p →
       Q (p, bestCost (foldl record b attempts)).
Proof.
  intros Hq. revert b. induction Hq as [|[p c] attempts Hpc _ IH]; intros b Hb; [done|].
  simpl. apply IH. destruct (wlt c (bestCost b)); simpl; [|done].
  by intros ? [= <-].
Qed.


Lemma SolveTSP_unfold env g maxCPU maxSeconds :
  (2 ≤ NodeCount g)%nat →
  SolveTSP env g maxCPU maxSeconds =
    let b := foldl record initial
               (serialize (lockOrder env) (queuesOf env g maxCPU maxSeconds)) in
    match bestPath b with
    | None => ([], wzero, totalCycles b)
    | Some p => (p, bestCost b, totalCycles b)
    end.
Proof.
  intros Hn. unfold SolveTSP.
  destruct (Nat.eqb_spec (NodeCount g) 0); [lia|].
  destruct (Nat.eqb_spec (NodeCount g) 1); [lia|]. done.
Qed.

Lemma SolveTSP_attempt (Q : list Z * W → Prop) env g maxCPU maxSeconds p c n :
  (2 ≤ NodeCount g)%nat →
  (∀ startNode rng mo p c rng' mo' polls,
      startNode ∈ nodes g →
      randomizedNearestNeighbor startNode (NodeCount g) g rng mo = (Some (p, c), rng', mo') →
      let st := (twoOptRun p c g polls).1.1 in Q (tour st, currentCost st)) →
  SolveTSP env g maxCPU maxSeconds = (p, c, n) → p ≠ [] → Q (p, c).
Proof.
  intros Hn HQ. rewrite SolveTSP_unfold by done. cbv zeta.
  destruct (bestPath _) as [p'|] eqn:Hbest; [|by intros [= <- _ _]].
  intros [= <- <- _] _.
  eapply (record_best Q); [|done|exact Hbest].
  apply serialize_Forall, Forall_fmap, Forall_forall. intros i _.
  apply workerLoop_Forall; [lia|done|done].
Qed.
End OrchestratorFacts.


(** ** Runs that agree on what the runtime decides *)

Section Replay.
Context {W : Type} `{Weight W}.

Lemma rangeMap_sameOrders {A} (m1 m2 : MapOrder) (m : gmap Z A) :
  sameOrders m1 m2 →
  (rangeMap m1 m).1 = (rangeMap m2 m).1 ∧
  sameOrders (rangeMap m1 m).2 (rangeMap m2 m).2.
Proof.
  intros [Hr Hp]. unfold rangeMap, sameOrders. simpl.
  by rewrite Hr, Hp.
Qed.

Lemma Intn_sameDraws (r1 r2 : Rand) n :
  sameDraws r1 r2 →
  (Intn r1 n).1 = (Intn r2 n).1 ∧ sameDraws (Intn r1 n).2 (Intn r2 n).2.
Proof.
  intros [Hd Hf]. unfold Intn, sameDraws. simpl. by rewrite Hd, Hf.
Qed.

Lemma walkLoop_replay todo (g : Graph W) (st : walk W) r1 r2 m1 m2 :
  sameDraws r1 r2 → sameOrders m1 m2 →
  (walkLoop todo g st r1 m1).1.1 = (walkLoop todo g st r2 m2).1.1.
Proof.
  revert st r1 r2 m1 m2.
  induction todo as [|todo IH]; intros st r1 r2 m1 m2 Hr Hm; [done|].
  cbn [walkLoop].
  destruct (rangeMap_sameOrders m1 m2 (neighbors g (current st)) Hm) as [He Hm'].
  destruct (rangeMap m1 _) as [entries m1'], (rangeMap m2 _) as [entries2 m2'].
  simpl in He, Hm'. subst entries2.
  set (topK := foldl (consider (visited st)) [] entries).
  destruct (length topK =? 0)%nat; [done|].
  destruct (Intn_sameDraws r1 r2 (length topK) Hr) as [Hi Hr'].
  destruct (Intn r1 _) as [i1 r1'], (Intn r2 _) as [i2 r2'].
  simpl in Hi, Hr'. subst i2. by apply IH.
Qed.

Lemma attempt_replay (g : Graph W) startNode r1 r2 m1 m2 polls :
  sameDraws r1 r2 → sameOrders m1 m2 →
  attempt startNode g r1 m1 polls = attempt startNode g r2 m2 polls.
Proof.
  intros Hr Hm. unfold attempt, randomizedNearestNeighbor.
  pose proof (walkLoop_replay (NodeCount g - 1) g
    {| current := startNode; path := [startNode];
       visited := {[startNode]}; totalCost := wzero |} r1 r2 m1 m2 Hr Hm) as Hw.
  destruct (walkLoop _ _ _ r1 m1) as [[o1 r1'] m1'].
  destruct (walkLoop _ _ _ r2 m2) as [[o2 r2'] m2'].
  simpl in Hw. subst o2. destruct o1 as [st|]; [|done].
  by destruct (edge g _ _).
Qed.
End Replay.

(** ** Graphs on which construction is stuck *)

Section Stuck.
Context {W : Type} `{Weight W}.
Implicit Types (g : Graph W) (st : walk W).

Lemma shuffle_singleton {A} (ps : list nat) (x : A) : shuffle ps [x] = [x].
Proof.
  destruct ps as [|[|p] ps]; simpl; [done| |done].
  by destruct ps as [|[|?] ?].
Qed.

Lemma consider_visited (vis : gset Z) (entries : list (Z * W)) :
  Forall (λ nw, nw.1 ∈ vis) entries → foldl (consider vis) [] entries = [].
Proof.
  induction 1 as [|[n w] entries Hn _ IH]; simpl; [done|].
  simpl in Hn. by destruct (decide (n ∈ vis)).
Qed.

(** Every neighbour of the current node is visited: a dead end. *)
Lemma walkLoop_dead_end todo g st rng mo :
  (∀ n, is_Some (edge g (current st) n) → n ∈ visited st) →
  (walkLoop (S todo) g st rng mo).1.1 = None.
Proof.
  intros Hvis. cbn [walkLoop].
  assert (Hall : Forall (λ nw, nw.1 ∈ visited st)
                   (rangeMap mo (neighbors g (current st))).1).
  { apply Forall_forall. intros [n w] Hnw%elem_of_rangeMap. simpl. apply Hvis.
    unfold edge. by rewrite Hnw. }
  destruct (rangeMap mo _) as [entries mo']. simpl in Hall.
  by rewrite (consider_visited _ _ Hall).
Qed.

(** The current node has one neighbour, not yet visited: the walk moves
    there, whatever is drawn. *)
Lemma walkLoop_forced todo g st rng mo n w :
  neighbors g (current st) = {[n := w]} → n ∉ visited st →
  ∃ rng' mo', walkLoop (S todo) g st rng mo =
              walkLoop todo g (extend st (mkCandidate n w)) rng' mo'.
Proof.
  intros Hnb Hn. cbn [walkLoop]. unfold rangeMap.
  rewrite Hnb, map_to_list_singleton, shuffle_singleton. simpl.
  destruct (decide (n ∈ visited st)); [done|]. simpl.
  by eexists _, _.
Qed.

(** On a built graph with one node, construction succeeds. *)
Lemma single_node_constructible g u rng mo :
  wf g → nodes g = [u] →
  (randomizedNearestNeighbor u (NodeCount g) g rng mo).1.1 ≠ None.
Proof.
  intros Hwf Hu. unfold randomizedNearestNeighbor, NodeCount. rewrite Hu. simpl.
  destruct (wf_linked g Hwf u) as [v Hv]; [rewrite Hu; by left|].
  destruct (wf_closed g Hwf u v Hv) as [_ Hvn]. rewrite Hu in Hvn.
  apply list_elem_of_singleton in Hvn as ->.
  unfold idx. simpl. by destruct Hv as [w ->].
Qed.
End Stuck.

Lemma twoPairs_unconstructible : unconstructible twoPairs.
Proof.
  assert (Hstep : ∀ s s' rng mo,
    neighbors twoPairs s = {[s' := 1%float]} →
    neighbors twoPairs s' = {[s := 1%float]} → s ≠ s' →
    (randomizedNearestNeighbor s (NodeCount twoPairs) twoPairs rng mo).1.1 = None).
  { intros s s' rng mo Hs Hs' Hne. unfold randomizedNearestNeighbor.
    change (NodeCount twoPairs - 1)%nat with 3%nat.
    set (st := {| current := s; path := [s]; visited := {[s]}; totalCost := wzero |}).
    destruct (walkLoop_forced 2 twoPairs st rng mo s' 1%float Hs)
      as (rng' & mo' & ->); [simpl; set_solver|].
    pose proof (walkLoop_dead_end 1 twoPairs (extend st (mkCandidate s' 1%float)) rng' mo')
      as Hdead.
    destruct (walkLoop 2 _ _ _ _) as [[o rng''] mo'']. simpl in Hdead.
    rewrite Hdead; [done|].
    intros n [w Hw]. unfold edge in Hw. rewrite Hs' in Hw.
    apply lookup_singleton_Some in Hw as [<- _]. set_solver. }
  intros startNode rng mo Hin.
  change (nodes twoPairs) with [1; 0; 3; 2] in Hin.
  repeat (apply elem_of_cons in Hin as [->|Hin]);
    [apply (Hstep 1 0)|apply (Hstep 0 1)|apply (Hstep 3 2)|apply (Hstep 2 3)|
     by apply elem_of_nil in Hin]; try (vm_compute; reflexivity); lia.
Qed.

(** The attempts counted are those brought to the critical section. *)
Lemma SolveTSP_counts_completed_attempts `{Wt : Weight W} (env : Env) (g : Graph W)
    (maxCPU maxSeconds : Z) :
  (2 ≤ NodeCount g)%nat →
  (SolveTSP env g maxCPU maxSeconds).2 =
    length (concat (queuesOf env g maxCPU maxSeconds)).
Proof.
  intros Hn. rewrite SolveTSP_unfold by done. cbv zeta.
  rewrite <- (serialize_length (lockOrder env)).
  destruct (bestPath _); simpl; by rewrite record_totalCycles.
Qed.


(** ** Convergence of the search without a deadline *)

Section Termination.
Context {W : Type} `{Ex : ExactWeight W} {Sw : StrictWeight W}.
Variable g : Graph W.
Hypothesis g_sym : ∀ u v, edge g u v = edge g v u.
Variable path : list Z.

Lemma tourCost_costsOf (p : list Z) : p ≡ₚ path → tourCost g p ∈ costsOf g path.
Proof.
  intros Hp. unfold costsOf. apply list_elem_of_fmap. exists p. split; [done|].
  by apply permutations_Permutation.
Qed.

Lemma descending_start :
  descending g path {| tour := path; currentCost := tourCost g path;
                improved := true; trail := [] |}.
Proof.
  split; simpl; try done.
  - repeat constructor.
  - repeat constructor. by apply tourCost_costsOf.
Qed.

Lemma descending_tryMove i j (st : search W) :
  (i + 2 ≤ j < length (tour st))%nat → descending g path st →
  descending g path (tryMove g (length (tour st)) i j st).
Proof.
  intros Hij Hst.
  pose proof (tryMove_tourCost g g_sym i j st Hij (ds_cost g path st Hst)) as Hcost.
  pose proof (tryMove_Permutation g i j st Hij) as Hperm.
  destruct (tryMove_cases g i j st) as [[-> _]|(d & _ & Hd & _ & Heq)]; [done|].
  rewrite Heq in Hcost, Hperm |- *. simpl in *.
  destruct Hst as [Hlen Hp Hc Hhd Hs Hin]. split; simpl.
  - by rewrite reverse_length.
  - by rewrite Hperm.
  - done.
  - done.
  - constructor; [done|].
    destruct (trail st ++ [tourCost g path]) as [|c l]; [done|].
    injection Hhd as ->. apply StronglySorted_inv in Hs as [_ Hall].
    constructor; [by apply wadd_strict|].
    eapply Forall_impl; [exact Hall|]. intros x Hx. simpl in Hx.
    eapply wbelow_trans; [by apply wadd_strict|done].
  - constructor; [|done]. rewrite Hcost. apply tourCost_costsOf.
    by rewrite Hperm.
Qed.

Lemma descending_sweep (st : search W) :
  descending g path st → descending g path (sweep g (length path) st).
Proof.
  intros Hst.
  apply (sweep_invariant g (length path) (descending g path));
    [by intros ? []| |done].
  intros i j st' Hij Hst'. rewrite <- (ds_length g path st' Hst').
  apply descending_tryMove; [|done]. by rewrite (ds_length g path st' Hst').
Qed.

(** The moves applied are bounded by the number of tours. *)
Lemma descending_bound (st : search W) :
  descending g path st → (length (trail st) < length (costsOf g path))%nat.
Proof.
  intros [_ _ _ _ Hs Hin].
  assert (Hnd : NoDup (trail st ++ [tourCost g path])).
  { clear Hin. induction Hs as [|x l _ IH Hall]; constructor; [|done].
    intros Hx. eapply Forall_forall in Hall; [|exact Hx].
    by apply wbelow_irrefl in Hall. }
  pose proof (submseteq_length _ _
    (NoDup_submseteq _ (costsOf g path) Hnd (proj1 (Forall_forall _ _) Hin))) as Hle.
  rewrite length_app in Hle. simpl in Hle. lia.
Qed.

(** A sweep that sets [improved] has applied a move. *)
Lemma sweep_improved size (st : search W) :
  length (tour st) = size →
  improved (sweep g size st) = true →
  (length (trail st) < length (trail (sweep g size st)))%nat.
Proof.
  intros Hlen.
  set (P := λ st' : search W,
         length (tour st') = size ∧
         (length (trail st) ≤ length (trail st'))%nat ∧
         (improved st' = true → (length (trail st) < length (trail st'))%nat)).
  assert (Hres : P (sweep g size (reset st))).
  { apply (sweep_invariant g size P).
    - by intros st' (Hl & Hle & _).
    - intros i j st' Hij (Hl & Hle & Himp). unfold P. rewrite <- Hl in Hij |- *.
      destruct (tryMove_cases g i j st') as [[-> _]|(d & _ & _ & _ & ->)]; [done|].
      simpl. rewrite reverse_length. split_and!; [done|lia|lia].
    - by split_and!. }
  apply Hres.
Qed.

Lemma sweeps_converge polls (st : search W) :
  descending g path st →
  (length (costsOf g path) ≤ length (trail st) + polls)%nat →
  (sweeps g (length path) polls st).2 = Converged.
Proof.
  revert st. induction polls as [|polls IH]; intros st Hst Hp.
  - pose proof (descending_bound st Hst). lia.
  - simpl. pose proof (descending_sweep st Hst) as Hst'.
    pose proof (sweep_improved (length path) st (ds_length g path st Hst)) as Hgrow.
    destruct (improved (sweep g (length path) st)); [|done].
    apply IH; [done|]. specialize (Hgrow eq_refl). lia.
Qed.

(** With as many polls as there are tours, [twoOpt] leaves its loop by
    convergence. *)
Lemma twoOptRun_converges polls :
  (length (costsOf g path) ≤ polls)%nat →
  (twoOptRun path (tourCost g path) g polls).2 = Converged.
Proof.
  intros Hp. unfold twoOptRun. apply sweeps_converge; [apply descending_start|].
  simpl. lia.
Qed.
End Termination.


(** ** The comparison of [float64] *)

Ltac rank_yes :=
  solve [split; [intros _; eexists _, _;
                 split; [reflexivity|split; [reflexivity|unfold below; simpl; lia]]
                |done]].
Ltac rank_no :=
  solve [split; [done
                |intros (? & ? & ? & ? & Hb); simplify_eq/=;
                 try (unfold below in Hb; simpl in Hb; lia)]].

Lemma SFltb_rank (f1 f2 : spec_float) :
  SFltb f1 f2 = true ↔ ∃ k1 k2, rank f1 = Some k1 ∧ rank f2 = Some k2 ∧ below k1 k2.
Proof.
  unfold SFltb.
  destruct f1 as [s1|s1| |s1 m1 e1], f2 as [s2|s2| |s2 m2 e2];
    try destruct s1; try destruct s2; simpl; try first [rank_yes|rank_no].
  - destruct (Z.compare_spec e1 e2) as [->|?|?]; try first [rank_yes|rank_no].
    change (Pos.compare_cont Eq m1 m2) with (Pos.compare m1 m2).
    destruct (Pos.compare_spec m1 m2) as [->|?|?]; simpl; first [rank_yes|rank_no].
  - destruct (Z.compare_spec e1 e2) as [->|?|?]; try first [rank_yes|rank_no].
    change (Pos.compare_cont Eq m1 m2) with (Pos.compare m1 m2).
    destruct (Pos.compare_spec m1 m2) as [->|?|?]; simpl; first [rank_yes|rank_no].
Qed.

Lemma notNaN_rank (x : float) : notNaN x ↔ is_Some (rank (Prim2SF x)).
Proof.
  unfold notNaN, is_nan. rewrite FloatAxioms.eqb_spec. unfold SFeqb.
  destruct (Prim2SF x) as [s|s| |s m e]; try destruct s; simpl;
    rewrite ?Z.compare_refl; rewrite ?Pos.compare_cont_refl; simpl;
    (split; [try done; by eauto|try done; by intros [??]]).
Qed.

Lemma ltb_rank (x y : float) :
  (x <? y)%float = true ↔
  ∃ k1 k2, rank (Prim2SF x) = Some k1 ∧ rank (Prim2SF y) = Some k2 ∧ below k1 k2.
Proof. rewrite FloatAxioms.ltb_spec. apply SFltb_rank. Qed.

Lemma ltb_false_rank (x y : float) k1 k2 :
  rank (Prim2SF x) = Some k1 → rank (Prim2SF y) = Some k2 →
  (x <? y)%float = false ↔ ¬ below k1 k2.
Proof.
  intros H1 H2. rewrite <- not_true_iff_false, ltb_rank. split.
  - intros Hn Hb. apply Hn. by exists k1, k2.
  - intros Hn (k1' & k2' & ? & ? & ?). by simplify_eq.
Qed.

Lemma ltb_notNaN (x y : float) : (x <? y)%float = true → notNaN x ∧ notNaN y.
Proof.
  intros (k1 & k2 & H1 & H2 & _)%ltb_rank. rewrite !notNaN_rank, H1, H2. by eauto.
Qed.

Lemma ltb_irrefl (x : float) : (x <? x)%float = false.
Proof.
  apply not_true_iff_false. intros (k1 & k2 & H1 & H2 & Hb)%ltb_rank.
  simplify_eq. unfold below in Hb. lia.
Qed.

Lemma ltb_trans (x y z : float) :
  (x <? y)%float = true → (y <? z)%float = true → (x <? z)%float = true.
Proof.
  intros (k1 & k2 & H1 & H2 & Hb)%ltb_rank (k2' & k3 & H2' & H3 & Hb')%ltb_rank.
  simplify_eq. apply ltb_rank. exists k1, k3. split_and!; [done..|].
  unfold below in *. lia.
Qed.

Lemma ltb_negtrans (x y z : float) :
  notNaN x → notNaN y → notNaN z →
  (x <? y)%float = false → (y <? z)%float = false → (x <? z)%float = false.
Proof.
  intros [k1 H1]%notNaN_rank [k2 H2]%notNaN_rank [k3 H3]%notNaN_rank.
  rewrite (ltb_false_rank x y k1 k2), (ltb_false_rank y z k2 k3),
    (ltb_false_rank x z k1 k3) by done.
  unfold below. lia.
Qed.

(** Go's [<] on [float64] is a total preorder on the values that are not
    NaN. *)
#[export] Instance float64_weak : @WeakOrderWeight float float64 notNaN.
Proof.
  split; simpl.
  - apply ltb_notNaN.
  - apply ltb_irrefl.
  - apply ltb_trans.
  - apply ltb_negtrans.
  - reflexivity.
Qed.

(** ** [float64] arithmetic on small integers, by evaluation *)

Lemma elem_of_upTo (M z : Z) : - M ≤ z ≤ M → z ∈ upTo M.
Proof. intros Hz. unfold upTo. apply elem_of_seqZ. lia. Qed.

Lemma within_spec (M z : Z) : within M z = true ↔ - M ≤ z ≤ M.
Proof. unfold within. rewrite andb_true_iff, !Z.leb_le. done. Qed.

Lemma exactb_sound (M : Z) : exactb M = true → ExactOn (W := float) Z2float M.
Proof.
  unfold exactb. intros Hb.
  assert (Hab : ∀ a b, - M ≤ a ≤ M → - M ≤ b ≤ M →
    (- M ≤ a + b ≤ M → (Z2float a + Z2float b)%float = Z2float (a + b)) ∧
    (- M ≤ a - b ≤ M → (Z2float a - Z2float b)%float = Z2float (a - b))).
  { intros a b Ha Hb'.
    pose proof (proj1 (forallb_forall _ _) Hb a) as H1.
    rewrite <- list_elem_of_In in H1. specialize (H1 (elem_of_upTo M a Ha)).
    pose proof (proj1 (forallb_forall _ _) H1 b) as H2.
    rewrite <- list_elem_of_In in H2. specialize (H2 (elem_of_upTo M b Hb')).
    apply andb_true_iff in H2 as [Hadd Hsub]. split; intros Hr.
    - rewrite (proj2 (within_spec M _) Hr) in Hadd. simpl in Hadd.
      by apply FloatAxioms.Leibniz.eqb_spec.
    - rewrite (proj2 (within_spec M _) Hr) in Hsub. simpl in Hsub.
      by apply FloatAxioms.Leibniz.eqb_spec. }
  split; [done|..]; intros a b Ha Hb' Hr; by apply Hab.
Qed.

Lemma orderedb_sound (M : Z) :
  orderedb M = true → OrderedOn (W := float) Z2float M float_le.
Proof.
  unfold orderedb. intros Hb. split.
  - intros a b Ha Hb' Hab.
    pose proof (proj1 (forallb_forall _ _) Hb a) as H1.
    rewrite <- list_elem_of_In in H1. specialize (H1 (elem_of_upTo M a Ha)).
    apply andb_true_iff in H1 as [_ H1].
    pose proof (proj1 (forallb_forall _ _) H1 b) as H2.
    rewrite <- list_elem_of_In in H2. specialize (H2 (elem_of_upTo M b Hb')).
    rewrite (proj2 (Z.leb_le a b) Hab) in H2. done.
  - intros d Hd Hlt.
    pose proof (proj1 (forallb_forall _ _) Hb d) as H1.
    rewrite <- list_elem_of_In in H1. specialize (H1 (elem_of_upTo M d Hd)).
    apply andb_true_iff in H1 as [H1 _].
    assert (Hlt' : (Z2float d <? wnegeps)%float = true) by exact Hlt.
    rewrite Hlt' in H1. by apply Z.ltb_lt.
Qed.

(** The exact instance is exact everywhere. *)
Lemma nano_ExactOn (M : Z) : ExactOn (W := Z) id M.
Proof. split; simpl; intros; done. Qed.

(** ** Graphs with rewritten weights *)

Section MapWeights.
Context {A B : Type} (f : A → B).
Implicit Types (g : Graph A).

Lemma mapWeights_register n g :
  mapWeights f (register n g) = register n (mapWeights f g).
Proof.
  unfold register, mapWeights. simpl. rewrite lookup_fmap.
  destruct (edges g !! n); simpl; [done|].
  by rewrite fmap_insert, fmap_empty.
Qed.

Lemma mapWeights_setWeight a b w g :
  mapWeights f (setWeight a b w g) = setWeight a b (f w) (mapWeights f g).
Proof.
  unfold setWeight, mapWeights. simpl. f_equal.
  rewrite fmap_insert, lookup_fmap. f_equal.
  destruct (edges g !! a); simpl; by rewrite fmap_insert, ?fmap_empty.
Qed.

Lemma mapWeights_AddEdge from to w g :
  mapWeights f (AddEdge from to w g) = AddEdge from to (f w) (mapWeights f g).
Proof.
  unfold AddEdge. by rewrite !mapWeights_setWeight, !mapWeights_register.
Qed.

Lemma build_mapWeights (calls : list (Z * Z * A)) :
  build ((λ c, (c.1.1, c.1.2, f c.2)) <$> calls) = mapWeights f (build calls).
Proof.
  induction calls as [|[[from to] w] calls IH] using rev_ind.
  - unfold build, mapWeights, NewGraph. simpl. by rewrite fmap_empty.
  - rewrite fmap_app. simpl. rewrite !build_snoc, IH. by rewrite mapWeights_AddEdge.
Qed.

Lemma edge_mapWeights g u v : edge (mapWeights f g) u v = f <$> edge g u v.
Proof.
  unfold edge, neighbors, mapWeights. simpl. rewrite lookup_fmap.
  destruct (edges g !! u); simpl; [by rewrite lookup_fmap|done].
Qed.
End MapWeights.

Lemma build_weighted {W : Type} (enc : Z → W) (calls : list (Z * Z * Z)) :
  build (weighted enc calls) = mapWeights enc (build calls).
Proof. apply build_mapWeights. Qed.

(** The stored weights of a graph built from calls are weights of the
    calls. *)
Lemma edge_build_bounded (P : Z → Prop) (calls : list (Z * Z * Z)) u v z :
  Forall (λ c, P c.2) calls → edge (build calls) u v = Some z → P z.
Proof.
  induction calls as [|[[from to] w] calls IH] using rev_ind; intros Hall.
  - done.
  - apply Forall_app in Hall as [Hcalls Hlast]. apply Forall_inv in Hlast.
    rewrite build_snoc, edge_AddEdge. destruct (decide _); [|by apply IH].
    by intros [= <-].
Qed.


(** ** The cost of a 2-opt move, in exact arithmetic *)

Section MoveCost.
Context {W : Type} `{ExactWeight W}.
Variable g : Graph W.
Hypothesis g_sym : ∀ u v, edge g u v = edge g v u.

Lemma moveDelta_tourCost (p : list Z) i j delta :
  (i + 2 ≤ j < length p)%nat → moveDelta g p i j = Some delta →
  tourCost g (reverse p (i + 1) j) = wadd (tourCost g p) delta.
Proof.
  intros Hij Hd.
  destruct (split_move p i j Hij) as (A & u1 & v1 & M & u2 & B & Hp & <- & ->).
  rewrite Hp in Hd |- *. unfold moveDelta in Hd.
  rewrite move_u1, move_v1, move_u2, move_v2 in Hd.
  rewrite move_reverse, (tourCost_move g g_sym).
  destruct (edge g u1 u2) as [a|] eqn:Ea; [|done].
  destruct (edge g v1 _) as [b|] eqn:Eb; [|done].
  injection Hd as <-.
  by rewrite (weightOf_edge g _ _ _ Ea), (weightOf_edge g _ _ _ Eb).
Qed.
End MoveCost.

(** ** Runs on which the arithmetic is exact

    The graph [gZ] carries integer weights of magnitude up to [B]; the
    solver runs on the same graph with the weights written by [enc],
    which is exact up to [M]. Its costs are then the integer costs,
    written by [enc]. *)

Section ExactRegime.
Context {W : Type} `{Wt : Weight W} (enc : Z → W) (M B : Z).
Hypothesis Hex : ExactOn enc M.
Variable gZ : Graph Z.
Hypothesis gZ_sym : ∀ u v, edge gZ u v = edge gZ v u.
Hypothesis gZ_bound : ∀ u v z, edge gZ u v = Some z → - B ≤ z ≤ B.
Hypothesis B_nonneg : 0 ≤ B.
Hypothesis B_move : 4 * B ≤ M.

#[local] Abbreviation gW := (mapWeights enc gZ).
#[local] Abbreviation zw := (@weightOf Z nano gZ).
#[local] Abbreviation zpath := (@pathCost Z nano gZ).
#[local] Abbreviation ztour := (@tourCost Z nano gZ).

Lemma edge_enc u v w :
  edge gW u v = Some w → ∃ z, edge gZ u v = Some z ∧ w = enc z ∧ zw u v = z.
Proof.
  rewrite edge_mapWeights. unfold weightOf.
  destruct (edge gZ u v) as [z|]; [|done]. intros [= <-]. by exists z.
Qed.

Lemma zw_bound u v : - B ≤ zw u v ≤ B.
Proof.
  unfold weightOf. destruct (edge gZ u v) as [z|] eqn:E; simpl; [|lia].
  by eapply gZ_bound.
Qed.

Lemma weightOf_enc u v : weightOf gW u v = enc (zw u v).
Proof.
  unfold weightOf. rewrite edge_mapWeights.
  destruct (edge gZ u v); simpl; [done|]. symmetry. apply Hex.
Qed.

Lemma zpath_bound (p : list Z) :
  - (Z.of_nat (length p) * B) ≤ zpath p ≤ Z.of_nat (length p) * B.
Proof.
  induction p as [|u [|v p] IH]; [simpl; lia|simpl; lia|].
  change (zpath (u :: v :: p)) with (zw u v + zpath (v :: p)).
  pose proof (zw_bound u v).
  rewrite (length_cons u (v :: p)), Nat2Z.inj_succ, Z.mul_succ_l. lia.
Qed.

Lemma ztour_bound (p : list Z) :
  - ((Z.of_nat (length p) + 1) * B) ≤ ztour p ≤ (Z.of_nat (length p) + 1) * B.
Proof.
  destruct p as [|x p]; [simpl; lia|].
  change (ztour (x :: p)) with (zpath ((x :: p) ++ [x])).
  pose proof (zpath_bound ((x :: p) ++ [x])) as Hb.
  rewrite length_app in Hb. simpl length in *. lia.
Qed.

Lemma pathCost_enc (p : list Z) :
  Z.of_nat (length p) * B ≤ M → pathCost gW p = enc (zpath p).
Proof.
  induction p as [|u [|v p] IH]; intros Hlen.
  - symmetry. apply Hex.
  - symmetry. apply Hex.
  - change (pathCost gW (u :: v :: p))
      with (wadd (weightOf gW u v) (pathCost gW (v :: p))).
    change (zpath (u :: v :: p)) with (zw u v + zpath (v :: p)).
    rewrite (length_cons u (v :: p)), Nat2Z.inj_succ, Z.mul_succ_l in Hlen.
    pose proof (zw_bound u v). pose proof (zpath_bound (v :: p)).
    rewrite weightOf_enc, IH by lia. apply Hex; lia.
Qed.

Lemma tourCost_enc (p : list Z) :
  (Z.of_nat (length p) + 1) * B ≤ M → tourCost gW p = enc (ztour p).
Proof.
  destruct p as [|x p]; intros Hlen; [symmetry; apply Hex|].
  apply pathCost_enc. rewrite length_app. simpl length in *. lia.
Qed.

Lemma moveDelta_enc (p : list Z) i j delta :
  moveDelta gW p i j = Some delta →
  ∃ d, @moveDelta Z nano gZ p i j = Some d ∧ delta = enc d ∧
       - (4 * B) ≤ d ≤ 4 * B.
Proof.
  unfold moveDelta. rewrite !weightOf_enc, !edge_mapWeights.
  set (u1 := idx p i). set (v1 := idx p ((i + 1) `mod` length p)).
  set (u2 := idx p j). set (v2 := idx p ((j + 1) `mod` length p)).
  destruct (edge gZ u1 u2) as [a|] eqn:Ea; [|by simpl].
  destruct (edge gZ v1 v2) as [b|] eqn:Eb; [|by simpl].
  simpl. intros [= <-].
  pose proof (gZ_bound _ _ _ Ea). pose proof (gZ_bound _ _ _ Eb).
  pose proof (zw_bound u1 v1). pose proof (zw_bound u2 v2).
  exists (a + b - (zw u1 v1 + zw u2 v2)). split_and!; [done| |lia|lia].
  rewrite (enc_add enc M Hex a b), (enc_add enc M Hex (zw u1 v1) (zw u2 v2)) by lia.
  apply Hex; lia.
Qed.

(** *** Construction *)

Lemma walkLoop_enc todo (st : walk W) rng mo (st' : walk W) rng' mo' :
  last (path st) = Some (current st) →
  totalCost st = enc (zpath (path st)) →
  Z.of_nat (length (path st) + todo) * B ≤ M →
  walkLoop todo gW st rng mo = (Some st', rng', mo') →
  last (path st') = Some (current st') ∧
  totalCost st' = enc (zpath (path st')) ∧
  length (path st') = (length (path st) + todo)%nat.
Proof.
  revert st rng mo. induction todo as [|todo IH]; intros st rng mo Hl Hc Hlen Hrun.
  - simpl in Hrun. injection Hrun as <- _ _. split_and!; [done..|lia].
  - apply walkLoop_step in Hrun as (choice & rng1 & mo1 & [_ He] & Hrun).
    apply edge_enc in He as (z & Hz & Hd & Hzw).
    apply IH in Hrun as (Hl' & Hc' & Hlen').
    + split_and!; [done..|]. rewrite Hlen'. simpl. rewrite length_app. simpl. lia.
    + simpl. by rewrite last_snoc.
    + simpl. apply last_Some in Hl as [l Hl]. rewrite Hl, <- app_assoc. simpl.
      rewrite (pathCost_snoc (W := Z) gZ), <- Hl, Hc, Hd, Hzw.
      pose proof (zpath_bound (path st)). pose proof (gZ_bound _ _ _ Hz).
      rewrite Nat2Z.inj_add, Nat2Z.inj_succ in Hlen.
      apply Hex; simpl; nia.
    + simpl. rewrite length_app. simpl.
      replace (length (path st) + 1 + todo)%nat with (length (path st) + S todo)%nat
        by lia. done.
Qed.

Lemma randomizedNearestNeighbor_enc startNode numNodes rng mo p c rng' mo' :
  (Z.of_nat (S (numNodes - 1)) + 1) * B ≤ M →
  randomizedNearestNeighbor startNode numNodes gW rng mo = (Some (p, c), rng', mo') →
  length p = S (numNodes - 1) ∧ c = enc (ztour p).
Proof.
  intros Hlen. unfold randomizedNearestNeighbor.
  destruct (walkLoop _ _ _ _ _) as [[[st|] rng1] mo1] eqn:Hrun; [|done].
  apply walkLoop_enc in Hrun as (Hl & Hc & Hn); simpl; [|done|symmetry; apply Hex|nia].
  simpl in Hn.
  destruct (edge gW _ _) as [w|] eqn:Ew; [|done]. intros [= <- <- <- <-].
  split; [lia|].
  apply edge_enc in Ew as (z & Hz & -> & Hzw).
  apply last_Some in Hl as Hp. destruct Hp as [l Hp].
  assert (Hlast : idx (path st) (length (path st) - 1) = current st).
  { apply idx_lookup. rewrite <- Hl, last_lookup. f_equal. lia. }
  rewrite Hlast in Hzw, Hz.
  rewrite (tourCost_idx (W := Z)) by (rewrite Hp; by destruct l).
  rewrite Hp at 1. rewrite <- app_assoc. simpl.
  rewrite (pathCost_snoc (W := Z) gZ), <- Hp, Hc, Hzw.
  pose proof (zpath_bound (path st)). pose proof (gZ_bound _ _ _ Hz).
  apply Hex; simpl; nia.
Qed.

(** *** Refinement: the running cost is the cost of the tour, up to the
    offset [k] between the cost given and the cost of the tour given *)

Section Refinement.
Variables (n : nat) (k : Z).
Hypothesis k_range : ∀ p : list Z, length p = n → - M ≤ k + ztour p ≤ M.

#[local] Abbreviation tracking := (tracking enc gZ n k).

Lemma tryMove_tracking i j (st : search W) :
  (i + 2 ≤ j < length (tour st))%nat → tracking st →
  let st' := tryMove gW (length (tour st)) i j st in
  tracking st' ∧
  (st' = st ∨
   ∃ d, wlt (enc d) wnegeps = true ∧ - M ≤ d ≤ M ∧
        ztour (tour st') = ztour (tour st) + d ∧
        trail st' = currentCost st' :: trail st).
Proof.
  intros Hij [Hlen Hc] st'. unfold st'.
  destruct (tryMove_cases gW i j st) as [[-> _]|(delta & Hd & Hlt & _ & ->)];
    [by split; [|left]|].
  apply moveDelta_enc in Hd as (d & Hd & -> & Hdb).
  pose proof (moveDelta_tourCost (W := Z) gZ gZ_sym (tour st) i j d Hij Hd) as Hz.
  change (ztour (reverse (tour st) (i + 1) j) = ztour (tour st) + d) in Hz.
  assert (Hlen' : length (reverse (tour st) (i + 1) j) = n)
    by by rewrite reverse_length.
  pose proof (k_range _ Hlen). pose proof (k_range _ Hlen') as Hr'.
  rewrite Hz in Hr'.
  assert (Hnew : wadd (currentCost st) (enc d) = enc (k + (ztour (tour st) + d))).
  { rewrite Hc, (enc_add enc M Hex) by lia. f_equal. lia. }
  simpl. split.
  - split; simpl; [done|]. by rewrite Hnew, Hz.
  - right. exists d. repeat split; try done; lia.
Qed.

Lemma twoOptRun_tracking (path : list Z) cost polls :
  length path = n → cost = enc (k + ztour path) →
  tracking (twoOptRun path cost gW polls).1.1.
Proof.
  intros Hlen Hc.
  apply (twoOptRun_invariant gW tracking path cost polls).
  - intros st [Hst _]. by rewrite Hst.
  - by intros st [? ?].
  - intros i j st Hij Hst. by apply tryMove_tracking.
  - done.
Qed.

(** With the comparison [le]: the running costs descend. *)
Section Order.
Variables (le : W → W → Prop) (z0 : Z).
Hypothesis Hord : OrderedOn enc M le.
Hypothesis z0_range : - M ≤ z0 ≤ M.

#[local] Abbreviation descendingOn := (descendingOn enc gZ n k le z0).

Lemma tryMove_descendingOn i j (st : search W) :
  (i + 2 ≤ j < length (tour st))%nat → descendingOn st →
  descendingOn (tryMove gW (length (tour st)) i j st).
Proof.
  intros Hij (Hst & Hs & Hhd & Hle).
  destruct (tryMove_tracking i j st Hij Hst) as [Hst' [->|(d & Hlt & Hd & Hz & Htr)]];
    [done|].
  set (st' := tryMove gW (length (tour st)) i j st) in *.
  pose proof (enc_improving enc M le Hord d Hd Hlt) as Hneg.
  destruct Hst as [Hlen Hc]. destruct Hst' as [Hlen' Hc'].
  pose proof (k_range _ Hlen). pose proof (k_range _ Hlen').
  split_and!; [done| | |lia].
  - rewrite Htr. simpl. constructor; [done|].
    destruct (trail st ++ [enc z0]) as [|h t]; [constructor|].
    injection Hhd as ->. constructor. rewrite Hc, Hc'.
    apply (enc_le enc M le Hord); lia.
  - by rewrite Htr.
Qed.

Lemma twoOptRun_descendingOn (path : list Z) polls :
  length path = n → z0 = k + ztour path →
  descendingOn (twoOptRun path (enc z0) gW polls).1.1.
Proof.
  intros Hlen Hz0.
  apply (twoOptRun_invariant gW descendingOn path (enc z0) polls).
  - intros st [[Hst _] _]. by rewrite Hst.
  - by intros st (? & ? & ? & ?).
  - intros i j st Hij Hst. by apply tryMove_descendingOn.
  - split_and!; simpl; [by split; simpl; [|rewrite Hz0]| |done|lia].
    repeat constructor.
Qed.

Lemma twoOptRun_le (path : list Z) polls :
  length path = n → z0 = k + ztour path →
  let st := (twoOptRun path (enc z0) gW polls).1.1 in
  le (currentCost st) (enc z0) ∧ Sorted le (trail st ++ [enc z0]).
Proof.
  intros Hlen Hz0 st.
  destruct (twoOptRun_descendingOn path polls Hlen Hz0)
    as ([Hlen' Hc] & Hs & _ & Hle). fold st in Hlen', Hc, Hs, Hle.
  split; [|done]. rewrite Hc.
  pose proof (k_range _ Hlen'). apply (enc_le enc M le Hord); lia.
Qed.
End Order.
End Refinement.

(** *** What [SolveTSP] returns *)

Lemma SolveTSP_enc env maxCPU maxSeconds (p : list Z) (c : W) (attempts : nat) :
  (2 ≤ NodeCount gZ)%nat → (Z.of_nat (NodeCount gZ) + 1) * B ≤ M →
  SolveTSP env gW maxCPU maxSeconds = (p, c, attempts) → p ≠ [] →
  c = enc (ztour p) ∧ c = tourCost gW p.
Proof.
  intros Hn Hb Hrun Hne.
  assert (Hk : ∀ q : list Z, length q = NodeCount gZ → - M ≤ 0 + ztour q ≤ M).
  { intros q Hq. pose proof (ztour_bound q) as Hq'. rewrite Hq in Hq'. lia. }
  assert (HQ : length p = NodeCount gZ ∧ c = enc (ztour p)).
  { apply (SolveTSP_attempt (λ pc, length pc.1 = NodeCount gZ ∧ pc.2 = enc (ztour pc.1))
             env gW maxCPU maxSeconds p c attempts Hn); [|done..].
    intros startNode rng mo p0 c0 rng' mo' polls Hstart Hnn. simpl.
    change (NodeCount gW) with (NodeCount gZ) in Hnn.
    apply randomizedNearestNeighbor_enc in Hnn as [Hlen ->].
    2:{ replace (S (NodeCount gZ - 1)) with (NodeCount gZ) by lia. done. }
    replace (S (NodeCount gZ - 1)) with (NodeCount gZ) in Hlen by lia.
    destruct (twoOptRun_tracking (NodeCount gZ) 0 Hk p0 (enc (ztour p0)) polls)
      as [Hl Hc]; [done|done|]. done. }
  destruct HQ as [Hlen ->]. split; [done|].
  symmetry. apply tourCost_enc. by rewrite Hlen.
Qed.
End ExactRegime.


(** * The claims *)

(** ** Graph construction *)

(** C6, as stated, fails: the single call [AddEdge(7, 7, 5.0)] stores the
    edge from node 7 to itself. *)
Lemma AddEdge_self_loop :
  edge (AddEdge 7 7 5000000000 (NewGraph 0)) 7 7 = Some 5000000000 ∧
  nodes (AddEdge 7 7 5000000000 (NewGraph 0)) = [7].
Proof. split; vm_compute; reflexivity. Qed.

(** C6, amended: when no call of [AddEdge] has [from] equal to [to], the
    graph built by the calls stores no edge from a node to itself. *)
Theorem AddEdge_no_self_loop {W : Type} (calls : list (Z * Z * W)) :
  Forall (λ c, c.1.1 ≠ c.1.2) calls →
  ∀ u, edge (build calls) u u = None.
Proof.
  induction calls as [|[[from to] w] calls IH] using rev_ind; intros Hne u.
  - done.
  - apply Forall_app in Hne as [Hcalls Hlast].
    apply Forall_inv in Hlast. simpl in Hlast.
    rewrite build_snoc, edge_AddEdge.
    destruct (decide _) as [[[Hu Heq]|[Hu Heq]]|_]; [lia..|by apply IH].
Qed.

Lemma AddEdge_no_self_loop_witness :
  Forall (λ u, edge square u u = None) (nodes square).
Proof.
  apply Forall_forall. intros u _. revert u.
  apply (AddEdge_no_self_loop
           [(0, 1, 1%float); (1, 2, 1%float); (2, 3, 1%float); (3, 0, 1%float);
            (0, 2, sqrt 2); (1, 3, sqrt 2)]).
  repeat constructor; simpl; lia.
Defined.

(** C7, amended: for the [AddEdge] of [pkg/graph.go], the graph that the
    solver reads: in every graph built by calls of [AddEdge] the edge from
    [u] to [v] is stored exactly when the edge from [v] to [u] is, with
    the same weight; and a call of [AddEdge] keeps that true of any graph. *)
Theorem AddEdge_symmetric_weights {W : Type} :
  (∀ (calls : list (Z * Z * W)) u v,
      edge (build calls) u v = edge (build calls) v u) ∧
  (∀ (g : Graph W) from to w,
      (∀ u v, edge g u v = edge g v u) →
      ∀ u v, edge (AddEdge from to w g) u v = edge (AddEdge from to w g) v u).
Proof.
  split.
  - intros calls. apply wf_sym, wf_build.
  - intros g from to w Hsym u v. rewrite !edge_AddEdge.
    repeat destruct (decide _); try done; intuition congruence.
Qed.

(** ** Degenerate inputs *)

(** C8: on a graph without nodes [SolveTSP] returns the empty tour, cost 0
    and 0 attempts; on a graph with one node it returns the tour of that
    node, cost 0 and 1 attempt; in both cases whatever the environment
    offers, since no worker runs. *)
Theorem SolveTSP_degenerate `{Wt : Weight W} (env : Env) (g : Graph W)
    (maxCPU maxSeconds : Z) :
  (NodeCount g = 0%nat → SolveTSP env g maxCPU maxSeconds = ([], wzero, 0%nat)) ∧
  (NodeCount g = 1%nat →
     ∃ u, nodes g = [u] ∧ SolveTSP env g maxCPU maxSeconds = ([u], wzero, 1%nat)).
Proof.
  unfold SolveTSP. split; intros Hn; rewrite Hn; simpl; [done|].
  unfold NodeCount in Hn. destruct (nodes g) as [|u [|??]]; try done. by exists u.
Qed.

Lemma SolveTSP_degenerate_witness :
  SolveTSP quiet (NewGraph (W := float) 0) 4 59 = ([], 0%float, 0%nat) ∧
  ∃ u, nodes loop7 = [u] ∧ SolveTSP quiet loop7 4 59 = ([u], 0, 1%nat).
Proof.
  split.
  - apply (proj1 (SolveTSP_degenerate (Wt := float64) quiet (NewGraph 0) 4 59)).
    reflexivity.
  - apply (proj2 (SolveTSP_degenerate (Wt := nano) quiet loop7 4 59)). reflexivity.
Defined.

(** C10: on a graph with two nodes or more, a parallelism that is zero or
    negative starts no worker: [SolveTSP] returns the empty tour, cost 0
    and 0 attempts, whatever the time budget. *)
Theorem SolveTSP_no_workers `{Wt : Weight W} (env : Env) (g : Graph W)
    (maxCPU maxSeconds : Z) :
  (2 ≤ NodeCount g)%nat → maxCPU ≤ 0 →
  queuesOf env g maxCPU maxSeconds = [] ∧
  SolveTSP env g maxCPU maxSeconds = ([], wzero, 0%nat).
Proof.
  intros Hn Hcpu.
  assert (Hq : queuesOf env g maxCPU maxSeconds = []).
  { unfold queuesOf. by replace (Z.to_nat _) with 0%nat by lia. }
  split; [done|].
  rewrite SolveTSP_unfold, Hq by done.
  by rewrite (serialize_empty (lockOrder env) []).
Qed.

Lemma SolveTSP_no_workers_witness :
  queuesOf quiet square (-1) 59 = [] ∧
  SolveTSP quiet square (-1) 59 = ([], 0%float, 0%nat).
Proof.
  apply (SolveTSP_no_workers (Wt := float64) quiet square (-1) 59).
  - vm_compute. lia.
  - lia.
Defined.


(** ** The tour and its cost *)

(** C1: a tour that [SolveTSP] returns, unless it is empty, has no
    duplicate, misses no node of the graph, and is a permutation of the
    graph's node list. *)
Theorem SolveTSP_tour_visits_every_node_once `{Wt : Weight W}
    (calls : list (Z * Z * W)) (env : Env) (maxCPU maxSeconds : Z)
    (tour : list Z) (cost : W) (attempts : nat) :
  SolveTSP env (build calls) maxCPU maxSeconds = (tour, cost, attempts) →
  tour ≠ [] →
  NoDup tour ∧ (∀ u, u ∈ nodes (build calls) → u ∈ tour) ∧
  tour ≡ₚ nodes (build calls).
Proof.
  intros Hrun Hne. pose proof (wf_build calls) as Hwf.
  set (g := build calls) in *.
  assert (Hperm : tour ≡ₚ nodes g).
  { destruct (decide (2 ≤ NodeCount g)%nat) as [Hn|Hn].
    - apply (SolveTSP_attempt (λ pc, pc.1 ≡ₚ nodes g) env g maxCPU maxSeconds
               tour cost attempts Hn); [|done..].
      intros startNode rng mo p c rng' mo' polls Hstart Hnn. simpl.
      rewrite twoOptRun_Permutation.
      by eapply randomizedNearestNeighbor_Permutation.
    - unfold SolveTSP in Hrun.
      destruct (Nat.eqb_spec (NodeCount g) 0); [by injection Hrun as <- _ _|].
      destruct (Nat.eqb_spec (NodeCount g) 1); [|lia].
      by injection Hrun as <- _ _. }
  split_and!; [|by intros u; rewrite Hperm|done].
  rewrite Hperm. apply Hwf.
Qed.

Lemma SolveTSP_tour_visits_every_node_once_witness :
  NoDup [1; 2; 3; 0] ∧ (∀ u, u ∈ nodes square → u ∈ [1; 2; 3; 0]) ∧
  [1; 2; 3; 0] ≡ₚ nodes square.
Proof.
  apply (SolveTSP_tour_visits_every_node_once (Wt := float64)
           [(0, 1, 1%float); (1, 2, 1%float); (2, 3, 1%float); (3, 0, 1%float);
            (0, 2, sqrt 2); (1, 3, sqrt 2)]
           quiet 2 1 [1; 2; 3; 0] 0x1.fffffffffffffp+1%float 4%nat).
  - vm_compute. reflexivity.
  - discriminate.
Defined.




(** Under binary64 the two costs agree up to rounding only: on the square
    of the specification the refined cost is the float just below 4, the
    sum along the returned tour is 4. *)
Example float64_cost_up_to_rounding :
  SolveTSP quiet square 2 1 = ([1; 2; 3; 0], 0x1.fffffffffffffp+1%float, 4%nat) ∧
  tourCost square [1; 2; 3; 0] = 4%float.
Proof. split; vm_compute; reflexivity. Qed.

(** ** Local search *)

Lemma twoOpt_twoOptRun `{Wt : Weight W} (path : list Z) (cost : W) (g : Graph W)
    (polls : nat) :
  twoOpt path cost g polls =
    (tour (twoOptRun path cost g polls).1.1,
     currentCost (twoOptRun path cost g polls).1.1).
Proof. unfold twoOpt. by destruct (twoOptRun _ _ _ _) as [[??]?]. Qed.




(** C4: when [twoOpt] leaves its loop because a sweep applied no move (not
    because the context was done), the tour it returns has no improving
    move: at every pair of positions [i], [j] with [j >= i + 2], the pair
    [(0, size - 1)] apart, a replacement edge is missing from the graph or
    the delta is not below -1e-9. *)
Theorem twoOpt_converged_is_stable `{Wt : Weight W}
    (path : list Z) (cost : W) (g : Graph W) (polls : nat)
    (st : search W) (left : nat) :
  twoOptRun path cost g polls = (st, left, Converged) →
  twoOpt path cost g polls = (tour st, currentCost st) ∧
  ∀ i j, (i + 2 ≤ j < length (tour st))%nat →
         ¬ (i = 0 ∧ j = length (tour st) - 1)%nat →
         stable g (tour st) i j.
Proof.
  intros Hrun. split; [by rewrite twoOpt_twoOptRun, Hrun|].
  unfold twoOptRun in Hrun.
  exact (sweeps_Converged g polls
           {| tour := path; currentCost := cost; improved := true; trail := [] |}
           st left Hrun).
Qed.

(** Without a deadline the loop is still left: with exact, strictly ordered
    arithmetic every applied move lowers the cost of the tour, so as many
    polls as there are tours on the nodes suffice for convergence. *)
Example squareNano_converges :
  (twoOptRun [0; 2; 1; 3] (tourCost squareNano [0; 2; 1; 3]) squareNano 24).2
    = Converged.
Proof.
  apply (twoOptRun_converges squareNano).
  - apply (wf_sym _ (wf_build
      [(0, 1, 1000000000); (1, 2, 1000000000); (2, 3, 1000000000);
       (3, 0, 1000000000); (0, 2, 1414213562); (1, 3, 1414213562)])).
  - vm_compute. lia.
Qed.

Lemma twoOpt_converged_is_stable_witness :
  twoOpt [0; 2; 1; 3] 4828427124 squareNano 10 = ([0; 1; 2; 3], 4000000000) ∧
  ∀ i j, (i + 2 ≤ j < 4)%nat → ¬ (i = 0 ∧ j = 3)%nat →
         stable squareNano [0; 1; 2; 3] i j.
Proof.
  apply (twoOpt_converged_is_stable (Wt := nano) [0; 2; 1; 3] 4828427124 squareNano 10
           {| tour := [0; 1; 2; 3]; currentCost := 4000000000;
              improved := false; trail := [4000000000] |} 8).
  vm_compute. reflexivity.
Defined.


(** ** Replay *)

(** The stored order of each neighbour map of the hexagon, and what
    [rotated] makes of an order. *)
Example hexagon_stored_orders :
  (λ u, (map_to_list (neighbors hexagon u)).*1) <$> [0; 1; 2; 3; 4; 5] =
    [[5; 3; 2; 1]; [4; 2; 0]; [5; 3; 1; 0]; [5; 4; 2; 0]; [5; 3; 1]; [3; 4; 2; 0]] ∧
  (rangeMap rotated (neighbors hexagon 0)).1.*1 = [3; 2; 1; 5].
Proof. split; vm_compute; reflexivity. Qed.

(** C5, as stated, fails: the order in which [range] walks the neighbour
    map decides which candidate stands at the drawn index. On the hexagon,
    from start node 0 and with one and the same random source, the run
    that walks every map in its stored order returns a tour of cost 10,
    the run that walks every map from its second entry returns another
    tour, of cost 6. Both runs converge well before the deadline. *)
Lemma attempt_depends_on_map_order :
  attempt 0 hexagon (scripted []) (ordered []) 20
    = Some ([0; 5; 3; 4; 1; 2], 10%float) ∧
  attempt 0 hexagon (scripted []) rotated 20
    = Some ([0; 1; 2; 3; 4; 5], 6%float).
Proof. split; vm_compute; reflexivity. Qed.

(** The same on the complete graph with unit weights, where refinement
    changes nothing: whatever the source draws (one of three candidates,
    then one of two), the two orders lead to different tours. *)
Example order_decides_whatever_is_drawn :
  Forall (λ ds, attempt 0 k4 (scripted ds) (ordered []) 5 ≠
                attempt 0 k4 (scripted ds) rotated 5)
         [[0; 0]; [0; 1]; [1; 0]; [1; 1]; [2; 0]; [2; 1]]%nat.
Proof. repeat constructor; vm_compute; intros [= ?]; discriminate. Qed.

(** C5, amended: an attempt (construction, then refinement) is a function
    of the graph, the start node, the draws of the random source, the
    orders in which the neighbour maps are walked and the number of polls
    that come before the deadline: two runs that agree on these return the
    same tour and the same cost. Two sources made from one seed agree on
    their draws. *)
Theorem attempt_deterministic `{Wt : Weight W} (g : Graph W) (startNode : Z)
    (rng1 rng2 : Rand) (mo1 mo2 : MapOrder) (polls : nat) :
  sameDraws rng1 rng2 → sameOrders mo1 mo2 →
  attempt startNode g rng1 mo1 polls = attempt startNode g rng2 mo2 polls.
Proof. apply attempt_replay. Qed.

Lemma attempt_deterministic_witness :
  attempt 0 hexagon (mkRand (source quiet 42) 0) rotated 20 =
  attempt 0 hexagon (scripted []) rotated 20.
Proof.
  apply (attempt_deterministic (Wt := float64) hexagon 0).
  - split; [reflexivity|]. intros k. simpl. by destruct k.
  - split; [reflexivity|]. by intros k.
Defined.

(** ** No solution *)

(** C9: on a graph that defeats every construction, [SolveTSP] returns
    the empty tour, cost 0 and the count of completed attempts, which is
    0. So does every run, on a graph with two nodes or more, in which no
    worker completes a tour. In general the count returned is the number
    of attempts brought to the critical section: a failed construction
    adds nothing to it. *)
Theorem SolveTSP_no_solution `{Wt : Weight W} (calls : list (Z * Z * W))
    (env : Env) (maxCPU maxSeconds : Z) :
  let g := build calls in
  (unconstructible g → SolveTSP env g maxCPU maxSeconds = ([], wzero, 0%nat)) ∧
  ((2 ≤ NodeCount g)%nat →
     Forall (λ q, q = []) (queuesOf env g maxCPU maxSeconds) →
     SolveTSP env g maxCPU maxSeconds = ([], wzero, 0%nat)) ∧
  ((2 ≤ NodeCount g)%nat →
     (SolveTSP env g maxCPU maxSeconds).2 =
       length (concat (queuesOf env g maxCPU maxSeconds))).
Proof.
  intros g. pose proof (wf_build calls) as Hwf. fold g in Hwf.
  assert (Hrun : (2 ≤ NodeCount g)%nat →
            Forall (λ q, q = []) (queuesOf env g maxCPU maxSeconds) →
            SolveTSP env g maxCPU maxSeconds = ([], wzero, 0%nat)).
  { intros Hn Hq. rewrite SolveTSP_unfold by done. by rewrite serialize_empty. }
  split_and!; [|done|apply SolveTSP_counts_completed_attempts].
  intros Hstuck. destruct (decide (2 ≤ NodeCount g)%nat) as [Hn|Hn].
  - apply Hrun; [done|].
    unfold queuesOf. apply Forall_fmap, Forall_forall. intros i _. simpl.
    apply workerLoop_failing; [lia|done|done].
  - unfold SolveTSP.
    destruct (Nat.eqb_spec (NodeCount g) 0); [done|].
    destruct (Nat.eqb_spec (NodeCount g) 1) as [H1|]; [|lia].
    unfold NodeCount in H1. destruct (nodes g) as [|u [|??]] eqn:Hu; try done.
    destruct (single_node_constructible g u (scripted []) (ordered []) Hwf Hu).
    apply Hstuck. rewrite Hu. by left.
Qed.

Lemma SolveTSP_no_solution_witness :
  SolveTSP quiet twoPairs 4 59 = ([], 0%float, 0%nat) ∧
  SolveTSP quiet twoPairs 2 1 = ([], 0%float, 0%nat).
Proof.
  split.
  - apply (proj1 (SolveTSP_no_solution (Wt := float64)
                    [(0, 1, 1%float); (2, 3, 1%float)] quiet 4 59)).
    exact twoPairs_unconstructible.
  - apply (proj1 (proj2 (SolveTSP_no_solution (Wt := float64)
                           [(0, 1, 1%float); (2, 3, 1%float)] quiet 2 1))).
    + vm_compute. lia.
    + vm_compute. repeat constructor.
Defined.

(** ** The adjacency-list variant *)

(** C7, as stated, fails for the second [AddEdge] it cites, that of the
    adjacency-list variant: one call stores the edge under its larger
    endpoint only, so the edge from 2 to 1 is present and the edge from 1
    to 2 is not. *)
Lemma AdjList_AddEdge_one_direction :
  AdjList.stored (AdjList.AddEdge 1 2 5 (AdjList.NewGraph 0)) 2 1 = [5] ∧
  AdjList.stored (AdjList.AddEdge 1 2 5 (AdjList.NewGraph 0)) 1 2 = [] ∧
  AdjList.NodeCount (AdjList.AddEdge 1 2 5 (AdjList.NewGraph 0)) = 2%nat ∧
  AdjList.EdgeCount (AdjList.AddEdge 1 2 5 (AdjList.NewGraph 0)) = 1%nat.
Proof. split_and!; vm_compute; reflexivity. Qed.


(** * Further properties of the code *)

(** ** graph.go: what [AddEdge], [NodeCount] and [EdgeCount] compute *)

Section GraphMore.
Context {W : Type}.
Implicit Types (g : Graph W) (u v n a b : Z) (w : W).

Lemma edges_register n g u :
  edges (register n g) !! u =
    if decide (u = n) then Some (default ∅ (edges g !! n)) else edges g !! u.
Proof.
  unfold register. destruct (edges g !! n) eqn:E; simpl.
  - destruct (decide (u = n)) as [->|]; [by rewrite E|done].
  - rewrite lookup_insert. destruct (decide (n = u)) as [->|];
      destruct (decide _); try done; congruence.
Qed.

Lemma edges_setWeight a b w g u :
  edges (setWeight a b w g) !! u =
    if decide (u = a) then Some (<[b := w]> (default ∅ (edges g !! a)))
    else edges g !! u.
Proof.
  unfold setWeight. simpl. rewrite lookup_insert.
  destruct (decide (a = u)) as [->|]; destruct (decide _); try done; congruence.
Qed.

Lemma Graph_eq g1 g2 : edges g1 = edges g2 → nodes g1 = nodes g2 → g1 = g2.
Proof. destruct g1, g2. simpl. by intros -> ->. Qed.

Lemma AddEdge_endpoints_swap from to w g :
  AddEdge to from w g = AddEdge from to w g.
Proof. unfold AddEdge. by rewrite (Z.max_comm to from), (Z.min_comm to from). Qed.

Lemma register_registered n g : is_Some (edges g !! n) → register n g = g.
Proof. intros [m Hm]. unfold register. by rewrite Hm. Qed.

Lemma AddEdge_registered from to w g :
  is_Some (edges (AddEdge from to w g) !! Z.max from to) ∧
  is_Some (edges (AddEdge from to w g) !! Z.min from to).
Proof.
  unfold AddEdge. rewrite !edges_setWeight.
  split; repeat destruct (decide _); try done; by eauto.
Qed.

Lemma AddEdge_overwrite from to w1 w2 g :
  AddEdge from to w2 (AddEdge from to w1 g) = AddEdge from to w2 g.
Proof.
  destruct (AddEdge_registered from to w1 g) as [Hf Ht].
  unfold AddEdge at 1. rewrite (register_registered _ _ Hf), (register_registered _ _ Ht).
  unfold AddEdge. set (f := Z.max from to). set (t := Z.min from to).
  set (g0 := register t (register f g)).
  apply Graph_eq; [|done].
  clearbody g0 f t. clear Hf Ht.
  apply map_eq. intros u. rewrite !edges_setWeight.
  repeat destruct (decide _); simplify_eq/=; rewrite ?insert_insert_eq; done.
Qed.

Lemma endpoints_snoc (calls : list (Z * Z * W)) from to w :
  endpoints (calls ++ [(from, to, w)]) = endpoints calls ∪ {[from; to]}.
Proof.
  unfold endpoints. rewrite bind_app, list_to_set_app_L. simpl. set_solver.
Qed.

Lemma nodes_build_endpoints (calls : list (Z * Z * W)) u :
  u ∈ nodes (build calls) ↔ u ∈ endpoints calls.
Proof.
  induction calls as [|[[from to] w] calls IH] using rev_ind.
  - unfold endpoints. simpl. set_solver.
  - rewrite build_snoc, nodes_AddEdge, endpoints_snoc.
    pose proof (wf_nodes _ (wf_build calls)) as Hok.
    assert (Hreg : ∀ n g, nodes_ok g → ∀ x,
              x ∈ nodes (register n g) ↔ x = n ∨ x ∈ nodes g).
    { intros n g Hg x. split; [apply nodes_register_inv|].
      intros [->|?]; [by apply nodes_register|by apply nodes_register_mono]. }
    rewrite Hreg by (by apply nodes_ok_register). rewrite (Hreg _ _ Hok), IH.
    rewrite elem_of_union, elem_of_union, !elem_of_singleton.
    destruct (Z.max_spec from to) as [[? ->]|[? ->]],
      (Z.min_spec from to) as [[? ->]|[? ->]]; intuition lia.
Qed.

(** [NodeCount] is the number of distinct endpoints of the calls. *)
Lemma NodeCount_endpoints (calls : list (Z * Z * W)) :
  NodeCount (build calls) = size (endpoints calls).
Proof.
  unfold NodeCount.
  destruct (wf_nodes _ (wf_build calls)) as [Hnd _].
  rewrite <- (size_list_to_set (C := gset Z)) by done. f_equal.
  apply set_eq. intros u. rewrite elem_of_list_to_set. apply nodes_build_endpoints.
Qed.

(** *** [EdgeCount] *)

Lemma EdgeCount_store a (m m' : gmap Z W) g :
  edges g !! a = Some m →
  (EdgeCount {| edges := <[a := m']> (edges g); nodes := nodes g |} + size m
   = EdgeCount g + size m')%nat.
Proof.
  intros Ha. unfold EdgeCount. simpl.
  rewrite (map_fold_delete_L _ _ a m (edges g)); [|intros; lia|done].
  rewrite <- (insert_delete_eq (edges g)).
  rewrite map_fold_insert_L; [lia|intros; lia|by rewrite lookup_delete_eq].
Qed.

Lemma EdgeCount_register n g : EdgeCount (register n g) = EdgeCount g.
Proof.
  unfold register. destruct (edges g !! n) eqn:E; [done|].
  unfold EdgeCount. simpl. rewrite map_fold_insert_L; [|intros; lia|done].
  rewrite map_size_empty. lia.
Qed.

Lemma EdgeCount_setWeight a b w g :
  is_Some (edges g !! a) →
  EdgeCount (setWeight a b w g) =
    (EdgeCount g + if edge g a b is Some _ then 0 else 1)%nat.
Proof.
  intros [m Hm]. unfold setWeight.
  pose proof (EdgeCount_store a m (<[b := w]> (default ∅ (edges g !! a))) g Hm) as H.
  unfold edge, neighbors. rewrite Hm in H |- *. simpl in *.
  rewrite map_size_insert in H. destruct (m !! b); simpl in *; lia.
Qed.

(** A call of [AddEdge] that stores a new edge adds 2 to [EdgeCount], or
    1 when the edge is a self-loop; a call that overwrites adds nothing. *)
Lemma EdgeCount_AddEdge from to w g :
  (∀ u v, edge g u v = edge g v u) →
  EdgeCount (AddEdge from to w g) =
    (EdgeCount g +
     if edge g from to is Some _ then 0 else if decide (from = to) then 1 else 2)%nat.
Proof.
  intros Hsym. unfold AddEdge.
  set (f := Z.max from to). set (t := Z.min from to).
  set (g0 := register t (register f g)).
  assert (Hf : is_Some (edges g0 !! f)).
  { unfold g0. rewrite !edges_register. repeat destruct (decide _); by eauto. }
  assert (Ht : is_Some (edges g0 !! t)).
  { unfold g0. rewrite !edges_register. by destruct (decide _). }
  rewrite EdgeCount_setWeight
    by (rewrite edges_setWeight; destruct (decide _); [by eauto|done]).
  rewrite EdgeCount_setWeight by done.
  rewrite edge_setWeight. unfold g0. rewrite !edge_register, !EdgeCount_register.
  assert (Hft : edge g f t = edge g from to).
  { unfold f, t. destruct (Z.max_spec from to) as [[? ->]|[? ->]];
      destruct (Z.min_spec from to) as [[? ->]|[? ->]];
      first [lia|done|by rewrite Hsym|by replace from with to by lia]. }
  rewrite (Hsym t f), Hft.
  destruct (decide (t = f ∧ f = t)) as [[_ Heq]|Hne].
  - destruct (decide (from = to)); [|unfold f, t in *; lia].
    destruct (edge g from to); lia.
  - destruct (decide (from = to)) as [->|]; [unfold f, t in *; destruct Hne; lia|].
    destruct (edge g from to); lia.
Qed.

Lemma directed_snoc (calls : list (Z * Z * W)) from to w :
  directed (calls ++ [(from, to, w)]) = directed calls ∪ {[(from, to); (to, from)]}.
Proof.
  unfold directed. rewrite bind_app, list_to_set_app_L. simpl. set_solver.
Qed.

Lemma directed_sym (calls : list (Z * Z * W)) u v :
  (u, v) ∈ directed calls → (v, u) ∈ directed calls.
Proof.
  unfold directed. rewrite !elem_of_list_to_set, !list_elem_of_bind.
  intros ([[from to] w] & Hin & Hc). exists (from, to, w). split; [|done].
  simpl in *. set_solver.
Qed.

(** The stored edges are the pairs named by the calls, in both directions. *)
Lemma edge_build_directed (calls : list (Z * Z * W)) u v :
  is_Some (edge (build calls) u v) ↔ (u, v) ∈ directed calls.
Proof.
  induction calls as [|[[from to] w] calls IH] using rev_ind.
  - unfold directed. simpl. split; [by intros [??]|set_solver].
  - rewrite build_snoc, edge_AddEdge, directed_snoc, elem_of_union, <- IH.
    rewrite elem_of_union, !elem_of_singleton.
    destruct (decide _) as [Hd|Hd].
    + split; [intros _; right|by eauto].
      destruct (Z.max_spec from to) as [[? Hmax]|[? Hmax]],
        (Z.min_spec from to) as [[? Hmin]|[? Hmin]];
        rewrite Hmax, Hmin in Hd; intuition (subst; first [by left|by right|lia|
          (left; f_equal; lia)|(right; f_equal; lia)]).
    + split; [by left|]. intros [?|Hor]; [done|]. destruct Hd.
      destruct (Z.max_spec from to) as [[? ->]|[? ->]],
        (Z.min_spec from to) as [[? ->]|[? ->]];
        destruct Hor as [[= -> ->]|[= -> ->]]; intuition lia.
Qed.

Lemma EdgeCount_directed (calls : list (Z * Z * W)) :
  EdgeCount (build calls) = size (directed calls).
Proof.
  induction calls as [|[[from to] w] calls IH] using rev_ind; [done|].
  rewrite build_snoc, EdgeCount_AddEdge by apply wf_sym, wf_build.
  rewrite directed_snoc, IH.
  pose proof (edge_build_directed calls from to) as Hft.
  destruct (edge (build calls) from to) as [x|].
  - assert (H1 : (from, to) ∈ directed calls) by (apply Hft; eauto).
    pose proof (directed_sym _ _ _ H1).
    replace (directed calls ∪ {[(from, to); (to, from)]}) with (directed calls)
      by set_solver. lia.
  - assert (H1 : (from, to) ∉ directed calls) by (intros []%Hft; done).
    assert (H2 : (to, from) ∉ directed calls) by (by intros ?%directed_sym).
    rewrite size_union by set_solver.
    destruct (decide (from = to)) as [->|Hne].
    + replace ({[(to, to); (to, to)]} : gset (Z * Z)) with ({[(to, to)]} : gset (Z * Z))
        by set_solver. by rewrite size_singleton.
    + rewrite size_union by set_solver. by rewrite !size_singleton.
Qed.

(** X1: reading an edge back after [AddEdge(from, to, w)]: the pair just
    written, in either direction, holds [w]; every other pair holds what
    it held before. *)
Theorem AddEdge_lookup from to w g u v :
  edge (AddEdge from to w g) u v =
    if decide ((u = from ∧ v = to) ∨ (u = to ∧ v = from))
    then Some w else edge g u v.
Proof.
  rewrite edge_AddEdge.
  destruct (Z.max_spec from to) as [[? ->]|[? ->]],
    (Z.min_spec from to) as [[? ->]|[? ->]];
    repeat destruct (decide _); try done; exfalso; intuition lia.
Qed.

(** X2: the order in which a call names the two endpoints makes no
    difference to the graph, and a second call on the same pair leaves
    the graph that the second call alone would have built: the weight
    written last wins and the node list does not grow. *)
Theorem AddEdge_last_write_wins from to w1 w2 g :
  AddEdge to from w2 g = AddEdge from to w2 g ∧
  AddEdge to from w2 (AddEdge from to w1 g) = AddEdge from to w2 g.
Proof.
  split; [apply AddEdge_endpoints_swap|].
  by rewrite AddEdge_endpoints_swap, AddEdge_overwrite.
Qed.

(** X3: [NodeCount] of a graph built by calls of [AddEdge] is the number
    of distinct identifiers that occur as an endpoint of a call. *)
Theorem NodeCount_counts_distinct_endpoints (calls : list (Z * Z * W)) :
  NodeCount (build calls) = size (endpoints calls).
Proof. apply NodeCount_endpoints. Qed.

(** X4: [EdgeCount] of a graph built by calls of [AddEdge] counts ordered
    pairs: every edge between two different nodes counts twice, a
    self-loop once, and a repeated call not at all. *)
Theorem EdgeCount_counts_ordered_pairs (calls : list (Z * Z * W)) :
  EdgeCount (build calls) = size (directed calls).
Proof. apply EdgeCount_directed. Qed.
End GraphMore.


(** ** solve.go: [reverse] and [twoOpt] *)

Lemma reverse_split (p : list Z) i j :
  (i ≤ j < length p)%nat →
  ∃ A M B, p = A ++ M ++ B ∧ length A = i ∧ length M = S (j - i) ∧
           A = take i p ∧ M = take (S (j - i)) (drop i p) ∧ B = drop (S j) p.
Proof.
  intros Hij. exists (take i p), (take (S (j - i)) (drop i p)), (drop (S j) p).
  split_and!; try done.
  - rewrite <- (take_drop i p) at 1. f_equal.
    rewrite <- (take_drop (S (j - i)) (drop i p)) at 1. f_equal.
    rewrite drop_drop. f_equal. lia.
  - rewrite length_take. lia.
  - rewrite length_take, length_drop. lia.
Qed.

Lemma reverse_idle (p : list Z) i j : (j ≤ i)%nat → reverse p i j = p.
Proof. intros Hji. unfold reverse. by replace (j - i)%nat with 0%nat by lia. Qed.

(** X5: [reverse(path, i, j)] with [i <= j] inside the slice leaves the
    positions before [i] and after [j] as they are and puts the segment
    from [i] to [j] in reverse order. *)
Theorem reverse_segment (p : list Z) i j :
  (i ≤ j < length p)%nat →
  reverse p i j = take i p ++ rev (take (S (j - i)) (drop i p)) ++ drop (S j) p.
Proof.
  intros Hij. destruct (reverse_split p i j Hij) as (A & M & B & Hp & HA & HM & EA & EM & EB).
  rewrite <- EA, <- EM, <- EB. rewrite Hp at 1.
  replace i with (length A) at 1 by done.
  replace j with (length A + length M - 1)%nat at 1 by lia.
  apply reverse_app.
Qed.

Lemma reverse_segment_witness :
  reverse [10; 11; 12; 13; 14] 1 3 = [10; 13; 12; 11; 14].
Proof. apply (reverse_segment [10; 11; 12; 13; 14] 1 3). simpl. lia. Defined.

(** X6: reversing the same segment twice gives the slice back. *)
Theorem reverse_involutive (p : list Z) i j :
  (j < length p)%nat → reverse (reverse p i j) i j = p.
Proof.
  intros Hj. destruct (decide (i ≤ j)%nat) as [Hij|Hji].
  - destruct (reverse_split p i j ltac:(lia)) as (A & M & B & Hp & HA & HM & _).
    rewrite Hp.
    replace i with (length A) by done.
    replace j with (length A + length M - 1)%nat by lia.
    rewrite reverse_app.
    replace (length M) with (length (rev M)) by apply length_rev.
    by rewrite reverse_app, rev_involutive.
  - rewrite !reverse_idle by lia. done.
Qed.

Lemma reverse_involutive_witness :
  reverse (reverse [10; 11; 12; 13; 14] 1 3) 1 3 = [10; 11; 12; 13; 14].
Proof. apply (reverse_involutive [10; 11; 12; 13; 14] 1 3). simpl. lia. Defined.

Section LocalSearchMore.
Context {W : Type} `{Wt : Weight W}.
Implicit Types (g : Graph W) (st : search W).

(** A move never touches the position 0 of the tour. *)
Lemma tryMove_head g i j st :
  (i + 2 ≤ j < length (tour st))%nat →
  head (tour (tryMove g (length (tour st)) i j st)) = head (tour st).
Proof.
  intros Hij. destruct (tryMove_cases g i j st) as [[-> _]|(d & _ & _ & _ & ->)];
    [done|]. simpl.
  rewrite reverse_segment by lia.
  destruct (tour st) as [|x t]; [simpl in *; lia|].
  by replace (i + 1)%nat with (S i) by lia.
Qed.

Lemma twoOptRun_head g path cost polls :
  head (tour (twoOptRun path cost g polls).1.1) = head path.
Proof.
  apply (twoOptRun_invariant g
           (λ st, length (tour st) = length path ∧ head (tour st) = head path)
           path cost polls); [by intros st [? _]|done| |done].
  intros i j st Hij [Hlen Hhd]. split.
  - destruct (tryMove_cases g i j st) as [[-> _]|(d & _ & _ & _ & ->)]; [done|].
    simpl. by rewrite reverse_length.
  - by rewrite tryMove_head.
Qed.

(** Where no pair of positions offers a gain, a move changes nothing. *)
Lemma stable_tryMove g i j st :
  stable g (tour st) i j → tryMove g (length (tour st)) i j st = st.
Proof.
  unfold stable, tryMove, weightOf. intros Hst.
  destruct (_ && _); [done|].
  destruct (edge g (idx (tour st) i) (idx (tour st) j)) as [a|] eqn:Ea; [|done].
  destruct (edge g (idx (tour st) _) (idx (tour st) ((j + 1) `mod` _))) as [b|] eqn:Eb;
    [|done].
  simpl in Hst. destruct Hst as [?|[?|Hlt]]; [done..|]. by rewrite Hlt.
Qed.

Lemma sweep_stable g st :
  (∀ i j, (i + 2 ≤ j < length (tour st))%nat →
          ¬ (i = 0 ∧ j = length (tour st) - 1)%nat → stable g (tour st) i j) →
  sweep g (length (tour st)) st = reset st.
Proof.
  intros Hst. unfold sweep.
  apply (foldl_invariant (λ s, s = reset st)); [done|].
  intros s i _ ->. unfold scanRow.
  apply (foldl_invariant (λ s, s = reset st)); [done|].
  intros s j Hj%elem_of_seq ->.
  destruct (decide (i = 0 ∧ j = length (tour st) - 1)%nat) as [[-> ->]|Hskip].
  - unfold tryMove. simpl. by rewrite Nat.eqb_refl.
  - apply (stable_tryMove g i j (reset st)). simpl. apply Hst; [lia|done].
Qed.

(** X7: refinement is idempotent: when [twoOpt] has run to convergence,
    running it again on its result, with the context still open, returns
    that tour and that cost unchanged. *)
Theorem twoOpt_idempotent g path cost polls st polls' again :
  twoOptRun path cost g polls = (st, polls', Converged) →
  (0 < again)%nat →
  twoOpt (tour st) (currentCost st) g again = (tour st, currentCost st).
Proof.
  intros Hrun Hagain. unfold twoOptRun in Hrun.
  pose proof (sweeps_Converged g polls _ st polls' Hrun) as Hst.
  destruct again as [|again]; [lia|].
  unfold twoOpt, twoOptRun. cbn [sweeps].
  set (st0 := {| tour := tour st; currentCost := currentCost st;
                 improved := true; trail := [] |}).
  change (length (tour st)) with (length (tour st0)).
  rewrite (sweep_stable g st0) by done. done.
Qed.

(** X8: a tour of three nodes or fewer has no pair of positions that
    [twoOpt] would exchange: it is returned as it was given, with the
    cost it was given. *)
Theorem twoOpt_short_tour g path cost polls :
  (length path ≤ 3)%nat → twoOpt path cost g polls = (path, cost).
Proof.
  intros Hlen. unfold twoOpt, twoOptRun.
  destruct polls as [|polls]; [done|]. cbn [sweeps].
  set (st0 := {| tour := path; currentCost := cost; improved := true; trail := [] |}).
  assert (Hsw : sweep g (length path) st0 = reset st0).
  { destruct path as [|a [|b [|c [|d path]]]]; simpl in Hlen; try lia; done. }
  by rewrite Hsw.
Qed.
End LocalSearchMore.

Lemma twoOpt_idempotent_witness :
  ∃ st polls', twoOptRun [0; 2; 1; 3] 4828427124 squareNano 5 = (st, polls', Converged) ∧
    twoOpt (tour st) (currentCost st) squareNano 1 = (tour st, currentCost st).
Proof.
  eexists _, _. split; [vm_compute; reflexivity|].
  eapply (twoOpt_idempotent (Wt := nano) squareNano [0; 2; 1; 3] 4828427124 5 _ _ 1).
  - vm_compute. reflexivity.
  - lia.
Defined.

Lemma twoOpt_short_tour_witness :
  twoOpt [0; 1; 2] 3%float square 5 = ([0; 1; 2], 3%float).
Proof. apply (twoOpt_short_tour (Wt := float64) square [0; 1; 2] 3%float 5). simpl. lia. Defined.


(** ** solve.go: the tours are made of stored edges *)

Section TourFacts.
Context {W : Type}.
Implicit Types (g : Graph W) (p : list Z).

Lemma linked_app g (A B : list Z) x :
  linked g (A ++ x :: B) = linked g (A ++ [x]) && linked g (x :: B).
Proof.
  induction A as [|a [|a' A] IH]; simpl in *.
  - done.
  - destruct B; simpl; by rewrite ?andb_true_r.
  - by rewrite IH, andb_assoc.
Qed.

Lemma linked_cons2 g u v (r : list Z) :
  linked g (u :: v :: r) = bool_decide (is_Some (edge g u v)) && linked g (v :: r).
Proof. done. Qed.

Lemma linked_snoc g (A : list Z) x y :
  linked g (A ++ [x; y]) = linked g (A ++ [x]) && bool_decide (is_Some (edge g x y)).
Proof. rewrite linked_app. simpl. by rewrite andb_true_r. Qed.

Lemma linked_rev g p :
  (∀ u v, edge g u v = edge g v u) → linked g (rev p) = linked g p.
Proof.
  intros Hsym. induction p as [|u [|v p] IH]; [done..|].
  change (rev (u :: v :: p)) with ((rev p ++ [v]) ++ [u]).
  rewrite <- app_assoc. simpl app. rewrite linked_snoc.
  change (rev p ++ [v]) with (rev (v :: p)). rewrite IH.
  change (linked g (u :: v :: p))
    with (bool_decide (is_Some (edge g u v)) && linked g (v :: p)).
  by rewrite (Hsym v u), andb_comm.
Qed.

Lemma closedTour_idx g p : p ≠ [] → closedTour g p = linked g (p ++ [idx p 0]).
Proof. by destruct p. Qed.

(** The 2-opt move at the edges [(u1, v1)] and [(u2, v2)] keeps a tour
    closed when the two edges it brings in are stored. *)
Lemma closedTour_move g (A M B : list Z) u1 v1 u2 :
  (∀ u v, edge g u v = edge g v u) →
  let p := A ++ u1 :: v1 :: M ++ u2 :: B in
  let p' := A ++ u1 :: u2 :: rev M ++ v1 :: B in
  let v2 := idx (B ++ [idx p 0]) 0 in
  is_Some (edge g u1 u2) → is_Some (edge g v1 v2) →
  closedTour g p = true → closedTour g p' = true.
Proof.
  intros Hsym p p' v2 H12 Hv.
  assert (Hfirst : idx p' 0 = idx p 0) by (unfold p, p'; by destruct A).
  rewrite !closedTour_idx by (unfold p, p'; by destruct A).
  rewrite Hfirst. set (f := idx p 0) in *.
  unfold p, p'. rewrite <- !app_assoc. simpl. rewrite <- !app_assoc. simpl.
  assert (HC : ∃ C, B ++ [f] = v2 :: C).
  { unfold v2. destruct B; simpl; eauto. }
  destruct HC as [C HC]. rewrite HC.
  rewrite (linked_app g A (v1 :: M ++ u2 :: v2 :: C) u1),
    (linked_app g A (u2 :: rev M ++ v1 :: v2 :: C) u1).
  rewrite (linked_cons2 g u1 v1), (linked_cons2 g u1 u2).
  rewrite (linked_app g (v1 :: M) (v2 :: C) u2 : linked g (v1 :: M ++ u2 :: _) = _).
  rewrite (linked_app g (u2 :: rev M) (v2 :: C) v1 : linked g (u2 :: rev M ++ v1 :: _) = _).
  rewrite (linked_cons2 g u2 v2), (linked_cons2 g v1 v2).
  replace ((u2 :: rev M) ++ [v1]) with (rev ((v1 :: M) ++ [u2])).
  2:{ simpl. by rewrite rev_app_distr. }
  rewrite linked_rev by done.
  rewrite !andb_true_iff, !bool_decide_eq_true. tauto.
Qed.
End TourFacts.

Section TourInvariants.
Context {W : Type} `{Wt : Weight W}.
Implicit Types (g : Graph W) (st : search W).

Lemma tryMove_closedTour g i j st :
  (∀ u v, edge g u v = edge g v u) →
  (i + 2 ≤ j < length (tour st))%nat →
  closedTour g (tour st) = true →
  closedTour g (tour (tryMove g (length (tour st)) i j st)) = true.
Proof.
  intros Hsym Hij Hst.
  destruct (tryMove_cases g i j st) as [[-> _]|(d & Hd & _ & _ & ->)]; [done|].
  simpl. destruct (split_move (tour st) i j Hij)
    as (A & u1 & v1 & M & u2 & B & Hp & <- & ->).
  rewrite Hp in Hd, Hst |- *. unfold moveDelta in Hd.
  rewrite move_u1, move_v1, move_u2, move_v2 in Hd.
  rewrite move_reverse.
  destruct (edge g u1 u2) as [a|] eqn:Ea; [|done].
  destruct (edge g v1 _) as [b|] eqn:Eb; [|done].
  apply closedTour_move; rewrite ?Ea, ?Eb; by eauto.
Qed.

Lemma twoOptRun_closedTour g path cost polls :
  (∀ u v, edge g u v = edge g v u) →
  closedTour g path = true →
  closedTour g (tour (twoOptRun path cost g polls).1.1) = true.
Proof.
  intros Hsym Hpath.
  apply (twoOptRun_invariant g
           (λ st, length (tour st) = length path ∧ closedTour g (tour st) = true)
           path cost polls); [by intros st [? _]|done| |done].
  intros i j st Hij [Hlen Hc]. split.
  - rewrite <- Hlen. apply Permutation_length, tryMove_Permutation. done.
  - by apply tryMove_closedTour.
Qed.

Lemma walkLoop_linked todo g (st : walk W) rng mo (st' : walk W) rng' mo' :
  last (path st) = Some (current st) → linked g (path st) = true →
  walkLoop todo g st rng mo = (Some st', rng', mo') →
  last (path st') = Some (current st') ∧ linked g (path st') = true ∧
  ∃ rest, path st' = path st ++ rest.
Proof.
  revert st rng mo. induction todo as [|todo IH]; intros st rng mo Hl Hc Hrun.
  - simpl in Hrun. injection Hrun as <- _ _. split_and!; [done..|].
    exists []. by rewrite app_nil_r.
  - apply walkLoop_step in Hrun as (choice & rng1 & mo1 & [_ He] & Hrun).
    apply IH in Hrun as (Hl' & Hc' & rest & Hrest).
    + split_and!; [done..|]. exists (node choice :: rest).
      rewrite Hrest. simpl. by rewrite <- app_assoc.
    + simpl. by rewrite last_snoc.
    + simpl. apply last_Some in Hl as [l Hl]. rewrite Hl, <- app_assoc. simpl.
      rewrite linked_snoc, <- Hl, Hc, He. done.
Qed.

Lemma randomizedNearestNeighbor_closedTour startNode numNodes g rng mo p c rng' mo' :
  randomizedNearestNeighbor startNode numNodes g rng mo = (Some (p, c), rng', mo') →
  closedTour g p = true ∧ head p = Some startNode.
Proof.
  unfold randomizedNearestNeighbor.
  destruct (walkLoop _ _ _ _ _) as [[[st|] rng1] mo1] eqn:Hrun; [|done].
  apply walkLoop_linked in Hrun as (Hl & Hc & rest & Hrest); [|done..].
  destruct (edge g _ _) as [w|] eqn:Ew; [|done]. intros [= <- <- <- <-].
  simpl in Hrest. split; [|by rewrite Hrest].
  apply last_Some in Hl as Hp. destruct Hp as [l Hp].
  rewrite closedTour_idx by (rewrite Hp; by destruct l).
  assert (Hlast : idx (path st) (length (path st) - 1) = current st).
  { apply idx_lookup. rewrite <- Hl, last_lookup. f_equal. lia. }
  rewrite Hlast in Ew.
  rewrite Hp at 1. rewrite <- app_assoc. simpl.
  rewrite linked_snoc, <- Hp, Hc, Ew. done.
Qed.

(** X9: a construction that succeeds returns a closed tour of the graph
    that starts at the start node: every step of it, and the step from
    its last node back to its first, is a stored edge. *)
Theorem randomizedNearestNeighbor_walks_stored_edges startNode numNodes g rng mo
    p c rng' mo' :
  randomizedNearestNeighbor startNode numNodes g rng mo = (Some (p, c), rng', mo') →
  closedTour g p = true ∧ head p = Some startNode.
Proof. apply randomizedNearestNeighbor_closedTour. Qed.

(** X10: on a graph that stores every edge in both directions, [twoOpt]
    turns closed tours into closed tours, whenever it is cancelled or
    converges, and it leaves the first node of the tour in its place. *)
Theorem twoOpt_keeps_tour_closed g path cost polls :
  (∀ u v, edge g u v = edge g v u) →
  closedTour g path = true →
  closedTour g (twoOpt path cost g polls).1 = true ∧
  head (twoOpt path cost g polls).1 = head path.
Proof.
  intros Hsym Hpath. unfold twoOpt.
  pose proof (twoOptRun_closedTour g path cost polls Hsym Hpath) as Hc.
  pose proof (twoOptRun_head g path cost polls) as Hh.
  destruct (twoOptRun path cost g polls) as [[st ?] ?]. done.
Qed.

(** X11: whatever [SolveTSP] returns on a graph built by calls of
    [AddEdge] is a closed tour of that graph: no step of the returned
    tour, the closing step included, lacks a stored edge. *)
Theorem SolveTSP_tour_uses_stored_edges (calls : list (Z * Z * W)) (env : Env)
    (maxCPU maxSeconds : Z) :
  closedTour (build calls) (SolveTSP env (build calls) maxCPU maxSeconds).1.1 = true.
Proof.
  pose proof (wf_build calls) as Hwf. set (g := build calls) in *.
  destruct (SolveTSP env g maxCPU maxSeconds) as [[p c] n] eqn:Hrun. simpl.
  destruct (decide (p = [])) as [->|Hne]; [done|].
  destruct (decide (2 ≤ NodeCount g)%nat) as [Hn|Hn].
  - apply (SolveTSP_attempt (λ pc, closedTour g pc.1 = true) env g maxCPU maxSeconds
             p c n Hn); [|done..].
    intros startNode rng mo p0 c0 rng' mo' polls Hstart Hnn. simpl.
    apply twoOptRun_closedTour; [apply Hwf|].
    by apply randomizedNearestNeighbor_closedTour in Hnn as [? _].
  - unfold SolveTSP in Hrun.
    destruct (Nat.eqb_spec (NodeCount g) 0); [by injection Hrun as <- _ _|].
    destruct (Nat.eqb_spec (NodeCount g) 1) as [H1|]; [|lia].
    injection Hrun as <- _ _. unfold NodeCount in H1.
    destruct (nodes g) as [|u [|??]] eqn:Hu; try done.
    destruct (wf_linked g Hwf u) as [v Hv]; [rewrite Hu; by left|].
    destruct (wf_closed g Hwf u v Hv) as [_ Hvn]. rewrite Hu in Hvn.
    apply list_elem_of_singleton in Hvn as ->.
    simpl. rewrite andb_true_r. by apply bool_decide_eq_true.
Qed.
End TourInvariants.

Lemma randomizedNearestNeighbor_walks_stored_edges_witness :
  closedTour square [0; 3; 2; 1] = true ∧ head [0; 3; 2; 1] = Some 0.
Proof.
  eapply (randomizedNearestNeighbor_walks_stored_edges (Wt := float64)
            0 4 square (scripted []) (ordered [])).
  vm_compute. reflexivity.
Defined.

Lemma twoOpt_keeps_tour_closed_witness :
  closedTour squareNano (twoOpt [0; 2; 1; 3] 4828427124 squareNano 5).1 = true ∧
  head (twoOpt [0; 2; 1; 3] 4828427124 squareNano 5).1 = head [0; 2; 1; 3].
Proof.
  apply (twoOpt_keeps_tour_closed (Wt := nano) squareNano [0; 2; 1; 3] 4828427124 5).
  - apply (wf_sym _ (wf_build
      [(0, 1, 1000000000); (1, 2, 1000000000); (2, 3, 1000000000);
       (3, 0, 1000000000); (0, 2, 1414213562); (1, 3, 1414213562)])).
  - vm_compute. reflexivity.
Defined.


(** ** solve.go: the choice among the nearest neighbours *)

Section TopK.
Context {W : Type} `{Wt : Weight W}.
Implicit Types (g : Graph W) (topK : list (candidate W)) (vis : gset Z)
  (entries : list (Z * W)).

Lemma unvisited_cons vis n w entries :
  unvisited vis ((n, w) :: entries) =
    if decide (n ∈ vis) then unvisited vis entries else (n, w) :: unvisited vis entries.
Proof.
  unfold unvisited. rewrite filter_cons. simpl.
  destruct (decide (n ∈ vis)), (decide (n ∉ vis)); done.
Qed.

Lemma elem_of_unvisited vis entries n w :
  (n, w) ∈ unvisited vis entries ↔ (n ∉ vis) ∧ (n, w) ∈ entries.
Proof. unfold unvisited. by rewrite list_elem_of_filter. Qed.

Lemma consider_length vis topK n w :
  length (consider vis topK (n, w)) =
    if decide (n ∈ vis) then length topK
    else if (length topK <? 3)%nat then S (length topK) else length topK.
Proof.
  unfold consider. destruct (decide (n ∈ vis)); [done|].
  destruct (length topK <? 3)%nat.
  - rewrite length_app. simpl. lia.
  - destruct (wlt _ _); by rewrite ?length_insert.
Qed.

Lemma topK_length vis topK entries :
  (length topK ≤ 3)%nat →
  length (foldl (consider vis) topK entries) =
    Nat.min 3 (length topK + length (unvisited vis entries)).
Proof.
  revert topK. induction entries as [|[n w] entries IH]; intros topK Hlen; cbn [foldl].
  - change (unvisited vis []) with (@nil (Z * W)). cbn [length]. lia.
  - pose proof (consider_length vis topK n w) as Hc.
    rewrite unvisited_cons. destruct (decide (n ∈ vis)).
    + rewrite IH by lia. lia.
    + destruct (Nat.ltb_spec (length topK) 3); rewrite IH by lia; cbn [length]; lia.
Qed.

(** [worst] is an index of [topK]. *)
Lemma worst_lt topK : topK ≠ [] → (worst topK < length topK)%nat.
Proof.
  intros Hne. unfold worst.
  apply (foldl_invariant (λ m, (m < length topK)%nat)).
  - destruct topK; [done|simpl; lia].
  - intros m i Hi%elem_of_seq Hm. destruct (wlt _ _); lia.
Qed.

(** X12: the candidate list that one turn of the construction loop
    collects holds three entries, or all the unvisited neighbours when
    there are fewer than three: it is empty exactly at a dead end. *)
Theorem topK_holds_up_to_three vis entries :
  length (foldl (consider vis) [] entries) =
    Nat.min 3 (length (unvisited vis entries)).
Proof. by rewrite topK_length by (cbn [length]; lia). Qed.
End TopK.

Section TopKOrder.
Context {W : Type} `{Wt : Weight W} (comparable : W → Prop)
  {Wo : WeakOrderWeight W comparable}.
Implicit Types (topK : list (candidate W)) (vis : gset Z) (entries : list (Z * W)).

Lemma wlt_asym (a b : W) : wlt a b = true → wlt b a = false.
Proof.
  intros Hab. destruct (wlt b a) eqn:Hba; [|done].
  by rewrite <- (wlt_irrefl a), (wlt_trans a b a Hab Hba).
Qed.

(** No entry of [topK] is farther than the one at [worst topK]. *)
Lemma worst_max_upto topK n :
  (n < length topK)%nat →
  let m := foldl (λ maxDistIdx i,
                    if wlt (dist (cand topK maxDistIdx)) (dist (cand topK i))
                    then i else maxDistIdx) 0%nat (seq 1 n) in
  (m ≤ n)%nat ∧
  ∀ i, (i ≤ n)%nat → wlt (dist (cand topK m)) (dist (cand topK i)) = false.
Proof.
  induction n as [|n IH]; intros Hn; cbv zeta.
  - simpl. split; [done|]. intros i Hi. replace i with 0%nat by lia. apply wlt_irrefl.
  - rewrite seq_S, foldl_app. cbn [foldl]. change (1 + n)%nat with (S n).
    destruct IH as [Hm Hmax]; [lia|].
    set (m := foldl _ 0%nat (seq 1 n)) in *.
    destruct (wlt (dist (cand topK m)) (dist (cand topK (S n)))) eqn:Hlt.
    + split; [done|]. intros i Hi.
      destruct (decide (i = S n)) as [->|]; [apply wlt_irrefl|].
      destruct (wlt (dist (cand topK (S n))) (dist (cand topK i))) eqn:Hi'; [|done].
      rewrite <- (Hmax i ltac:(lia)). symmetry. by eapply wlt_trans.
    + split; [lia|]. intros i Hi.
      destruct (decide (i = S n)) as [->|]; [done|]. apply Hmax. lia.
Qed.

Lemma worst_max topK :
  Forall (λ c, wlt (dist (cand topK (worst topK))) (dist c) = false) topK.
Proof.
  destruct topK as [|c0 topK0] eqn:E; [constructor|]. rewrite <- E.
  assert (Hlen : (length topK - 1 < length topK)%nat) by (rewrite E; simpl; lia).
  destruct (worst_max_upto topK (length topK - 1) Hlen) as [_ Hmax].
  apply Forall_lookup. intros i c Hc.
  pose proof (lookup_lt_Some _ _ _ Hc) as Hi.
  specialize (Hmax i ltac:(lia)). unfold worst.
  replace (dist c) with (dist (cand topK i)); [done|].
  unfold cand. by rewrite Hc.
Qed.

Lemma nearest_consider vis topK seen n w :
  Forall (λ c, comparable (dist c)) topK → (n ∉ vis → comparable w) →
  nearest vis topK seen →
  nearest vis (consider vis topK (n, w)) (seen ++ [(n, w)]).
Proof.
  intros Hct Hcw [Hfew Hnear].
  assert (Hseen : ∀ n' w', (n', w') ∈ unvisited vis (seen ++ [(n, w)]) ↔
            (n', w') ∈ unvisited vis seen ∨ ((n' ∉ vis) ∧ n' = n ∧ w' = w)).
  { intros n' w'. rewrite !elem_of_unvisited, elem_of_app, list_elem_of_singleton.
    split; [intros [? [?|[= -> ->]]]; by eauto|].
    intros [[? ?]|(? & -> & ->)]; by eauto. }
  unfold consider. destruct (decide (n ∈ vis)) as [Hv|Hv].
  { split.
    - intros Hlen n' w' [?|(? & -> & _)]%Hseen; [by apply Hfew|done].
    - intros n' w' [?|(? & -> & _)]%Hseen; [by apply Hnear|done]. }
  destruct (Nat.ltb_spec (length topK) 3) as [Hlt|Hge].
  { assert (Hall : ∀ n' w', (n', w') ∈ unvisited vis (seen ++ [(n, w)]) →
              mkCandidate n' w' ∈ topK ++ [mkCandidate n w]).
    { intros n' w' [?|(_ & -> & ->)]%Hseen; apply elem_of_app;
        [left; by apply Hfew|right; by left]. }
    split; [by intros _|]. intros n' w' ?. left. by apply Hall. }
  pose proof (worst_max topK) as Hmax.
  assert (Hne : topK ≠ []) by (intros ->; simpl in Hge; lia).
  pose proof (worst_lt topK Hne) as Hw.
  set (M := dist (cand topK (worst topK))) in *.
  destruct (wlt w M) eqn:HwM.
  - split; [rewrite length_insert; lia|].
    assert (Hnew : ∀ c, c ∈ <[worst topK := mkCandidate n w]> topK →
              c = mkCandidate n w ∨ c ∈ topK).
    { intros c [i Hc]%list_elem_of_lookup_1.
      apply list_lookup_insert_Some in Hc as [(_ & <- & _)|[_ Hc]]; [by left|].
      right. by eapply list_elem_of_lookup_2. }
    intros n' w' [Hold|(_ & -> & ->)]%Hseen.
    + destruct (Hnear _ _ Hold) as [Hin|Hfar].
      * apply list_elem_of_lookup_1 in Hin as [i Hi].
        destruct (decide (i = worst topK)) as [->|Hiw].
        -- right. assert (HM : w' = M).
           { unfold M, cand. by rewrite Hi. }
           rewrite HM. apply Forall_forall. intros c [->|Hc]%Hnew.
           ++ simpl. by apply wlt_asym.
           ++ by apply (proj1 (Forall_forall _ _) Hmax).
        -- left. apply (list_elem_of_lookup_2 _ i).
           by rewrite list_lookup_insert_ne.
      * right. apply Forall_forall. intros c [->|Hc]%Hnew.
        -- simpl. destruct (wlt w' w) eqn:Hw'w; [|done].
           assert (HcM : cand topK (worst topK) ∈ topK) by by apply cand_elem_of.
           rewrite <- (proj1 (Forall_forall _ _) Hfar _ HcM). symmetry.
           by apply (wlt_trans w' w M).
        -- by apply (proj1 (Forall_forall _ _) Hfar).
    + left. apply (list_elem_of_lookup_2 _ (worst topK)).
      by rewrite list_lookup_insert_eq.
  - split; [lia|]. intros n' w' [Hold|(_ & -> & ->)]%Hseen; [by apply Hnear|].
    right. apply Forall_forall. intros c Hc.
    apply (wlt_negtrans w M (dist c)); [by apply Hcw| | |done|].
    + apply (proj1 (Forall_forall _ _) Hct). by apply cand_elem_of.
    + by apply (proj1 (Forall_forall _ _) Hct).
    + by apply (proj1 (Forall_forall _ _) Hmax).
Qed.

Lemma nearest_foldl vis topK seen entries :
  Forall (λ c, comparable (dist c)) topK →
  Forall (λ nw, nw.1 ∉ vis → comparable nw.2) entries →
  nearest vis topK seen →
  nearest vis (foldl (consider vis) topK entries) (seen ++ entries).
Proof.
  intros Hct Hce. revert topK seen Hct.
  induction Hce as [|[n w] entries Hnw _ IH]; intros topK seen Hct Hn; simpl.
  - by rewrite app_nil_r.
  - rewrite (cons_middle _ seen entries), app_assoc.
    apply IH; [by apply consider_Forall|by apply nearest_consider].
Qed.

(** X13: the candidates kept are the nearest, when the weights of the
    unvisited entries can be compared (no NaN among them): every
    candidate is an unvisited entry of the walk over the neighbours, with
    its weight, and every unvisited entry that is not among the
    candidates is at least as far as each of them. *)
Theorem topK_keeps_nearest vis entries :
  Forall (λ nw, comparable nw.2) (unvisited vis entries) →
  let topK := foldl (consider vis) [] entries in
  Forall (λ c, (node c, dist c) ∈ unvisited vis entries) topK ∧
  Forall (λ nw, mkCandidate nw.1 nw.2 ∈ topK ∨
                Forall (λ c, wlt nw.2 (dist c) = false) topK)
         (unvisited vis entries).
Proof.
  intros Hcmp topK. split.
  - unfold topK.
    assert (Hgen : ∀ seen topK0,
      Forall (λ c : candidate W, (node c, dist c) ∈ unvisited vis (seen ++ entries)) topK0 →
      Forall (λ c : candidate W, (node c, dist c) ∈ unvisited vis (seen ++ entries))
             (foldl (consider vis) topK0 entries)).
    { clear. induction entries as [|[n w] entries IH]; intros seen topK0 H0; [done|].
      simpl. rewrite (cons_middle _ seen entries), app_assoc in H0 |- *.
      apply IH. apply consider_Forall; [done|]. intros Hn. simpl.
      apply elem_of_unvisited. split; [done|].
      rewrite !elem_of_app, list_elem_of_singleton. by eauto. }
    apply (Hgen [] []). constructor.
  - apply Forall_forall. intros [n w] Hnw. simpl.
    assert (H0 : nearest vis [] []).
    { split; intros; by match goal with H : _ ∈ unvisited _ [] |- _ =>
        apply elem_of_nil in H end. }
    assert (Hce : Forall (λ nw, nw.1 ∉ vis → comparable nw.2) entries).
    { apply Forall_forall. intros [n' w'] Hin Hv. simpl in *.
      apply (proj1 (Forall_forall _ _) Hcmp (n', w')).
      by apply elem_of_unvisited. }
    by apply (proj2 (nearest_foldl vis [] [] entries ltac:(constructor) Hce H0)).
Qed.
End TopKOrder.

Lemma topK_keeps_nearest_witness :
  Forall (λ c : candidate float,
            (node c, dist c) ∈
              [(2, 10%float); (3, infinity); (4, 30%float); (5, 20%float)])
         [mkCandidate 2 10%float; mkCandidate 5 20%float; mkCandidate 4 30%float] ∧
  Forall (λ nw : Z * float,
            mkCandidate nw.1 nw.2 ∈
              [mkCandidate 2 10%float; mkCandidate 5 20%float; mkCandidate 4 30%float] ∨
            Forall (λ c : candidate float, (nw.2 <? dist c)%float = false)
                   [mkCandidate 2 10%float; mkCandidate 5 20%float;
                    mkCandidate 4 30%float])
         [(2, 10%float); (3, infinity); (4, 30%float); (5, 20%float)].
Proof.
  pose proof (topK_keeps_nearest (Wt := float64) notNaN (Wo := float64_weak) {[1]}
           [(1, 5%float); (2, 10%float); (3, infinity); (4, 30%float); (5, 20%float)])
    as Hw.
  vm_compute in Hw. exact (Hw ltac:(repeat constructor)).
Defined.

(** With a NaN among the candidates the nearest are not kept: nothing is
    below NaN, so NaN is never the entry replaced, and nothing replaces
    the others while NaN is taken for the farthest. *)
Example topK_with_NaN :
  foldl (consider (W := float) ∅) []
        [(1, nan); (2, 1%float); (3, 2%float); (4, 0.5%float)] =
    [mkCandidate 1 nan; mkCandidate 2 1%float; mkCandidate 3 2%float].
Proof. vm_compute. reflexivity. Qed.


(** ** solve.go: the construction on a complete graph *)

Lemma fresh_node (all path : list Z) :
  NoDup all → (length path < length all)%nat → ∃ x, x ∈ all ∧ x ∉ path.
Proof.
  intros Hnd Hlen.
  destruct (decide (Forall (λ x, x ∈ path) all)) as [Hall|Hex].
  - assert (Hsub : all ⊆+ path).
    { apply NoDup_submseteq; [done|]. by apply Forall_forall. }
    apply submseteq_length in Hsub. lia.
  - apply not_Forall_Exists in Hex; [|apply _].
    apply Exists_exists in Hex as (x & Hx & Hnx). by exists x.
Qed.

Section CompleteGraph.
Context {W : Type} `{Wt : Weight W}.
Implicit Types (g : Graph W) (st : walk W).

(** The loop goes on whenever the current node has an unvisited
    neighbour. *)
Lemma walkLoop_open todo g st rng mo n w :
  edge g (current st) n = Some w → n ∉ visited st →
  ∃ choice rng1 mo1,
    offered g (current st) (visited st) choice ∧
    walkLoop (S todo) g st rng mo = walkLoop todo g (extend st choice) rng1 mo1.
Proof.
  intros He Hn. cbn [walkLoop].
  pose proof (topK_offered g (current st) (visited st) mo) as Hoff.
  pose proof (proj2 (elem_of_rangeMap mo (neighbors g (current st)) n w) He) as Hin.
  destruct (rangeMap mo (neighbors g (current st))) as [entries mo1].
  cbn [fst] in Hoff, Hin.
  pose proof (topK_length (visited st) [] entries ltac:(simpl; lia)) as Hlen.
  assert (Hun : (0 < length (unvisited (visited st) entries))%nat).
  { assert (Hnw : (n, w) ∈ unvisited (visited st) entries)
      by by apply elem_of_unvisited.
    destruct (unvisited _ _); [by apply elem_of_nil in Hnw|simpl; lia]. }
  set (topK := foldl (consider (visited st)) [] entries) in *.
  cbn [length Nat.add] in Hlen.
  destruct (Nat.eqb_spec (length topK) 0) as [|Hne]; [lia|].
  pose proof (Intn_lt rng (length topK) ltac:(lia)) as Hr.
  destruct (Intn rng (length topK)) as [r rng1]. cbn [fst] in Hr.
  exists (cand topK r), rng1, mo1. split; [|done].
  apply (proj1 (Forall_forall _ _) Hoff). by apply cand_elem_of.
Qed.

Lemma walkLoop_complete todo g st rng mo :
  wf g → complete g → walking g st →
  (length (path st) + todo ≤ NodeCount g)%nat →
  ∃ st' rng' mo', walkLoop todo g st rng mo = (Some st', rng', mo').
Proof.
  intros Hwf Hall. revert st rng mo.
  induction todo as [|todo IH]; intros st rng mo Hst Hlen; [by eexists _, _, _|].
  destruct (fresh_node (nodes g) (path st)) as (x & Hx & Hnx).
  { apply Hwf. }
  { unfold NodeCount in Hlen. lia. }
  assert (Hcur : current st ∈ path st).
  { destruct Hst as [_ _ _ Hl]. apply last_Some in Hl as [l ->].
    apply elem_of_app. right. by left. }
  destruct (Hall (current st) x) as [w He].
  { by apply Hst. }
  { done. }
  { by intros <-. }
  destruct (walkLoop_open todo g st rng mo x w He) as
    (choice & rng1 & mo1 & Hoff & ->).
  { by rewrite (wk_visited g st Hst). }
  apply IH; [by apply walking_extend|].
  simpl. rewrite length_app. simpl. lia.
Qed.

(** X14: on a graph built as [AddEdge] builds it that joins every two
    different nodes, the construction never fails: from every start node,
    whatever the draws and the order of the maps, it returns a tour. *)
Theorem randomizedNearestNeighbor_complete_graph g startNode rng mo :
  wf g → complete g → startNode ∈ nodes g →
  ∃ p c, (randomizedNearestNeighbor startNode (NodeCount g) g rng mo).1.1 = Some (p, c).
Proof.
  intros Hwf Hall Hstart. unfold randomizedNearestNeighbor.
  set (st0 := {| current := startNode; path := [startNode];
                 visited := {[startNode]}; totalCost := wzero |}).
  assert (Hst0 : walking g st0).
  { split; simpl; [apply NoDup_singleton|set_solver|set_solver|done]. }
  assert (Hpos : (0 < NodeCount g)%nat).
  { unfold NodeCount. destruct (nodes g); [by apply elem_of_nil in Hstart|simpl; lia]. }
  destruct (walkLoop_complete (NodeCount g - 1) g st0 rng mo Hwf Hall Hst0)
    as (st & rng' & mo' & Hrun); [simpl; lia|].
  rewrite Hrun.
  apply walkLoop_walking in Hrun as (Hst & Hlen & Hhd); [|done..].
  simpl in Hlen, Hhd.
  set (first := idx (path st) 0). set (lst := idx (path st) (length (path st) - 1)).
  assert (Hfirst : path st !! 0%nat = Some first).
  { unfold first, idx. destruct (path st); [done|]. done. }
  assert (Hlast : path st !! (length (path st) - 1)%nat = Some lst).
  { unfold lst, idx. destruct (lookup_lt_is_Some_2 (path st) (length (path st) - 1))
      as [y ->]; [lia|done]. }
  assert (Hedge : is_Some (edge g lst first)).
  { destruct (decide (lst = first)) as [Heq|Hne].
    - rewrite Heq in Hlast.
      pose proof (NoDup_lookup _ _ _ _ (wk_nodup g st Hst) Hfirst Hlast) as H0.
      assert (Hone : nodes g = [first]).
      { assert (Hp : path st = [first]).
        { destruct (path st) as [|a [|b l]]; simpl in *; [done|reflexivity|lia]. }
        unfold NodeCount in Hlen, Hpos. rewrite Hp in Hlen. simpl in Hlen.
        destruct (nodes g) as [|a [|b l]] eqn:Hn; simpl in Hlen, Hpos; [lia| |lia].
        f_equal. assert (Hin : first ∈ [a]).
        { rewrite <- Hn. apply Hst. rewrite Hp. by left. }
        by apply list_elem_of_singleton in Hin. }
      destruct (wf_linked g Hwf first) as [v Hv]; [rewrite Hone; by left|].
      destruct (wf_closed g Hwf first v Hv) as [_ Hvn]. rewrite Hone in Hvn.
      apply list_elem_of_singleton in Hvn as ->. by rewrite Heq.
    - apply Hall; [..|done]; apply Hst; by eapply list_elem_of_lookup_2. }
  destruct Hedge as [w ->]. by eexists _, _.
Qed.
End CompleteGraph.

Lemma k4_complete : complete k4.
Proof.
  assert (Hn : nodes k4 = [1; 0; 2; 3]) by (vm_compute; reflexivity).
  intros u v Hu Hv Hne. rewrite Hn in Hu, Hv. clear Hn.
  apply list_elem_of_In in Hu, Hv. simpl in Hu, Hv.
  destruct Hu as [<-|[<-|[<-|[<-|[]]]]], Hv as [<-|[<-|[<-|[<-|[]]]]];
    first [vm_compute; eexists; reflexivity|by destruct Hne].
Qed.

Lemma randomizedNearestNeighbor_complete_graph_witness :
  ∃ p c, (randomizedNearestNeighbor 2 (NodeCount k4) k4 (scripted [1; 2]%nat) rotated).1.1
         = Some (p, c).
Proof.
  apply (randomizedNearestNeighbor_complete_graph (Wt := float64) k4 2
           (scripted [1; 2]%nat) rotated).
  - apply (wf_build [(0, 1, 1%float); (0, 2, 1%float); (0, 3, 1%float);
                     (1, 2, 1%float); (1, 3, 1%float); (2, 3, 1%float)]).
  - apply k4_complete.
  - vm_compute. do 2 right. left.
Defined.


(** ** solve.go: what the workers bring and what [SolveTSP] keeps *)

Lemma concat_served {A} (queues : list (list A)) w a q :
  queues !! w = Some (a :: q) → concat queues ≡ₚ a :: concat (<[w := q]> queues).
Proof.
  revert w. induction queues as [|q' queues IH]; intros w Hw; [done|].
  destruct w as [|w]; simpl in *.
  - by injection Hw as ->.
  - rewrite (IH _ Hw). by rewrite Permutation_middle.
Qed.

(** The order of the mutex changes the order of the attempts, not the
    attempts. *)
Lemma serialize_Permutation {A} lockOrder (queues : list (list A)) :
  serialize lockOrder queues ≡ₚ concat queues.
Proof.
  revert queues. induction lockOrder as [|w lockOrder IH]; intros queues; simpl; [done|].
  destruct (queues !! w) as [[|a q]|] eqn:Ew; [done| |done].
  by rewrite IH, (concat_served _ _ _ _ Ew).
Qed.

Section BestOf.
Context {W : Type} `{Wt : Weight W} (comparable : W → Prop)
  {Wo : WeakOrderWeight W comparable}.
Implicit Types (g : Graph W) (b : best W).

(** The critical section keeps the least cost seen and a tour that has
    it. A cost that cannot be compared (NaN) is below nothing: it is
    never kept, and it hides no cost that is. *)
Lemma record_least b (attempts : list (list Z * W)) :
  comparable (bestCost b) →
  let b' := foldl record b attempts in
  comparable (bestCost b') ∧
  wlt (bestCost b) (bestCost b') = false ∧
  Forall (λ a, wlt a.2 (bestCost b') = false) attempts ∧
  ((bestPath b' = bestPath b ∧ bestCost b' = bestCost b) ∨
   (∃ p, bestPath b' = Some p ∧ (p, bestCost b') ∈ attempts ∧
         wlt (bestCost b') (bestCost b) = true)).
Proof.
  revert b. induction attempts as [|[p c] attempts IH]; intros b Hb; simpl.
  - split_and!; [done|apply wlt_irrefl|constructor|by left].
  - destruct (wlt c (bestCost b)) eqn:Hc.
    + destruct (wlt_comparable _ _ Hc) as [Hcc _].
      destruct (IH {| bestPath := Some p; bestCost := c;
                      totalCycles := S (totalCycles b) |} Hcc)
        as (Hcmp & Hle & Hall & Hcase).
      simpl in *. set (b' := foldl record _ attempts) in *.
      split_and!.
      * done.
      * destruct (wlt (bestCost b) (bestCost b')) eqn:Hbb; [|done].
        rewrite <- Hbb.
        apply (wlt_negtrans (bestCost b) c (bestCost b')); [done..| |done].
        by apply (wlt_asym comparable).
      * by constructor.
      * right. destruct Hcase as [[Hp Hcost]|(p' & Hp & Hin & Hlt)].
        -- exists p. rewrite Hp, Hcost. split_and!; [done|by left|done].
        -- exists p'. split_and!; [done|by right|]. by eapply wlt_trans.
    + destruct (IH {| bestPath := bestPath b; bestCost := bestCost b;
                      totalCycles := S (totalCycles b) |} Hb)
        as (Hcmp & Hle & Hall & Hcase).
      simpl in *. set (b' := foldl record _ attempts) in *.
      split_and!; [done|done| |].
      * constructor; [|done]. simpl.
        destruct (wlt c (bestCost b')) eqn:Hcb; [|done].
        destruct (wlt_comparable _ _ Hcb) as [Hcc _].
        rewrite <- Hcb.
        by apply (wlt_negtrans c (bestCost b) (bestCost b')).
      * destruct Hcase as [?|(p' & Hp & Hin & Hlt)]; [by left|].
        right. exists p'. split_and!; [done|by right|done].
Qed.

Lemma SolveTSP_best_of env g maxCPU maxSeconds p c n :
  (2 ≤ NodeCount g)%nat →
  SolveTSP env g maxCPU maxSeconds = (p, c, n) →
  let attempts := concat (queuesOf env g maxCPU maxSeconds) in
  (p = [] ∧ c = wzero ∧ Forall (λ a, wlt a.2 wmaxfloat = false) attempts) ∨
  ((p, c) ∈ attempts ∧ wlt c wmaxfloat = true ∧
   Forall (λ a, wlt a.2 c = false) attempts).
Proof.
  intros Hn. rewrite SolveTSP_unfold by done. cbv zeta.
  pose proof (serialize_Permutation (lockOrder env)
                (queuesOf env g maxCPU maxSeconds)) as Hperm.
  destruct (record_least initial
              (serialize (lockOrder env) (queuesOf env g maxCPU maxSeconds))
              comparable_max)
    as (_ & _ & Hall & Hcase).
  set (b' := foldl record initial _) in *. rewrite Hperm in Hall.
  destruct Hcase as [[Hp Hcost]|(p' & Hp & Hin & Hlt)].
  - rewrite Hp. simpl. intros [= <- <- _]. left. rewrite Hcost in Hall. done.
  - rewrite Hp. intros [= <- <- _]. right. rewrite Hperm in Hin. done.
Qed.

(** X15: what [SolveTSP] returns on a graph of two nodes or more is the
    best of what its workers brought, for a comparison of weights that
    is a total preorder on the weights that can be compared, as [<] of
    [float64] is on the values that are not NaN: either no attempt came
    in below [MaxFloat64] and the result is the empty tour with cost 0,
    or the result is the tour and the cost of one of the attempts, that
    cost is below [MaxFloat64], and no attempt of any worker has a lower
    cost. An attempt whose cost is NaN is never returned. *)
Theorem SolveTSP_returns_best_attempt env g maxCPU maxSeconds p c n :
  (2 ≤ NodeCount g)%nat →
  SolveTSP env g maxCPU maxSeconds = (p, c, n) →
  let attempts := concat (queuesOf env g maxCPU maxSeconds) in
  (p = [] ∧ c = wzero ∧ Forall (λ a, wlt a.2 wmaxfloat = false) attempts) ∨
  ((p, c) ∈ attempts ∧ wlt c wmaxfloat = true ∧
   Forall (λ a, wlt a.2 c = false) attempts).
Proof. apply SolveTSP_best_of. Qed.
End BestOf.

Section Budget.
Context {W : Type} `{Wt : Weight W}.
Implicit Types (g : Graph W).

(** X16: with a time budget whose duration in nanoseconds, computed in
    [int64], is zero or negative, the context is done before any worker
    starts an attempt: on a graph of two nodes or more [SolveTSP]
    returns the empty tour, cost 0 and 0 attempts. *)
Theorem SolveTSP_no_time env g maxCPU maxSeconds :
  (2 ≤ NodeCount g)%nat → wrap64 (maxSeconds * 1000000000) ≤ 0 →
  SolveTSP env g maxCPU maxSeconds = ([], wzero, 0%nat).
Proof.
  intros Hn Ht. rewrite SolveTSP_unfold by done.
  rewrite serialize_empty; [done|].
  unfold queuesOf. apply Forall_fmap, Forall_forall. intros i _. simpl.
  unfold worker. by destruct (Z.leb_spec (wrap64 (maxSeconds * 1000000000)) 0); [|lia].
Qed.

(** X17: the command line never asks [SolveTSP] for no worker: with the
    flag [-cpu] at its default or at any value that is not positive,
    one worker per core is started; with a positive value, that many
    workers but no more than one per core. *)
Theorem main_starts_workers env g cpuFlag maxSeconds :
  0 < numCPU env →
  length (queuesOf env g (cpuLimit env cpuFlag) maxSeconds) =
    Z.to_nat (if cpuFlag <=? 0 then numCPU env else Z.min (numCPU env) cpuFlag) ∧
  (1 ≤ length (queuesOf env g (cpuLimit env cpuFlag) maxSeconds))%nat.
Proof.
  intros Hcpu. unfold queuesOf, cpuLimit. rewrite length_fmap, length_seq.
  destruct (Z.leb_spec cpuFlag 0); split; try lia; f_equal; lia.
Qed.
End Budget.

Lemma SolveTSP_returns_best_attempt_witness :
  (([1; 2; 3; 0] : list Z) = [] ∧ 0x1.fffffffffffffp+1%float = 0%float ∧
     Forall (λ a : list Z * float, (a.2 <? 0x1.fffffffffffffp+1023)%float = false)
            (concat (queuesOf quiet square 2 1))) ∨
  (([1; 2; 3; 0], 0x1.fffffffffffffp+1%float) ∈ concat (queuesOf quiet square 2 1) ∧
   (0x1.fffffffffffffp+1 <? 0x1.fffffffffffffp+1023)%float = true ∧
   Forall (λ a : list Z * float, (a.2 <? 0x1.fffffffffffffp+1)%float = false)
          (concat (queuesOf quiet square 2 1))).
Proof.
  apply (SolveTSP_returns_best_attempt (Wt := float64) notNaN (Wo := float64_weak)
           quiet square 2 1 [1; 2; 3; 0] 0x1.fffffffffffffp+1%float 4%nat).
  - vm_compute. lia.
  - vm_compute. reflexivity.
Defined.

(** On the square with infinite diagonals every attempt of this run ends
    with the cost NaN, which is not below [MaxFloat64]: four attempts are
    counted and no tour is returned. *)
Example SolveTSP_NaN_attempts :
  SolveTSP quiet infsq 2 1 = ([], 0%float, 4%nat).
Proof. vm_compute. reflexivity. Qed.

Lemma SolveTSP_no_time_witness :
  SolveTSP quiet square 4 0 = ([], 0%float, 0%nat) ∧
  SolveTSP quiet square 4 9223372037 = ([], 0%float, 0%nat).
Proof.
  split.
  - apply (SolveTSP_no_time (Wt := float64) quiet square 4 0); vm_compute; [lia|discriminate].
  - apply (SolveTSP_no_time (Wt := float64) quiet square 4 9223372037);
      vm_compute; [lia|discriminate].
Defined.

Lemma main_starts_workers_witness :
  length (queuesOf quiet square (cpuLimit quiet (-1)) 59) = 4%nat ∧
  (1 ≤ length (queuesOf quiet square (cpuLimit quiet (-1)) 59))%nat.
Proof.
  apply (main_starts_workers (Wt := float64) quiet square (-1) 59). reflexivity.
Defined.


(** ** cmd/solver/main.go: reading the file *)

Section SplitLines.
Implicit Types (b : list Z) (lines : list (list Z)).

(** The loop over the first [k] bytes: the lines cut so far end at the
    newlines of [take k b], and [start] is where the open line begins. *)
Lemma splitLoop_spec b k :
  (k ≤ length b)%nat →
  let '(lines, start) := foldl (splitStep b) ([], 0%nat) (seq 0 k) in
  (start ≤ k)%nat ∧
  Forall (λ l, newline ∉ l) lines ∧
  (newline ∉ slice b start k) ∧
  concat ((λ l, l ++ [newline]) <$> lines) = take start b ∧
  length lines = length (filter (λ x, x = newline) (take k b)).
Proof.
  induction k as [|k IH]; intros Hk.
  - simpl. split_and!; [done|constructor|apply not_elem_of_nil|done|done].
  - rewrite seq_S, foldl_app. simpl.
    destruct (foldl (splitStep b) ([], 0%nat) (seq 0 k)) as [lines start].
    destruct IH as (Hs & Hl & Hseg & Hcat & Hn); [lia|].
    destruct (lookup_lt_is_Some_2 b k ltac:(lia)) as [c Hc].
    rewrite (take_S_r _ _ _ Hc), filter_app, length_app.
    assert (Hslice : slice b start (S k) = slice b start k ++ [c]).
    { unfold slice. replace (S k - start)%nat with (S (k - start)) by lia.
      apply take_S_r. rewrite lookup_drop, <- Hc. f_equal. lia. }
    unfold splitStep. rewrite Hc.
    destruct (decide (Some c = Some newline)) as [[= ->]|Hne].
    + split_and!.
      * lia.
      * apply Forall_app. split; [done|]. by apply Forall_singleton.
      * unfold slice. rewrite Nat.sub_diag. apply not_elem_of_nil.
      * rewrite fmap_app, concat_app, Hcat. simpl. rewrite app_nil_r, app_assoc.
        unfold slice. rewrite take_take_drop.
        replace (start + (k - start))%nat with k by lia.
        by rewrite (take_S_r _ _ _ Hc).
      * rewrite length_app, Hn. rewrite filter_cons_True by done. done.
    + split_and!; [lia|done| |done|].
      * rewrite Hslice. rewrite elem_of_app, list_elem_of_singleton.
        intros [?|?]; [done|]. destruct Hne. by f_equal.
      * rewrite filter_cons_False by (intros ->; done). simpl. lia.
Qed.

Lemma splitLines_length b :
  length (splitLines b) = S (length (filter (λ x, x = newline) b)).
Proof.
  unfold splitLines. pose proof (splitLoop_spec b (length b) (le_n _)) as Hloop.
  destruct (foldl (splitStep b) ([], 0%nat) (seq 0 (length b))) as [lines start].
  destruct Hloop as (_ & _ & _ & _ & Hn).
  rewrite length_app, Hn, take_ge by done. simpl. lia.
Qed.

(** X18: the lines that [loadGraph] cuts from the file: no line contains
    a newline, the lines joined by newlines are the file (so nothing is
    lost, empty lines and the part after the last newline included), and
    a file with [k] newlines gives [k + 1] lines, so that the first line
    always exists. *)
Theorem splitLines_spec b :
  Forall (λ l, newline ∉ l) (splitLines b) ∧
  concat ((λ l, l ++ [newline]) <$> splitLines b) = b ++ [newline] ∧
  length (splitLines b) = S (length (filter (λ x, x = newline) b)).
Proof.
  split_and!; [..|apply splitLines_length].
  - unfold splitLines. pose proof (splitLoop_spec b (length b) (le_n _)) as Hloop.
    destruct (foldl (splitStep b) ([], 0%nat) (seq 0 (length b))) as [lines start].
    destruct Hloop as (Hs & Hl & Hseg & _ & _).
    apply Forall_app. split; [done|]. apply Forall_singleton.
    unfold slice in Hseg. by rewrite take_ge in Hseg by (rewrite length_drop; lia).
  - unfold splitLines. pose proof (splitLoop_spec b (length b) (le_n _)) as Hloop.
    destruct (foldl (splitStep b) ([], 0%nat) (seq 0 (length b))) as [lines start].
    destruct Hloop as (_ & _ & _ & Hcat & _).
    rewrite fmap_app, concat_app, Hcat. simpl.
    by rewrite app_nil_r, app_assoc, take_drop.
Qed.
End SplitLines.

Section LoaderFacts.
Context {W : Type}.
Variable ParseInt : list Z → option Z.
Variable Sscanf : list Z → option (Z * Z * W).
Variable maxCap : Z.
Implicit Types (g : Graph W) (lines : list (list Z)).

Lemma loadLine_rows (h : nat → nat) lines g :
  (∀ i, (2 ≤ h i)%nat) →
  foldl (loadLine Sscanf) g (imap (λ i line, (h i, line)) lines) =
  foldl (λ g '(from, to, w), AddEdge from to w g) g (omap (edgeRow Sscanf) lines).
Proof.
  revert h g. induction lines as [|line lines IH]; intros h g Hh; [done|].
  rewrite imap_cons. cbn [foldl].
  assert (Hstep : loadLine Sscanf g (h 0%nat, line) =
            match edgeRow Sscanf line with
            | Some (from, to, w) => AddEdge from to w g
            | None => g
            end).
  { unfold loadLine, edgeRow.
    destruct (Nat.ltb_spec (h 0%nat) 2) as [Hlt|_]; [specialize (Hh 0%nat); lia|].
    destruct (decide (line = [])); [done|].
    by destruct (Sscanf line) as [[[to from] w]|]. }
  rewrite Hstep, (IH (h ∘ S)) by (intros i; apply Hh).
  change (omap (edgeRow Sscanf) (line :: lines))
    with (match edgeRow Sscanf line with
          | Some y => y :: omap (edgeRow Sscanf) lines
          | None => omap (edgeRow Sscanf) lines
          end).
  by destruct (edgeRow Sscanf line) as [[[from to] w]|].
Qed.

Lemma build_foldl (calls : list (Z * Z * W)) :
  build calls = foldl (λ g '(from, to, w), AddEdge from to w g) (NewGraph 0) calls.
Proof. done. Qed.

(** X19: how [loadGraph] ends. It returns the error of [os.ReadFile]; it
    exits when the first line is not a number; it panics in [NewGraph]
    when that number is negative or more than [make] can allocate.
    Otherwise it returns the graph built by one call of [AddEdge] for
    each line after the second that is not empty and has the three
    fields, in the order of the file: but for the panic, the number on
    the first line has no influence on the graph, and the second line
    has none. *)
Theorem loadGraph_builds_rows (file : option (list Z)) :
  loadGraph ParseInt Sscanf maxCap file =
    match file with
    | None => Failed
    | Some data =>
        match ParseInt (default [] (splitLines data !! 0%nat)) with
        | None => Exited
        | Some count =>
            if (0 <=? count) && (count <=? maxCap)
            then Returned (build (omap (edgeRow Sscanf) (drop 2 (splitLines data))))
            else Crashed
        end
    end.
Proof.
  unfold loadGraph, allocates. destruct file as [data|]; [|done].
  destruct (ParseInt _) as [claim|]; [|done].
  destruct (_ && _); [|done]. f_equal.
  rewrite build_foldl.
  destruct (splitLines data) as [|l0 [|l1 lines]]; [done..|].
  rewrite !imap_cons. simpl.
  apply (loadLine_rows (λ i, S (S i))). intros i. lia.
Qed.
End LoaderFacts.

(** The file with the lines [2], an empty line and [0 1 5], each ended by
    a newline; the same file with [-1] on its first line; a file that
    cannot be read. *)
Lemma loadGraph_example :
  splitLines [50; 10; 10; 48; 32; 49; 32; 53; 10] =
    [[50]; []; [48; 32; 49; 32; 53]; []] ∧
  loadGraph digit1 digits3 1000 (Some [50; 10; 10; 48; 32; 49; 32; 53; 10]) =
    Returned (build [(1, 0, 5)]) ∧
  loadGraph digit1 digits3 1000 (Some [45; 49; 10; 10; 48; 32; 49; 32; 53; 10]) =
    Crashed ∧
  loadGraph digit1 digits3 1000 (Some [120; 10; 10; 48; 32; 49; 32; 53; 10]) =
    Exited ∧
  loadGraph digit1 digits3 1000 None = Failed.
Proof. split_and!; vm_compute; reflexivity. Qed.


(** ** The adjacency-list variant: what it counts and what it stores *)

Section AdjListFacts.
Context {W : Type}.
Implicit Types (g : AdjList.Graph W) (calls : list (Z * Z * W)).

Lemma AdjList_build_snoc calls from to w :
  AdjList_build (calls ++ [(from, to, w)]) =
  AdjList.AddEdge from to w (AdjList_build calls).
Proof. unfold AdjList_build. by rewrite foldl_app. Qed.

Lemma AdjList_EdgeCount_AddEdge from to w g :
  AdjList.EdgeCount (AdjList.AddEdge from to w g) = S (AdjList.EdgeCount g).
Proof.
  unfold AdjList.EdgeCount, AdjList.AddEdge. simpl.
  set (f := Z.max from to).
  destruct (AdjList.Edges g !! f) as [es|] eqn:E; simpl.
  - rewrite <- (insert_delete_eq (AdjList.Edges g)) at 1.
    rewrite <- (insert_delete_id (AdjList.Edges g) f es E) at 2.
    rewrite !map_fold_insert_L; try (by rewrite lookup_delete_eq); try (intros; lia).
    rewrite length_app. simpl. lia.
  - rewrite map_fold_insert_L; [simpl; lia|intros; lia|done].
Qed.

Lemma AdjList_stored_AddEdge from to w g u v :
  AdjList.stored (AdjList.AddEdge from to w g) u v =
    AdjList.stored g u v ++
    (if decide (u = Z.max from to ∧ v = Z.min from to) then [w] else []).
Proof.
  unfold AdjList.stored, AdjList.AddEdge. simpl.
  destruct (decide (u = Z.max from to)) as [->|Hu].
  - rewrite lookup_insert_eq. simpl. rewrite filter_app, fmap_app. f_equal.
    rewrite filter_cons. simpl.
    destruct (decide (Z.min from to = v)) as [<-|Hv].
    + by rewrite decide_True by done.
    + rewrite decide_False by (intros [_ ->]; done). done.
  - rewrite lookup_insert_ne by done.
    rewrite decide_False by (by intros [-> _]). by rewrite app_nil_r.
Qed.

(** X20: in the adjacency-list variant [EdgeCount] counts the calls of
    [AddEdge]: an edge added twice is stored and counted twice, and an
    edge between two different nodes counts once, not twice. *)
Theorem AdjList_EdgeCount_counts_calls calls :
  AdjList.EdgeCount (AdjList_build calls) = length calls.
Proof.
  induction calls as [|[[from to] w] calls IH] using rev_ind; [done|].
  rewrite AdjList_build_snoc, AdjList_EdgeCount_AddEdge, IH, length_app.
  simpl. lia.
Qed.

(** X21: in the adjacency-list variant the edges stored from [u] to [v]
    are the weights of the calls whose larger endpoint is [u] and whose
    smaller endpoint is [v], in the order of the calls: nothing is
    overwritten, and nothing is stored from a node to a larger one. *)
Theorem AdjList_stored_keeps_every_call calls u v :
  AdjList.stored (AdjList_build calls) u v =
    (λ c, c.2) <$> filter (λ c, u = Z.max c.1.1 c.1.2 ∧ v = Z.min c.1.1 c.1.2) calls.
Proof.
  induction calls as [|[[from to] w] calls IH] using rev_ind; [done|].
  rewrite AdjList_build_snoc, AdjList_stored_AddEdge, IH, filter_app, fmap_app.
  f_equal. rewrite filter_cons. simpl. by destruct (decide _).
Qed.

(** X22: in the adjacency-list variant too, [NodeCount] is the number of
    distinct identifiers that occur as an endpoint of a call. *)
Theorem AdjList_NodeCount_distinct_endpoints calls :
  AdjList.NodeCount (AdjList_build calls) = size (endpoints calls).
Proof.
  unfold AdjList.NodeCount. f_equal.
  induction calls as [|[[from to] w] calls IH] using rev_ind; [done|].
  rewrite AdjList_build_snoc, endpoints_snoc. unfold AdjList.AddEdge. simpl.
  rewrite IH. apply set_eq. intros x.
  rewrite !elem_of_union, !elem_of_singleton.
  destruct (Z.max_spec from to) as [[? ->]|[? ->]],
    (Z.min_spec from to) as [[? ->]|[? ->]]; intuition lia.
Qed.
End AdjListFacts.


(** ** solve.go: what does not depend on scheduling and on the deadline *)

Section Scheduling.
Context {W : Type} `{Wt : Weight W} (comparable : W → Prop)
  {Wo : WeakOrderWeight W comparable}.

Lemma record_lockOrder (queues : list (list (list Z * W))) order1 order2 :
  let b1 := foldl record initial (serialize order1 queues) in
  let b2 := foldl record initial (serialize order2 queues) in
  wlt (bestCost b1) (bestCost b2) = false ∧ (bestPath b1 = None → bestPath b2 = None).
Proof.
  intros b1 b2.
  destruct (record_least comparable initial (serialize order1 queues) comparable_max)
    as (_ & _ & Hall1 & Hcase1).
  destruct (record_least comparable initial (serialize order2 queues) comparable_max)
    as (_ & _ & Hall2 & Hcase2).
  fold b1 in Hall1, Hcase1. fold b2 in Hall2, Hcase2.
  rewrite serialize_Permutation in Hall1, Hall2.
  destruct Hcase2 as [[Hp2 Hc2]|(p2 & Hp2 & Hin2 & Hlt2)].
  - split; [|by rewrite Hp2]. rewrite Hc2.
    destruct Hcase1 as [[_ ->]|(p1 & _ & Hin1 & Hlt1)]; [apply wlt_irrefl|].
    rewrite serialize_Permutation in Hin1.
    pose proof (proj1 (Forall_forall _ _) Hall2 _ Hin1) as H21. simpl in H21.
    rewrite Hc2 in H21. by rewrite Hlt1 in H21.
  - rewrite serialize_Permutation in Hin2.
    pose proof (proj1 (Forall_forall _ _) Hall1 _ Hin2) as H12. simpl in H12.
    destruct Hcase1 as [[Hp1 Hc1]|(p1 & Hp1 & Hin1 & Hlt1)].
    + rewrite Hc1 in H12. simpl in H12, Hlt2. by rewrite Hlt2 in H12.
    + rewrite serialize_Permutation in Hin1. split; [|by rewrite Hp1].
      apply (proj1 (Forall_forall _ _) Hall2 _ Hin1).
Qed.

(** X23: for the same attempts of the workers, the order in which the
    mutex serves them decides neither whether a tour is kept nor, up to
    ties, its cost: of the best costs left by two orders neither is
    below the other (they can differ only as 0.0 and -0.0 do), and a
    tour is kept under one order exactly when it is under the other. *)
Theorem best_cost_independent_of_lock_order (queues : list (list (list Z * W)))
    order1 order2 :
  let b1 := foldl record initial (serialize order1 queues) in
  let b2 := foldl record initial (serialize order2 queues) in
  wlt (bestCost b1) (bestCost b2) = false ∧
  wlt (bestCost b2) (bestCost b1) = false ∧
  (bestPath b1 = None ↔ bestPath b2 = None).
Proof.
  intros b1 b2.
  destruct (record_lockOrder queues order1 order2) as [H12 Hn12].
  destruct (record_lockOrder queues order2 order1) as [H21 Hn21].
  by split_and!.
Qed.
End Scheduling.

Section Anytime.
Context {W : Type} `{Wt : Weight W} {Ow : OrderedWeight W}.
Implicit Types (g : Graph W) (st : search W).

(** More polls continue the run where fewer polls ended it. *)
Lemma sweeps_more g size polls more st :
  match sweeps g size polls st with
  | (st', rest, Converged) =>
      sweeps g size (polls + more) st = (st', (rest + more)%nat, Converged)
  | (st', _, Cancelled) =>
      sweeps g size (polls + more) st = sweeps g size more st'
  end.
Proof.
  revert st. induction polls as [|polls IH]; intros st; [done|].
  cbn [sweeps Nat.add]. destruct (improved (sweep g size st)); [apply IH|done].
Qed.

Lemma sweeps_cost g size polls st :
  wle (currentCost (sweeps g size polls st).1.1) (currentCost st).
Proof.
  apply (sweeps_invariant g size (λ st', wle (currentCost st') (currentCost st))).
  - done.
  - intros i j st' Hij Hst'. unfold tryMove. destruct (_ && _); [done|].
    destruct (edge g _ _); [|done]. destruct (edge g _ _); [|done].
    destruct (wlt _ wnegeps) eqn:Hd; [|done]. simpl.
    eapply wle_trans; [by apply wadd_improving|done].
  - apply wle_refl.
Qed.

(** X24: [twoOpt] is an anytime refinement: a context that stays open
    for more sweeps never gives a higher cost, and once a run has
    converged, more time changes neither the tour nor the cost. *)
Theorem twoOpt_more_time_never_hurts path cost g polls more :
  wle (twoOpt path cost g (polls + more)).2 (twoOpt path cost g polls).2 ∧
  ((twoOptRun path cost g polls).2 = Converged →
   twoOpt path cost g (polls + more) = twoOpt path cost g polls).
Proof.
  unfold twoOpt, twoOptRun.
  set (st0 := {| tour := path; currentCost := cost; improved := true; trail := [] |}).
  pose proof (sweeps_more g (length path) polls more st0) as Hmore.
  destruct (sweeps g (length path) polls st0) as [[st' rest] [|]]; rewrite Hmore; simpl.
  - split; [apply wle_refl|done].
  - split; [|done].
    pose proof (sweeps_cost g (length path) more st') as Hc.
    by destruct (sweeps g (length path) more st') as [[??]?].
Qed.
End Anytime.

Lemma best_cost_independent_of_lock_order_witness :
  bestCost (foldl record initial
              (serialize [] [[([0; 1], 0%float)]; [([1; 0], (-0)%float)]])) = 0%float ∧
  bestCost (foldl record initial
              (serialize [1%nat] [[([0; 1], 0%float)]; [([1; 0], (-0)%float)]]))
    = (-0)%float ∧
  (0 <? -0)%float = false ∧ (-0 <? 0)%float = false.
Proof.
  split; [vm_compute; reflexivity|]. split; [vm_compute; reflexivity|].
  pose proof (best_cost_independent_of_lock_order (Wt := float64) notNaN
                (Wo := float64_weak)
                [[([0; 1], 0%float)]; [([1; 0], (-0)%float)]] [] [1%nat]) as Hw.
  vm_compute in Hw. exact (conj (proj1 Hw) (proj1 (proj2 Hw))).
Defined.

Lemma twoOpt_more_time_never_hurts_witness :
  (twoOpt [0; 2; 1; 3] 4828427124 squareNano (1 + 4)).2 ≤
    (twoOpt [0; 2; 1; 3] 4828427124 squareNano 1).2 ∧
  ((twoOptRun [0; 2; 1; 3] 4828427124 squareNano 1).2 = Converged →
   twoOpt [0; 2; 1; 3] 4828427124 squareNano (1 + 4) =
   twoOpt [0; 2; 1; 3] 4828427124 squareNano 1).
Proof.
  exact (twoOpt_more_time_never_hurts (Ow := nano_ordered)
           [0; 2; 1; 3] 4828427124 squareNano 1 4).
Defined.
